(** * Exact solution of the job-shop scheduling problem

    A shallow embedding of [src/schedule_generator/exact_solution.py]:
    the construction of the mixed-integer model ([generate_model]), the
    interpretation of the solver's answer ([solve_model]), the extraction
    of the per-machine job order ([get_schedule]) and the validation of a
    schedule against the solved start times ([validate_schedule]).

    Numbers (durations, setup times, due dates, solved variable values)
    are rationals: the program only adds, multiplies and compares them.
    Dictionaries are finite maps, Python exceptions are the [Raise] case
    of [result], printed lines are collected in a list. *)

From Stdlib Require Import QArith Lia Lqa.
From stdpp Require Import gmap list sorting strings.

#[local] Set Warnings "-register-all".
Local Open Scope Q_scope.

(* ===================================================================== *)
(** ** Python exceptions and printed output *)
(* ===================================================================== *)

Inductive exn :=
| IndexError                                   (* sequence index out of range *)
| KeyError                                     (* missing dictionary / component key *)
| TypeError                                    (* ordering comparison with None *)
| ValueError (component : string) (trivial : bool)
    (* a constraint rule returned a plain Python bool *)
| Exception (msg : string).                    (* raise Exception(msg) *)

Inductive result (A : Type) :=
| Ok (a : A)
| Raise (e : exn).
Arguments Ok {A} a.
Arguments Raise {A} e.

#[global] Instance result_ret : MRet result := fun A a => Ok a.
#[global] Instance result_bind : MBind result := fun A B f r =>
  match r with Ok a => f a | Raise e => Raise e end.

#[global] Instance result_fmap : FMap result := fun A B f r =>
  match r with Ok a => Ok (f a) | Raise e => Raise e end.

Definition is_Ok {A} (r : result A) : bool :=
  match r with Ok _ => true | Raise _ => false end.

(** [seq[i]] on a Python list with a non-negative index. *)
Definition index {A} (l : list A) (i : nat) : result A :=
  match l !! i with Some x => Ok x | None => Raise IndexError end.

(** [d[k]] on a Python dict. *)
Definition getitem {A} (d : gmap nat A) (k : nat) : result A :=
  match d !! k with Some x => Ok x | None => Raise KeyError end.

(** [k in d] on a Python dict. *)
Definition contains {A} (d : gmap nat A) (k : nat) : bool :=
  bool_decide (is_Some (d !! k)).

(** [for x in l: s = body(x, s)], stopping at the first exception. *)
Fixpoint for_each {A S} (l : list A) (body : A -> S -> result S) (s : S)
  : result S :=
  match l with
  | [] => Ok s
  | x :: rest => s' ← body x s; for_each rest body s'
  end.

(** A printed line.  The f-string of [validate_schedule] is kept as its
    four interpolated fields. *)
Inductive line :=
| Text (s : string)
| StartMismatch (job_idx : Z) (machine : nat) (expected : option Q) (got : Q).

(* ===================================================================== *)
(** ** The problem view: [JobShopProblem]

    The class lives in [src/schedule_generator/main.py]; this module reads
    [jssp.jobs] (each job's [available_machines], [dependencies] and
    [days_till_delivery]), [len(jssp.machines)] and [jssp.setup_times]. *)
(* ===================================================================== *)

Record Job := {
  available_machines : gmap nat Q;   (* machine id -> duration in minutes *)
  dependencies : gset nat;           (* jobs that must finish first *)
  days_till_delivery : Q
}.

Record JobShopProblem := {
  jobs : list Job;
  machines : nat;                    (* len(jssp.machines) *)
  setup_times : list (list Q)        (* setup_times[pred][succ] *)
}.

(* ===================================================================== *)
(** ** The modelling layer: variables, expressions, constraints *)
(* ===================================================================== *)

(** The four indexed variable families declared on lines 16-19. *)
Inductive var :=
| t (j : nat)
| alpha (j machine : nat)
| beta (j1 j2 : nat)
| tardiness (j : nat).

Module pyo.

Inductive domain := NonNegativeReals | Binary.
Inductive sense := minimize | maximize.

(** Expressions as the overloaded operators build them.  [Num] is a
    native Python number, everything else is a modelling object. *)
Inductive expr :=
| Num (q : Q)
| V (v : var)
| Add (a b : expr)
| Sub (a b : expr)
| Mul (a b : expr)
| Sum (terms : list expr).

Inductive relation :=
| Ge (lhs rhs : expr)
| Eq (lhs rhs : expr).

(** What a constraint rule may return. *)
Inductive rule_result :=
| Skip                      (* pyo.Constraint.Skip *)
| Rel (r : relation)        (* a relational expression *)
| PyBool (b : bool).        (* a plain bool: both sides were numbers *)

(** [pyo.quicksum(args, start=0)]: the sum of the terms; for an empty
    iterable it returns its start value, the native number 0. *)
Definition quicksum (terms : list expr) : expr :=
  match terms with
  | [] => Num 0
  | _ :: _ => Sum terms
  end.

(** [a >= b]: the overloaded operator builds a relational expression as
    soon as one side is a modelling object; between two native numbers
    it is the Python comparison and yields a bool. *)
Definition __ge__ (a b : expr) : rule_result :=
  match a, b with
  | Num x, Num y => PyBool (Qle_bool y x)
  | _, _ => Rel (Ge a b)
  end.

(** [a == b], likewise. *)
Definition __eq__ (a b : expr) : rule_result :=
  match a, b with
  | Num x, Num y => PyBool (Qeq_bool x y)
  | _, _ => Rel (Eq a b)
  end.

(** [pyo.Constraint(index_set, rule=rule)]: the rule is called on every
    index in order; [Skip] adds nothing, a relational expression is
    stored under its index, a plain bool is rejected with a ValueError
    ("resolved to a trivial Boolean"), an exception of the rule
    propagates. *)
Fixpoint Constraint {I} (name : string) (index_set : list I)
    (rule : I -> result rule_result) : result (list (I * relation)) :=
  match index_set with
  | [] => Ok []
  | i :: rest =>
      r ← rule i;
      match r with
      | Skip => Constraint name rest rule
      | Rel c => cs ← Constraint name rest rule; Ok ((i, c) :: cs)
      | PyBool b => Raise (ValueError name b)
      end
  end.

Inductive SolverStatus := ok | warning | error | aborted | unknown.

Inductive TerminationCondition :=
| optimal | infeasible | unbounded | infeasibleOrUnbounded
| maxTimeLimit | maxIterations | feasible | other.

(** [res.solver] of the object returned by [solver.solve]. *)
Record SolverResults := {
  status : SolverStatus;
  termination_condition : TerminationCondition
}.

#[global] Instance SolverStatus_eq_dec : EqDecision SolverStatus.
Proof. solve_decision. Defined.
#[global] Instance TerminationCondition_eq_dec :
  EqDecision TerminationCondition.
Proof. solve_decision. Defined.

End pyo.

Import pyo.

(** Meaning of expressions and relations under a valuation. *)
Fixpoint eval (rho : var -> Q) (e : expr) : Q :=
  match e with
  | Num q => q
  | V v => rho v
  | Add a b => eval rho a + eval rho b
  | Sub a b => eval rho a - eval rho b
  | Mul a b => eval rho a * eval rho b
  | Sum terms => foldr (fun e acc => eval rho e + acc) 0 terms
  end.

Definition holds (rho : var -> Q) (r : relation) : Prop :=
  match r with
  | Ge a b => eval rho b <= eval rho a
  | Eq a b => eval rho a == eval rho b
  end.

Definition in_domain (d : domain) (x : Q) : Prop :=
  match d with
  | NonNegativeReals => 0 <= x
  | Binary => x == 0 \/ x == 1
  end.

(** [pyo.ConcreteModel] with the components [generate_model] puts on it.
    [value v] is the [.value] attribute of a variable: [None] until a
    value is initialised or loaded from a solve. *)
Record ConcreteModel := {
  model_jobs : list nat;
  model_machines : list nat;
  model_domain : var -> domain;
  value : var -> option Q;
  model_objective : expr;
  model_sense : sense;
  model_calculate_tardiness : list (nat * relation);
  model_one_machine_per_job : list (nat * relation);
  model_alpha_zero_if_not_available : list (nat * nat * relation);
  model_precedence_order : list (nat * nat * relation);
  model_no_overlapping_1 : list (nat * nat * nat * relation);
  model_no_overlapping_2 : list (nat * nat * nat * relation)
}.

(** Every relation stored on the model, whatever its component. *)
Definition constraints (model : ConcreteModel) : list relation :=
  (model_calculate_tardiness model).*2
  ++ (model_one_machine_per_job model).*2
  ++ (model_alpha_zero_if_not_available model).*2
  ++ (model_precedence_order model).*2
  ++ (model_no_overlapping_1 model).*2
  ++ (model_no_overlapping_2 model).*2.

(** A valuation is feasible when it respects the variable domains and
    every constraint. *)
Definition feasible_point (model : ConcreteModel) (rho : var -> Q) : Prop :=
  (forall v, in_domain (model_domain model v) (rho v))
  /\ Forall (holds rho) (constraints model).

(* ===================================================================== *)
(** ** [generate_model] (lines 8-119) *)
(* ===================================================================== *)

Definition H : Q := 10000.      (* H = 10e3 *)

(** [x for j1 in a for j2 in b], the order of a product index set. *)
Definition product {A B} (a : list A) (b : list B) : list (A * B) :=
  a ≫= fun x => pair x <$> b.

Section rules.
Variable jssp : JobShopProblem.
Variable m_machines : list nat.       (* m.machines *)

(** The generator shared by lines 31-35 and 66-70:
    [m.alpha[j, machine] * available_machines.get(machine, 0)
     for machine in m.machines if machine in available_machines]. *)
Definition duration_terms (j : nat) (job : Job) : list expr :=
  (fun machine =>
     Mul (V (alpha j machine))
         (Num (default 0 (available_machines job !! machine))))
  <$> List.filter (contains (available_machines job)) m_machines.

Definition calculate_tardiness (j : nat) : result rule_result :=
  job ← index (jobs jssp) j;
  Ok (__ge__ (V (tardiness j))
         (Sub (Add (V (t j)) (quicksum (duration_terms j job)))
              (Num (days_till_delivery job * 24 * 60)))).

Definition one_machine_per_job (j : nat) : result rule_result :=
  job ← index (jobs jssp) j;
  Ok (__eq__ (quicksum ((fun machine => V (alpha j machine))
                    <$> List.filter (contains (available_machines job))
                                    m_machines))
         (Num 1)).

Definition alpha_zero_if_not_available (idx : nat * nat)
  : result rule_result :=
  let '(j, machine) := idx in
  job ← index (jobs jssp) j;
  if negb (contains (available_machines job) machine)
  then Ok (__eq__ (V (alpha j machine)) (Num 0))
  else Ok Skip.

Definition precedence_order (idx : nat * nat) : result rule_result :=
  let '(j1, j2) := idx in
  job1 ← index (jobs jssp) j1;
  if bool_decide (0 < size (dependencies job1))%nat
     && bool_decide (j2 ∈ dependencies job1)
  then
    job2 ← index (jobs jssp) j2;
    Ok (__ge__ (V (t j1))
           (Add (V (t j2)) (quicksum (duration_terms j2 job2))))
  else Ok Skip.

(** The guard shared by both mutual-exclusion rules (lines 80-84 and
    100-104); [or] evaluates left to right and stops at the first true
    operand. *)
Definition overlap_skipped (j1 j2 machine : nat) : result bool :=
  if bool_decide (j1 = j2) then Ok true
  else
    job1 ← index (jobs jssp) j1;
    if negb (contains (available_machines job1) machine) then Ok true
    else
      job2 ← index (jobs jssp) j2;
      Ok (negb (contains (available_machines job2) machine)).

Definition no_overlapping_1 (idx : nat * nat * nat) : result rule_result :=
  let '(j1, j2, machine) := idx in
  overlap_skipped j1 j2 machine ≫= fun skip : bool =>
  if skip then Ok Skip
  else
    job2 ← index (jobs jssp) j2;
    d ← getitem (available_machines job2) machine;
    row ← index (setup_times jssp) j2;
    s ← index row j1;
    Ok (__ge__ (V (t j1))
           (Sub (Add (Add (V (t j2)) (Num d)) (Num s))
                (Mul (Add (Sub (Sub (Num 2) (V (alpha j1 machine)))
                               (V (alpha j2 machine)))
                          (V (beta j1 j2)))
                     (Num H)))).

Definition no_overlapping_2 (idx : nat * nat * nat) : result rule_result :=
  let '(j1, j2, machine) := idx in
  overlap_skipped j1 j2 machine ≫= fun skip : bool =>
  if skip then Ok Skip
  else
    job1 ← index (jobs jssp) j1;
    d ← getitem (available_machines job1) machine;
    row ← index (setup_times jssp) j1;
    s ← index row j2;
    Ok (__ge__ (V (t j2))
           (Sub (Add (Add (V (t j1)) (Num d)) (Num s))
                (Mul (Sub (Sub (Sub (Num 3) (V (alpha j1 machine)))
                               (V (alpha j2 machine)))
                          (V (beta j1 j2)))
                     (Num H)))).
End rules.

(** Domains of lines 16-19. *)
Definition declared_domain (v : var) : domain :=
  match v with
  | t _ => NonNegativeReals
  | alpha _ _ => Binary
  | beta _ _ => Binary
  | tardiness _ => NonNegativeReals
  end.

(** Only [alpha] is given an initial value (line 17). *)
Definition initial_value (n_jobs n_machines : nat) (v : var) : option Q :=
  match v with
  | alpha j machine =>
      if bool_decide (j < n_jobs)%nat && bool_decide (machine < n_machines)%nat
      then Some 0 else None
  | _ => None
  end.

Definition generate_model (jssp : JobShopProblem) : result ConcreteModel :=
  let js := seq 0 (length (jobs jssp)) in
  let ms := seq 0 (machines jssp) in
  c_tard ← Constraint "calculate_tardiness" js (calculate_tardiness jssp ms);
  c_one ← Constraint "one_machine_per_job" js (one_machine_per_job jssp ms);
  c_zero ← Constraint "alpha_zero_if_not_available" (product js ms)
             (alpha_zero_if_not_available jssp);
  c_prec ← Constraint "precedence_order" (product js js)
             (precedence_order jssp ms);
  c_no1 ← Constraint "no_overlapping_1" (product (product js js) ms)
            (no_overlapping_1 jssp);
  c_no2 ← Constraint "no_overlapping_2" (product (product js js) ms)
            (no_overlapping_2 jssp);
  Ok {| model_jobs := js;
        model_machines := ms;
        model_domain := declared_domain;
        value := initial_value (length (jobs jssp)) (machines jssp);
        model_objective := quicksum ((fun j => V (tardiness j)) <$> js);
        model_sense := minimize;
        model_calculate_tardiness := c_tard;
        model_one_machine_per_job := c_one;
        model_alpha_zero_if_not_available := c_zero;
        model_precedence_order := c_prec;
        model_no_overlapping_1 := c_no1;
        model_no_overlapping_2 := c_no2 |}.

(* ===================================================================== *)
(** ** [solve_model] (lines 122-131)

    The model is a Python object: it is held in a store and passed by
    reference.  The solver is external; [solve h model] is the store it
    leaves behind (values loaded into the model in place) together with
    the results object it returns, or the exception it raises. *)
(* ===================================================================== *)

Abbreviation loc := nat (only parsing).
Abbreviation store := (gmap nat ConcreteModel) (only parsing).

Definition solver_type : Type :=
  store -> loc -> store * result SolverResults.

Definition solve_model (solve : solver_type) (h : store) (model : loc)
  : store * list line * result loc :=
  let '(h', r) := solve h model in
  match r with
  | Raise e => (h', [], Raise e)
  | Ok res =>
      if bool_decide (status res ≠ ok) then
        (h', [Text "Check solver not ok..."],
         Raise (Exception "Solver not ok"))
      else if bool_decide (termination_condition res ≠ optimal) then
        (h', [Text "Could not find optimal solution, probably infeasible..."],
         Raise (Exception "Infeasible solution"))
      else (h', [], Ok model)
  end.

(** What loading a solution does to a model object: the variables get
    their values, nothing else changes. *)
Definition load_values (values : var -> option Q) (model : ConcreteModel)
  : ConcreteModel :=
  {| model_jobs := model_jobs model;
     model_machines := model_machines model;
     model_domain := model_domain model;
     value := values;
     model_objective := model_objective model;
     model_sense := model_sense model;
     model_calculate_tardiness := model_calculate_tardiness model;
     model_one_machine_per_job := model_one_machine_per_job model;
     model_alpha_zero_if_not_available :=
       model_alpha_zero_if_not_available model;
     model_precedence_order := model_precedence_order model;
     model_no_overlapping_1 := model_no_overlapping_1 model;
     model_no_overlapping_2 := model_no_overlapping_2 model |}.

(** Lines 163-166 of the script part: build the model, then solve it.
    The fresh model object is stored at the first free location. *)
Definition generate_and_solve (solve : solver_type) (jssp : JobShopProblem)
  : list line * result loc :=
  match generate_model jssp with
  | Raise e => ([], Raise e)
  | Ok model =>
      let '(_, out, r) := solve_model solve {[ 0%nat := model ]} 0%nat in
      (out, r)
  end.

(* ===================================================================== *)
(** ** [get_schedule] (lines 134-147) *)
(* ===================================================================== *)

(** [a < b] on two [.value]s: numbers compare, [None] does not. *)
Definition py_lt (a b : option Q) : result bool :=
  match a, b with
  | Some x, Some y => Ok (negb (Qle_bool y x))
  | _, _ => Raise TypeError
  end.

(** [sorted(l, key=key)]: a stable sort that only uses [<] on the keys.
    [insert_sorted key x l] puts [x], which stood before every element of
    [l] in the input, in front of the first element that is not smaller. *)
Fixpoint insert_sorted (key : nat -> option Q) (x : nat) (l : list nat)
  : result (list nat) :=
  match l with
  | [] => Ok [x]
  | y :: l' =>
      py_lt (key y) (key x) ≫= fun lt : bool =>
      if lt then r ← insert_sorted key x l'; Ok (y :: r)
      else Ok (x :: y :: l')
  end.

Fixpoint sorted (key : nat -> option Q) (l : list nat) : result (list nat) :=
  match l with
  | [] => Ok []
  | x :: rest => s ← sorted key rest; insert_sorted key x s
  end.

(** The three things the loop updates. *)
Record extraction := {
  job_order : list (list Z);                 (* the numpy array *)
  jobs_assigned_on_machine : gmap nat nat;
  stdout : list line
}.

(** [a[r, c] = v] on a two-dimensional array. *)
Definition setitem2 (a : list (list Z)) (r c : nat) (v : Z)
  : result (list (list Z)) :=
  row ← index a r;
  if bool_decide (c < length row)%nat
  then Ok (<[r := <[c := v]> row]> a)
  else Raise IndexError.

(** [model.alpha[j, m].value == 1] *)
Definition alpha_is_1 (model : ConcreteModel) (j m : nat) : bool :=
  match value model (alpha j m) with
  | Some x => Qeq_bool x 1
  | None => false
  end.

Definition multiple_machines : line :=
  Text "Error: Multiple machines assigned to job".

(** Body of the inner loop (lines 141-146); the state carries [found]. *)
Definition visit_machine (model : ConcreteModel) (j m : nat)
    (s : extraction * bool) : result (extraction * bool) :=
  let '(e, found) := s in
  if alpha_is_1 model j m && negb found then
    k ← getitem (jobs_assigned_on_machine e) m;
    a ← setitem2 (job_order e) m k (Z.of_nat j);
    Ok ({| job_order := a;
           jobs_assigned_on_machine := <[m := S k]> (jobs_assigned_on_machine e);
           stdout := stdout e |}, true)
  else if found && alpha_is_1 model j m then
    Ok ({| job_order := job_order e;
           jobs_assigned_on_machine := jobs_assigned_on_machine e;
           stdout := stdout e ++ [multiple_machines] |}, found)
  else Ok (e, found).

(** Body of the outer loop (lines 139-146). *)
Definition visit_job (model : ConcreteModel) (j : nat) (e : extraction)
  : result extraction :=
  fst <$> for_each (model_machines model) (visit_machine model j) (e, false).

Definition initial_extraction (model : ConcreteModel) : extraction :=
  {| job_order :=
       replicate (length (model_machines model))
                 (replicate (length (model_jobs model)) (-2)%Z);
     jobs_assigned_on_machine :=
       list_to_map ((fun m => (m, 0%nat)) <$> model_machines model);
     stdout := [] |}.

(** Returns what was printed together with the array. *)
Definition get_schedule (model : ConcreteModel)
  : result (list line * list (list Z)) :=
  let job_start_times := fun j => value model (t j) in
  order ← sorted job_start_times (model_jobs model);
  e ← for_each order (visit_job model) (initial_extraction model);
  Ok (stdout e, job_order e).

(* ===================================================================== *)
(** ** [validate_schedule] (lines 149-157) *)
(* ===================================================================== *)

(** [schedule_type]: machine -> list of (job index, start, end), in the
    dictionary's iteration order. *)
Abbreviation schedule_type :=
  (list (nat * list (Z * Q * Q))) (only parsing).

(** [model.t[job_idx].value]: the index must be a member of [model.jobs]. *)
Definition t_value (model : ConcreteModel) (job_idx : Z) : result (option Q) :=
  if bool_decide (0 <= job_idx)%Z
     && bool_decide (Z.to_nat job_idx ∈ model_jobs model)
  then Ok (value model (t (Z.to_nat job_idx)))
  else Raise KeyError.

(** [v != start_time] *)
Definition py_ne (v : option Q) (start_time : Q) : bool :=
  match v with
  | Some x => negb (Qeq_bool x start_time)
  | None => true
  end.

(** The inner loop: [Ok true] when it runs to its end, [Ok false] when it
    executes [return False]. *)
Fixpoint validate_jobs (model : ConcreteModel) (machine : nat)
    (js : list (Z * Q * Q)) : list line * result bool :=
  match js with
  | [] => ([], Ok true)
  | (job_idx, start_time, end_time) :: rest =>
      if bool_decide (job_idx = -1 \/ job_idx = -2)%Z
      then validate_jobs model machine rest
      else
        match t_value model job_idx with
        | Raise e => ([], Raise e)
        | Ok v =>
            if py_ne v start_time
            then ([StartMismatch job_idx machine v start_time], Ok false)
            else validate_jobs model machine rest
        end
  end.

Fixpoint validate_schedule (model : ConcreteModel) (schedule : schedule_type)
  : list line * result bool :=
  match schedule with
  | [] => ([], Ok true)
  | (machine, js) :: rest =>
      match validate_jobs model machine js with
      | (out, Ok true) => validate_schedule model rest
      | r => r
      end
  end.

(* ===================================================================== *)
(** * Properties *)
(* ===================================================================== *)

(** ** Problem-side vocabulary *)

(** [duration jssp j m]: the processing time of job [j] on machine [m],
    defined exactly when [m] is a key of the job's [available_machines]. *)
Definition duration (jssp : JobShopProblem) (j m : nat) : option Q :=
  jobs jssp !! j ≫= fun job => available_machines job !! m.

(** Machine [m] is one of the model's machines and job [j] may run on it. *)
Definition eligible (jssp : JobShopProblem) (j m : nat) : Prop :=
  (m < machines jssp)%nat /\ is_Some (duration jssp j m).

(** [setup jssp j1 j2]: the setup time when [j2] follows [j1]. *)
Definition setup (jssp : JobShopProblem) (j1 j2 : nat) : option Q :=
  setup_times jssp !! j1 ≫= fun row => row !! j2.

(** [j2] is a dependency of [j1]. *)
Definition depends_on (jssp : JobShopProblem) (j1 j2 : nat) : Prop :=
  exists job1, jobs jssp !! j1 = Some job1 /\ j2 ∈ dependencies job1.

(** The linearised duration of job [j]:
    the sum over its eligible machines of [alpha[j,m] * duration[j,m]]. *)
Definition assigned_duration (jssp : JobShopProblem) (j : nat) : expr :=
  quicksum
    (omap (fun m => (fun d => Mul (V (alpha j m)) (Num d)) <$> duration jssp j m)
          (seq 0 (machines jssp))).

(** The sum of [alpha[j,m]] over the eligible machines of job [j]. *)
Definition assignment_sum (jssp : JobShopProblem) (j : nat) : expr :=
  quicksum
    (omap (fun m => (fun _ => V (alpha j m)) <$> duration jssp j m)
          (seq 0 (machines jssp))).

(** The two big-M inequalities of the source, for the ordered triple
  [(j1, j2, m)], with [d1], [d2] the durations on [m] and [s12],
  [s21] the setup times. *)
Definition big_M_1 (j1 j2 m : nat) (d2 s21 : Q) : relation :=
  Ge (V (t j1))
     (Sub (Add (Add (V (t j2)) (Num d2)) (Num s21))
          (Mul (Add (Sub (Sub (Num 2) (V (alpha j1 m))) (V (alpha j2 m)))
                    (V (beta j1 j2)))
               (Num H))).

Definition big_M_2 (j1 j2 m : nat) (d1 s12 : Q) : relation :=
  Ge (V (t j2))
     (Sub (Add (Add (V (t j1)) (Num d1)) (Num s12))
          (Mul (Sub (Sub (Sub (Num 3) (V (alpha j1 m))) (V (alpha j2 m)))
                    (V (beta j1 j2)))
               (Num H))).

(** A problem is well formed when every job may run on some machine of
    the model and the setup-time matrix covers every pair of jobs. *)
Definition well_formed (jssp : JobShopProblem) : Prop :=
  (forall j, (j < length (jobs jssp))%nat -> exists m, eligible jssp j m)
  /\ (forall j1 j2,
        (j1 < length (jobs jssp))%nat -> (j2 < length (jobs jssp))%nat ->
        is_Some (setup jssp j1 j2)).

(** Every job may run on some machine of the model. *)
Definition every_job_eligible (jssp : JobShopProblem) : Prop :=
  forall j, (j < length (jobs jssp))%nat -> exists m, eligible jssp j m.

(** The setup-time matrix has the entries the mutual-exclusion rules
    read: one for each ordered pair of distinct jobs that share a machine
    of the model. *)
Definition setups_present (jssp : JobShopProblem) : Prop :=
  forall j1 j2 m,
    (j1 < length (jobs jssp))%nat -> (j2 < length (jobs jssp))%nat ->
    j1 <> j2 -> eligible jssp j1 m -> eligible jssp j2 m ->
    is_Some (setup jssp j1 j2).

(** The sum of [f m] over the machines [ms]. *)
Definition total (f : nat -> Q) (ms : list nat) : Q :=
  foldr (fun m acc => f m + acc) 0 ms.

(** The assignment indicator of [(j, m)] at a point, counted only on the
    machines on which the job may run. *)
Definition eligible_indicator (jssp : JobShopProblem) (rho : var -> Q)
    (j m : nat) : Q :=
  match duration jssp j m with
  | Some _ => rho (alpha j m)
  | None => 0
  end.

(** The share of machine [m] in the linearised duration of job [j]. *)
Definition duration_share (jssp : JobShopProblem) (rho : var -> Q)
    (j m : nat) : Q :=
  match duration jssp j m with
  | Some d => rho (alpha j m) * d
  | None => 0
  end.

(** The model once the point [rho] is loaded as its solution. *)
Definition load_point (rho : var -> Q) (model : ConcreteModel)
  : ConcreteModel :=
  load_values (fun v => Some (rho v)) model.

(** ** Extraction-side vocabulary *)

(** The solved start time of job [j]. *)
Definition start (model : ConcreteModel) (j : nat) : Q :=
  default 0 (value model (t j)).

(** [i] comes before [j] when sorting by [key] with ties broken by the
    index: smaller key, or equal key and smaller index. *)
Definition key_before (key : nat -> option Q) (i j : nat) : Prop :=
  default 0 (key i) < default 0 (key j)
  \/ (default 0 (key i) == default 0 (key j) /\ (i < j)%nat).

(** The order of extraction: earlier start, or equal start and smaller
    job index. *)
Definition earlier (model : ConcreteModel) (i j : nat) : Prop :=
  key_before (fun j => value model (t j)) i j.

(** The first machine whose assignment indicator equals 1. *)
Definition assigned_machine (model : ConcreteModel) (j : nat) : option nat :=
  List.find (alpha_is_1 model j) (model_machines model).

(** The number of further machines whose indicator equals 1. *)
Definition extra_machines (model : ConcreteModel) (j : nat) : nat :=
  length (List.filter (alpha_is_1 model j) (model_machines model)) - 1.

(** The jobs of [order] that are placed on machine [m], in that order. *)
Definition placed (model : ConcreteModel) (order : list nat) (m : nat)
  : list nat :=
  filter (fun j => assigned_machine model j = Some m) order.

(** Row [m] of the array: the placed jobs, then the sentinel -2. *)
Definition row_of (model : ConcreteModel) (order : list nat) (m : nat)
  : list Z :=
  (Z.of_nat <$> placed model order m)
  ++ replicate (length (model_jobs model) - length (placed model order m))
               (-2)%Z.

(** One line per further machine, job after job. *)
Definition diagnostics (model : ConcreteModel) (order : list nat)
  : list line :=
  order ≫= fun j => replicate (extra_machines model j) multiple_machines.

(** What holds of the loop state once the jobs of [done] are visited. *)
Definition extraction_inv (model : ConcreteModel) (done : list nat)
    (e : extraction) : Prop :=
  length (job_order e) = length (model_machines model)
  /\ (forall m, m ∈ model_machines model ->
        job_order e !! m = Some (row_of model done m)
        /\ jobs_assigned_on_machine e !! m
           = Some (length (placed model done m)))
  /\ stdout e = diagnostics model done.

(** A model as [solve_model] hands it over: the index sets are the two
    ranges of [generate_model] and every start time has a value. *)
Definition solved (model : ConcreteModel) (n_jobs n_machines : nat) : Prop :=
  model_jobs model = seq 0 n_jobs
  /\ model_machines model = seq 0 n_machines
  /\ forall j, (j < n_jobs)%nat -> is_Some (value model (t j)).

(** ** Validation-side vocabulary *)

(** A schedule entry agrees with the model: it is a sentinel, or its job
    is a job of the model whose solved start time is the recorded one. *)
Definition entry_matches (model : ConcreteModel) (entry : Z * Q * Q) : Prop :=
  let '(job_idx, start_time, _) := entry in
  job_idx = (-1)%Z \/ job_idx = (-2)%Z
  \/ exists v, t_value model job_idx = Ok (Some v) /\ v == start_time.

(** The same with a tolerance [eps] on the start time. *)
Definition entry_within (eps : Q) (model : ConcreteModel)
    (entry : Z * Q * Q) : Prop :=
  let '(job_idx, start_time, _) := entry in
  job_idx = (-1)%Z \/ job_idx = (-2)%Z
  \/ exists v, t_value model job_idx = Ok (Some v)
               /\ start_time - eps <= v /\ v <= start_time + eps.

(** Every entry of every machine satisfies [P]. *)
Definition all_entries (P : Z * Q * Q -> Prop) (schedule : schedule_type)
  : Prop :=
  Forall (fun item => Forall P item.2) schedule.

(** The (job index, start time) pairs of a schedule, machine after
    machine, in the order in which [validate_schedule] meets them. *)
Definition recorded_starts (schedule : schedule_type) : list (Z * Q) :=
  schedule ≫= fun item => (fun entry => (entry.1.1, entry.1.2)) <$> item.2.

(** The verdict as a function of those pairs alone. *)
Fixpoint verdict (model : ConcreteModel) (pairs : list (Z * Q))
  : result bool :=
  match pairs with
  | [] => Ok true
  | (job_idx, start_time) :: rest =>
      if bool_decide (job_idx = -1 \/ job_idx = -2)%Z
      then verdict model rest
      else
        match t_value model job_idx with
        | Raise e => Raise e
        | Ok v => if py_ne v start_time then Ok false else verdict model rest
        end
  end.

(** ** Example problems *)

(** A two-job, one-machine problem: job 0 takes 10 minutes, job 1 takes
    5 minutes and depends on job 0; no setup time. *)
Definition two_jobs : JobShopProblem :=
  {| jobs := [ {| available_machines := {[ 0%nat := 10 ]};
                  dependencies := ∅;
                  days_till_delivery := 0 |};
               {| available_machines := {[ 0%nat := 5 ]};
                  dependencies := {[ 0%nat ]};
                  days_till_delivery := 0 |} ];
     machines := 1;
     setup_times := [[0; 0]; [0; 0]] |}.

(** Two machines, two jobs that share none: job 0 runs on machine 0 only,
    job 1 on machine 1 only (machine 0 is locked out for it). *)
Definition disjoint_jobs : JobShopProblem :=
  {| jobs := [ {| available_machines := {[ 0%nat := 10 ]};
                  dependencies := ∅;
                  days_till_delivery := 1 |};
               {| available_machines := {[ 1%nat := 5 ]};
                  dependencies := ∅;
                  days_till_delivery := 1 |} ];
     machines := 2;
     setup_times := [[0; 3]; [4; 0]] |}.

(** One machine and one job that may run nowhere. *)
Definition stranded_job : JobShopProblem :=
  {| jobs := [ {| available_machines := ∅;
                  dependencies := ∅;
                  days_till_delivery := 1 |} ];
     machines := 1;
     setup_times := [[0]] |}.

(** A model object without constraints, to carry solved values. *)
Definition bare_model (n_jobs n_machines : nat) (values : var -> option Q)
  : ConcreteModel :=
  {| model_jobs := seq 0 n_jobs;
     model_machines := seq 0 n_machines;
     model_domain := declared_domain;
     value := values;
     model_objective := quicksum ((fun j => V (tardiness j)) <$> seq 0 n_jobs);
     model_sense := minimize;
     model_calculate_tardiness := [];
     model_one_machine_per_job := [];
     model_alpha_zero_if_not_available := [];
     model_precedence_order := [];
     model_no_overlapping_1 := [];
     model_no_overlapping_2 := [] |}.

(** The optimal solution of [two_jobs]: job 0 at minute 0, job 1 at
    minute 10, both on machine 0. *)
Definition two_jobs_values (v : var) : option Q :=
  match v with
  | t 0 => Some 0
  | t 1 => Some 10
  | alpha 0 0 => Some 1
  | alpha 1 0 => Some 1
  | beta 0 1 => Some 1
  | beta 1 0 => Some 0
  | tardiness 0 => Some 10
  | tardiness 1 => Some 15
  | _ => None
  end.

(** A solver that finds it, and one that reports infeasibility. *)
Definition optimal_solver : solver_type := fun h model =>
  (alter (load_values two_jobs_values) model h,
   Ok {| status := ok; termination_condition := optimal |}).

Definition infeasible_solver : solver_type := fun h model =>
  (h, Ok {| status := warning; termination_condition := infeasible |}).

(** Four jobs on two machines after a solve: jobs 0 and 2 start together
    at minute 5 on machine 0, job 1 starts at 0 and job 3 at 1/2 on
    machine 1. *)
Definition tie_values (v : var) : option Q :=
  match v with
  | t 0 => Some 5
  | t 1 => Some 0
  | t 2 => Some 5
  | t 3 => Some (1 # 2)
  | alpha 0 0 => Some 1
  | alpha 1 1 => Some 1
  | alpha 2 0 => Some 1
  | alpha 3 1 => Some 1
  | alpha _ _ => Some 0
  | _ => None
  end.

(** Three jobs on two machines: job 0 shows indicator 1 on both machines,
    job 1 shows 999/1000 on machine 1 and 0 elsewhere, job 2 sits on
    machine 1. *)
Definition odd_values (v : var) : option Q :=
  match v with
  | t 0 => Some 3
  | t 1 => Some 1
  | t 2 => Some 2
  | alpha 0 _ => Some 1
  | alpha 1 1 => Some (999 # 1000)
  | alpha 2 1 => Some 1
  | alpha _ _ => Some 0
  | _ => None
  end.

(** One job on one machine, solved to start at minute 0. *)
Definition one_job_values (v : var) : option Q :=
  match v with
  | t 0 => Some 0
  | alpha 0 0 => Some 1
  | tardiness 0 => Some 0
  | _ => None
  end.


(** The optimal solution of [two_jobs] as a point. *)
Definition two_jobs_point (v : var) : Q := default 0 (two_jobs_values v).

(** One job on one machine that lists itself as a dependency. *)
Definition self_dependent : JobShopProblem :=
  {| jobs := [ {| available_machines := {[ 0%nat := 5 ]};
                  dependencies := {[ 0%nat ]};
                  days_till_delivery := 1 |} ];
     machines := 1;
     setup_times := [[0]] |}.

(** [two_jobs] where job 1 also depends on index 7, which is no job. *)
Definition stray_dependency : JobShopProblem :=
  {| jobs := [ {| available_machines := {[ 0%nat := 10 ]};
                  dependencies := ∅;
                  days_till_delivery := 0 |};
               {| available_machines := {[ 0%nat := 5 ]};
                  dependencies := {[ 0%nat; 7%nat ]};
                  days_till_delivery := 0 |} ];
     machines := 1;
     setup_times := [[0; 0]; [0; 0]] |}.

(** Values in which the start time of job 1 is missing. *)
Definition gap_values (v : var) : option Q :=
  match v with
  | t 1 => None
  | _ => Some 1
  end.

(** [tie_values] with other values for the order indicators and the
    tardiness. *)
Definition tie_values_reordered (v : var) : option Q :=
  match v with
  | beta _ _ => Some 1
  | tardiness _ => Some 3
  | _ => tie_values v
  end.

(** A problem without jobs, on three machines. *)
Definition no_jobs : JobShopProblem :=
  {| jobs := []; machines := 3; setup_times := [] |}.

(** ** The constraint builder *)

Section Constraint_facts.
Context {I : Type} (name : string) (rule : I -> result rule_result).

Lemma Constraint_Ok_elem index_set cs i c :
  Constraint name index_set rule = Ok cs ->
  (i, c) ∈ cs <-> i ∈ index_set /\ rule i = Ok (Rel c).
Proof.
  revert cs. induction index_set as [|i0 rest IH]; intros cs Hc; cbn in Hc.
  - injection Hc as <-. rewrite !elem_of_nil. tauto.
  - destruct (rule i0) as [r0|e0] eqn:Hr0; cbn in Hc; [|discriminate].
    destruct r0 as [|c0|b0]; [| |discriminate].
    + rewrite (IH _ Hc), elem_of_cons. split.
      * intros [? ?]; auto.
      * intros [[->|?] Hi]; [congruence|auto].
    + destruct (Constraint name rest rule) as [cs'|] eqn:Hrest;
        cbn in Hc; [|discriminate].
      injection Hc as <-. rewrite !elem_of_cons, (IH _ eq_refl). split.
      * intros [Heq|[? ?]]; [injection Heq as -> ->|]; auto.
      * intros [[->|?] Hi]; [left; congruence|auto].
Qed.

(** A successful construction has called the rule on every index, and
    no call raised or returned a plain bool. *)
Lemma Constraint_Ok_rule index_set cs i :
  Constraint name index_set rule = Ok cs -> i ∈ index_set ->
  rule i = Ok Skip \/ exists c, rule i = Ok (Rel c).
Proof.
  revert cs. induction index_set as [|i0 rest IH]; intros cs Hc Hi; cbn in Hc.
  - by apply elem_of_nil in Hi.
  - destruct (rule i0) as [r0|e0] eqn:Hr0; cbn in Hc; [|discriminate].
    destruct r0 as [|c0|b0]; [| |discriminate].
    + apply elem_of_cons in Hi as [->|Hi]; [by left|eauto].
    + destruct (Constraint name rest rule) as [cs'|] eqn:Hrest;
        cbn in Hc; [|discriminate].
      apply elem_of_cons in Hi as [->|Hi]; [right; eauto|eauto].
Qed.

(** If the rule never raises and the only plain bool it returns is
    [False], one such index makes the construction fail. *)
Lemma Constraint_trivial_False index_set i :
  (forall k, k ∈ index_set ->
     exists r, rule k = Ok r /\ forall b, r = PyBool b -> b = false) ->
  i ∈ index_set -> rule i = Ok (PyBool false) ->
  Constraint name index_set rule = Raise (ValueError name false).
Proof.
  induction index_set as [|i0 rest IH]; intros Hall Hi Hr.
  - by apply elem_of_nil in Hi.
  - cbn. destruct (Hall i0) as (r0 & Hr0 & Hb0); [by left|].
    rewrite Hr0; cbn. destruct r0 as [|c0|b0].
    + apply elem_of_cons in Hi as [->|Hi]; [congruence|].
      apply IH; auto. intros k Hk. apply Hall. by right.
    + apply elem_of_cons in Hi as [->|Hi]; [congruence|].
      rewrite IH; auto. intros k Hk. apply Hall. by right.
    + by rewrite (Hb0 b0 eq_refl).
Qed.

(** If the rule only returns relational expressions or [Skip], the
    construction succeeds. *)
Lemma Constraint_succeeds index_set :
  (forall k, k ∈ index_set ->
     rule k = Ok Skip \/ exists c, rule k = Ok (Rel c)) ->
  exists cs, Constraint name index_set rule = Ok cs.
Proof.
  induction index_set as [|i0 rest IH]; intros Hall; cbn; [eauto|].
  destruct IH as [cs Hcs]; [intros k Hk; apply Hall; by right|].
  destruct (Hall i0) as [->|[c ->]]; [by left| |]; cbn; rewrite ?Hcs; eauto.
Qed.
End Constraint_facts.

Lemma elem_of_product {A B} (a : list A) (b : list B) x y :
  (x, y) ∈ product a b <-> x ∈ a /\ y ∈ b.
Proof.
  unfold product. rewrite list_elem_of_bind. split.
  - intros (x' & Hin & Hx'). apply list_elem_of_fmap in Hin as (y' & Heq & Hy').
    by injection Heq as -> ->.
  - intros [Hx Hy]. exists x. split; [|done]. by apply list_elem_of_fmap_2.
Qed.

Lemma elem_of_range n i : i ∈ seq 0 n <-> (i < n)%nat.
Proof. rewrite elem_of_seq. lia. Qed.

(** ** The rules of [generate_model] *)

Section rule_facts.
Variable jssp : JobShopProblem.

Lemma contains_spec {A} (d : gmap nat A) k :
  contains d k = true <-> is_Some (d !! k).
Proof. unfold contains. apply bool_decide_eq_true. Qed.

Lemma duration_terms_spec ms j job :
  jobs jssp !! j = Some job ->
  duration_terms ms j job =
  omap (fun m => (fun d => Mul (V (alpha j m)) (Num d)) <$> duration jssp j m)
       ms.
Proof.
  intros Hj. unfold duration_terms, duration. rewrite Hj; cbn.
  induction ms as [|m ms IH]; [done|]. cbn.
  destruct (contains (available_machines job) m) eqn:Hc.
  - apply contains_spec in Hc as [d Hd]. cbn. rewrite !Hd; cbn.
    f_equal. exact IH.
  - assert (available_machines job !! m = None) as Hn.
    { apply eq_None_not_Some. intros Hs. apply contains_spec in Hs.
      congruence. }
    rewrite Hn; cbn. exact IH.
Qed.

Lemma assignment_terms_spec ms j job :
  jobs jssp !! j = Some job ->
  (fun m => V (alpha j m))
    <$> List.filter (contains (available_machines job)) ms =
  omap (fun m => (fun _ => V (alpha j m)) <$> duration jssp j m) ms.
Proof.
  intros Hj. unfold duration. rewrite Hj; cbn.
  induction ms as [|m ms IH]; [done|]. cbn.
  destruct (contains (available_machines job) m) eqn:Hc.
  - apply contains_spec in Hc as [d Hd]. cbn. rewrite !Hd; cbn.
    f_equal. exact IH.
  - assert (available_machines job !! m = None) as Hn.
    { apply eq_None_not_Some. intros Hs. apply contains_spec in Hs.
      congruence. }
    rewrite Hn; cbn. exact IH.
Qed.

Lemma index_Some {A} (l : list A) i x : l !! i = Some x -> index l i = Ok x.
Proof. unfold index. by intros ->. Qed.

Lemma calculate_tardiness_eq j job :
  jobs jssp !! j = Some job ->
  calculate_tardiness jssp (seq 0 (machines jssp)) j =
  Ok (Rel (Ge (V (tardiness j))
              (Sub (Add (V (t j)) (assigned_duration jssp j))
                   (Num (days_till_delivery job * 24 * 60))))).
Proof.
  intros Hj. unfold calculate_tardiness, assigned_duration.
  rewrite (index_Some _ _ _ Hj); cbn.
  by rewrite (duration_terms_spec _ _ _ Hj).
Qed.

(** The single-assignment rule: a relational expression when the job
    has an eligible machine, the plain bool [0 == 1] when it has none. *)
Lemma one_machine_per_job_eq j job :
  jobs jssp !! j = Some job ->
  one_machine_per_job jssp (seq 0 (machines jssp)) j =
  Ok (__eq__ (assignment_sum jssp j) (Num 1)).
Proof.
  intros Hj. unfold one_machine_per_job, assignment_sum.
  rewrite (index_Some _ _ _ Hj); cbn.
  by rewrite (assignment_terms_spec _ _ _ Hj).
Qed.

Lemma assignment_terms_nil j :
  omap (fun m => (fun _ => V (alpha j m)) <$> duration jssp j m)
       (seq 0 (machines jssp)) = []
  <-> forall m, ~ eligible jssp j m.
Proof.
  unfold eligible. split.
  - intros Hnil m [Hm [d Hd]].
    assert (V (alpha j m) ∈ @nil expr) as Hin; [|by apply elem_of_nil in Hin].
    rewrite <- Hnil. apply list_elem_of_omap. exists m.
    rewrite elem_of_range, Hd. done.
  - intros Hno. apply elem_of_nil_inv. intros e He.
    apply list_elem_of_omap in He as (m & Hm & He).
    apply elem_of_range in Hm. apply (Hno m). split; [done|].
    destruct (duration jssp j m); [eauto|discriminate].
Qed.

Lemma one_machine_per_job_eligible j job m :
  jobs jssp !! j = Some job -> eligible jssp j m ->
  one_machine_per_job jssp (seq 0 (machines jssp)) j =
  Ok (Rel (Eq (assignment_sum jssp j) (Num 1))).
Proof.
  intros Hj He. rewrite (one_machine_per_job_eq _ _ Hj).
  unfold assignment_sum.
  destruct (omap _ _) as [|e es] eqn:Hterms; [|done].
  by destruct (proj1 (assignment_terms_nil j) Hterms m).
Qed.

Lemma one_machine_per_job_empty j job :
  jobs jssp !! j = Some job -> (forall m, ~ eligible jssp j m) ->
  one_machine_per_job jssp (seq 0 (machines jssp)) j = Ok (PyBool false).
Proof.
  intros Hj Hno. rewrite (one_machine_per_job_eq _ _ Hj).
  unfold assignment_sum.
  by rewrite (proj2 (assignment_terms_nil j) Hno).
Qed.

Lemma alpha_zero_if_not_available_eq j m job :
  jobs jssp !! j = Some job ->
  alpha_zero_if_not_available jssp (j, m) =
  Ok (match duration jssp j m with
      | Some _ => Skip
      | None => Rel (Eq (V (alpha j m)) (Num 0))
      end).
Proof.
  intros Hj. unfold alpha_zero_if_not_available, duration.
  rewrite (index_Some _ _ _ Hj), Hj; cbn.
  destruct (contains (available_machines job) m) eqn:Hc; cbn.
  - apply contains_spec in Hc as [d ->]. done.
  - assert (available_machines job !! m = None) as ->; [|done].
    apply eq_None_not_Some. intros Hs. apply contains_spec in Hs. congruence.
Qed.

Lemma precedence_order_eq j1 j2 job1 job2 :
  jobs jssp !! j1 = Some job1 -> jobs jssp !! j2 = Some job2 ->
  precedence_order jssp (seq 0 (machines jssp)) (j1, j2) =
  Ok (if bool_decide (j2 ∈ dependencies job1)
      then Rel (Ge (V (t j1)) (Add (V (t j2)) (assigned_duration jssp j2)))
      else Skip).
Proof.
  intros Hj1 Hj2. unfold precedence_order, assigned_duration.
  rewrite (index_Some _ _ _ Hj1); cbn.
  destruct (bool_decide (j2 ∈ dependencies job1)) eqn:Hdep.
  - apply bool_decide_eq_true in Hdep.
    rewrite bool_decide_eq_true_2; cbn.
    + rewrite (index_Some _ _ _ Hj2); cbn.
      by rewrite (duration_terms_spec _ _ _ Hj2).
    + destruct (decide (size (dependencies job1) = 0%nat)) as [Hz|Hz]; [|lia].
      apply size_empty_inv in Hz. set_solver.
  - by rewrite andb_false_r.
Qed.

Lemma overlap_skipped_eq j1 j2 m job1 job2 :
  jobs jssp !! j1 = Some job1 -> jobs jssp !! j2 = Some job2 ->
  overlap_skipped jssp j1 j2 m =
  Ok (bool_decide (j1 = j2)
      || negb (bool_decide (is_Some (duration jssp j1 m)))
      || negb (bool_decide (is_Some (duration jssp j2 m)))).
Proof.
  intros Hj1 Hj2. unfold overlap_skipped, duration. rewrite Hj1, Hj2; cbn.
  destruct (bool_decide (j1 = j2)); [done|]; cbn.
  rewrite (index_Some _ _ _ Hj1); cbn. fold (contains (available_machines job1) m).
  destruct (contains (available_machines job1) m); [|done]; cbn.
  by rewrite (index_Some _ _ _ Hj2).
Qed.
End rule_facts.

Section overlap_facts.
Variable jssp : JobShopProblem.

Lemma duration_getitem j m job d :
  jobs jssp !! j = Some job -> duration jssp j m = Some d ->
  getitem (available_machines job) m = Ok d.
Proof.
  unfold duration, getitem. intros ->; cbn. by intros ->.
Qed.

Lemma no_overlapping_1_eq j1 j2 m job1 job2 d1 d2 :
  jobs jssp !! j1 = Some job1 -> jobs jssp !! j2 = Some job2 ->
  j1 <> j2 -> duration jssp j1 m = Some d1 -> duration jssp j2 m = Some d2 ->
  no_overlapping_1 jssp (j1, j2, m) =
  match setup jssp j2 j1 with
  | Some s21 => Ok (Rel (big_M_1 j1 j2 m d2 s21))
  | None => Raise IndexError
  end.
Proof.
  intros Hj1 Hj2 Hne Hd1 Hd2. unfold no_overlapping_1.
  rewrite (overlap_skipped_eq _ _ _ _ _ _ Hj1 Hj2), Hd1, Hd2.
  rewrite bool_decide_eq_false_2 by done.
  rewrite !bool_decide_eq_true_2 by eauto. cbn.
  rewrite (index_Some _ _ _ Hj2); cbn.
  rewrite (duration_getitem _ _ _ _ Hj2 Hd2); cbn.
  unfold setup, index.
  destruct (setup_times jssp !! j2) as [row|]; cbn; [|done].
  by destruct (row !! j1).
Qed.

Lemma no_overlapping_2_eq j1 j2 m job1 job2 d1 d2 :
  jobs jssp !! j1 = Some job1 -> jobs jssp !! j2 = Some job2 ->
  j1 <> j2 -> duration jssp j1 m = Some d1 -> duration jssp j2 m = Some d2 ->
  no_overlapping_2 jssp (j1, j2, m) =
  match setup jssp j1 j2 with
  | Some s12 => Ok (Rel (big_M_2 j1 j2 m d1 s12))
  | None => Raise IndexError
  end.
Proof.
  intros Hj1 Hj2 Hne Hd1 Hd2. unfold no_overlapping_2.
  rewrite (overlap_skipped_eq _ _ _ _ _ _ Hj1 Hj2), Hd1, Hd2.
  rewrite bool_decide_eq_false_2 by done.
  rewrite !bool_decide_eq_true_2 by eauto. cbn.
  rewrite (index_Some _ _ _ Hj1); cbn.
  rewrite (duration_getitem _ _ _ _ Hj1 Hd1); cbn.
  unfold setup, index.
  destruct (setup_times jssp !! j1) as [row|]; cbn; [|done].
  by destruct (row !! j2).
Qed.

(** Both rules return [Skip] for equal jobs and for a machine that is
    not eligible for both. *)
Lemma no_overlapping_skip j1 j2 m job1 job2 :
  jobs jssp !! j1 = Some job1 -> jobs jssp !! j2 = Some job2 ->
  ~ (j1 <> j2 /\ is_Some (duration jssp j1 m)
     /\ is_Some (duration jssp j2 m)) ->
  no_overlapping_1 jssp (j1, j2, m) = Ok Skip
  /\ no_overlapping_2 jssp (j1, j2, m) = Ok Skip.
Proof.
  intros Hj1 Hj2 Hno. unfold no_overlapping_1, no_overlapping_2.
  rewrite (overlap_skipped_eq _ _ _ _ _ _ Hj1 Hj2).
  assert (bool_decide (j1 = j2)
          || negb (bool_decide (is_Some (duration jssp j1 m)))
          || negb (bool_decide (is_Some (duration jssp j2 m))) = true)
    as ->; [|done].
  destruct (decide (j1 = j2)) as [->|Hne].
  { by rewrite bool_decide_eq_true_2. }
  rewrite (bool_decide_eq_false_2 _ Hne); cbn.
  destruct (decide (is_Some (duration jssp j1 m))) as [H1|H1].
  - rewrite (bool_decide_eq_true_2 _ H1); cbn.
    rewrite bool_decide_eq_false_2; [done|]. intros H2. by apply Hno.
  - by rewrite (bool_decide_eq_false_2 _ H1).
Qed.
End overlap_facts.

(** ** What a generated model consists of *)

Lemma generate_model_Ok jssp model :
  generate_model jssp = Ok model ->
  let js := seq 0 (length (jobs jssp)) in
  let ms := seq 0 (machines jssp) in
  model_jobs model = js
  /\ model_machines model = ms
  /\ model_domain model = declared_domain
  /\ Constraint "calculate_tardiness" js (calculate_tardiness jssp ms)
     = Ok (model_calculate_tardiness model)
  /\ Constraint "one_machine_per_job" js (one_machine_per_job jssp ms)
     = Ok (model_one_machine_per_job model)
  /\ Constraint "alpha_zero_if_not_available" (product js ms)
       (alpha_zero_if_not_available jssp)
     = Ok (model_alpha_zero_if_not_available model)
  /\ Constraint "precedence_order" (product js js) (precedence_order jssp ms)
     = Ok (model_precedence_order model)
  /\ Constraint "no_overlapping_1" (product (product js js) ms)
       (no_overlapping_1 jssp)
     = Ok (model_no_overlapping_1 model)
  /\ Constraint "no_overlapping_2" (product (product js js) ms)
       (no_overlapping_2 jssp)
     = Ok (model_no_overlapping_2 model).
Proof.
  intros Hgen. cbv zeta. unfold generate_model in Hgen.
  destruct (Constraint "calculate_tardiness" _ _) as [c1|]; [|discriminate].
  destruct (Constraint "one_machine_per_job" _ _) as [c2|]; [|discriminate].
  destruct (Constraint "alpha_zero_if_not_available" _ _) as [c3|];
    [|discriminate].
  destruct (Constraint "precedence_order" _ _) as [c4|]; [|discriminate].
  destruct (Constraint "no_overlapping_1" _ _) as [c5|]; [|discriminate].
  destruct (Constraint "no_overlapping_2" _ _) as [c6|]; [|discriminate].
  cbn in Hgen. injection Hgen as <-. cbn. repeat split; reflexivity.
Qed.

Lemma job_in_range (jssp : JobShopProblem) j :
  (j < length (jobs jssp))%nat -> exists job, jobs jssp !! j = Some job.
Proof. intros Hj. by apply lookup_lt_is_Some_2. Qed.

(** On a well-formed problem no rule raises or returns a plain bool, so
    a model is generated. *)
Lemma generate_model_succeeds jssp :
  well_formed jssp -> exists model, generate_model jssp = Ok model.
Proof.
  intros [Helig Hsetup]. unfold generate_model.
  set (js := seq 0 (length (jobs jssp))).
  set (ms := seq 0 (machines jssp)).
  destruct (Constraint_succeeds "calculate_tardiness"
              (calculate_tardiness jssp ms) js) as [c1 ->].
  { intros j Hj. apply elem_of_range in Hj.
    destruct (job_in_range _ _ Hj) as [job Hjob]. right.
    unfold ms. rewrite (calculate_tardiness_eq _ _ _ Hjob). eauto. }
  destruct (Constraint_succeeds "one_machine_per_job"
              (one_machine_per_job jssp ms) js) as [c2 ->].
  { intros j Hj. apply elem_of_range in Hj.
    destruct (job_in_range _ _ Hj) as [job Hjob].
    destruct (Helig j Hj) as [m Hm]. right.
    unfold ms. rewrite (one_machine_per_job_eligible _ _ _ _ Hjob Hm). eauto. }
  destruct (Constraint_succeeds "alpha_zero_if_not_available"
              (alpha_zero_if_not_available jssp) (product js ms)) as [c3 ->].
  { intros [j m] Hidx. apply elem_of_product in Hidx as [Hj _].
    apply elem_of_range in Hj. destruct (job_in_range _ _ Hj) as [job Hjob].
    rewrite (alpha_zero_if_not_available_eq _ _ _ _ Hjob).
    destruct (duration jssp j m); eauto. }
  destruct (Constraint_succeeds "precedence_order"
              (precedence_order jssp ms) (product js js)) as [c4 ->].
  { intros [j1 j2] Hidx. apply elem_of_product in Hidx as [Hj1 Hj2].
    apply elem_of_range in Hj1, Hj2.
    destruct (job_in_range _ _ Hj1) as [job1 Hjob1].
    destruct (job_in_range _ _ Hj2) as [job2 Hjob2].
    unfold ms. rewrite (precedence_order_eq _ _ _ _ _ Hjob1 Hjob2).
    destruct (bool_decide (j2 ∈ dependencies job1)); eauto. }
  assert (forall idx, idx ∈ product (product js js) ms ->
            (no_overlapping_1 jssp idx = Ok Skip
             \/ exists c, no_overlapping_1 jssp idx = Ok (Rel c))
            /\ (no_overlapping_2 jssp idx = Ok Skip
                \/ exists c, no_overlapping_2 jssp idx = Ok (Rel c)))
    as Hoverlap.
  { intros [[j1 j2] m] Hidx. apply elem_of_product in Hidx as [Hidx _].
    apply elem_of_product in Hidx as [Hj1 Hj2].
    apply elem_of_range in Hj1, Hj2.
    destruct (job_in_range _ _ Hj1) as [job1 Hjob1].
    destruct (job_in_range _ _ Hj2) as [job2 Hjob2].
    destruct (decide (j1 <> j2 /\ is_Some (duration jssp j1 m)
                      /\ is_Some (duration jssp j2 m)))
      as [(Hne & [d1 Hd1] & [d2 Hd2])|Hskip].
    - rewrite (no_overlapping_1_eq _ _ _ _ _ _ _ _ Hjob1 Hjob2 Hne Hd1 Hd2).
      rewrite (no_overlapping_2_eq _ _ _ _ _ _ _ _ Hjob1 Hjob2 Hne Hd1 Hd2).
      destruct (Hsetup j1 j2 Hj1 Hj2) as [s12 ->].
      destruct (Hsetup j2 j1 Hj2 Hj1) as [s21 ->]. split; right; eauto.
    - destruct (no_overlapping_skip _ _ _ _ _ _ Hjob1 Hjob2 Hskip)
        as [-> ->]. split; by left. }
  destruct (Constraint_succeeds "no_overlapping_1" (no_overlapping_1 jssp)
              (product (product js js) ms)) as [c5 ->].
  { intros idx Hidx. by destruct (Hoverlap idx Hidx). }
  destruct (Constraint_succeeds "no_overlapping_2" (no_overlapping_2 jssp)
              (product (product js js) ms)) as [c6 ->].
  { intros idx Hidx. by destruct (Hoverlap idx Hidx). }
  cbn. eauto.
Qed.

(** Loading start times into a generated model gives a solved model. *)
Lemma generated_model_solved jssp model values :
  generate_model jssp = Ok model ->
  (forall j, (j < length (jobs jssp))%nat -> is_Some (values (t j))) ->
  solved (load_values values model) (length (jobs jssp)) (machines jssp).
Proof.
  intros Hgen Hvalues.
  destruct (generate_model_Ok _ _ Hgen) as (Hjobs & Hms & _).
  by repeat split.
Qed.

Lemma two_jobs_generated : is_Ok (generate_model two_jobs) = true.
Proof. vm_compute. reflexivity. Qed.

(** ** C1: mutual exclusion on shared machines *)

(** C1.  In a generated model, for two distinct jobs [j1], [j2] and every
    machine [m] of the model that is eligible for both, the component
    [no_overlapping_1] holds at index [(j1, j2, m)] the inequality
    [t[j1] >= t[j2] + duration[j2,m] + setup[j2][j1]
              - (2 - alpha[j1,m] - alpha[j2,m] + beta[j1,j2]) * H]
    and [no_overlapping_2] holds at the same index
    [t[j2] >= t[j1] + duration[j1,m] + setup[j1][j2]
              - (3 - alpha[j1,m] - alpha[j2,m] - beta[j1,j2]) * H],
    with [H = 10000]; for a pair with no shared eligible machine neither
    component has an entry at any index [(j1, j2, m)]. *)
Theorem C1_mutual_exclusion_generated jssp model j1 j2 :
  generate_model jssp = Ok model ->
  (j1 < length (jobs jssp))%nat -> (j2 < length (jobs jssp))%nat ->
  (j1 <> j2 ->
   forall m d1 d2,
     (m < machines jssp)%nat ->
     duration jssp j1 m = Some d1 -> duration jssp j2 m = Some d2 ->
     exists s12 s21,
       setup jssp j1 j2 = Some s12 /\ setup jssp j2 j1 = Some s21
       /\ (j1, j2, m, big_M_1 j1 j2 m d2 s21) ∈ model_no_overlapping_1 model
       /\ (j1, j2, m, big_M_2 j1 j2 m d1 s12) ∈ model_no_overlapping_2 model
       /\ (forall rho,
             holds rho (big_M_1 j1 j2 m d2 s21) <->
             rho (t j2) + d2 + s21
             - (2 - rho (alpha j1 m) - rho (alpha j2 m) + rho (beta j1 j2)) * H
             <= rho (t j1))
       /\ (forall rho,
             holds rho (big_M_2 j1 j2 m d1 s12) <->
             rho (t j1) + d1 + s12
             - (3 - rho (alpha j1 m) - rho (alpha j2 m) - rho (beta j1 j2)) * H
             <= rho (t j2)))
  /\ ((forall m, ~ (eligible jssp j1 m /\ eligible jssp j2 m)) ->
      forall m c,
        ((j1, j2, m, c) ∉ model_no_overlapping_1 model)
        /\ ((j1, j2, m, c) ∉ model_no_overlapping_2 model)).
Proof.
  intros Hgen Hlt1 Hlt2.
  destruct (generate_model_Ok _ _ Hgen)
    as (_ & _ & _ & _ & _ & _ & _ & Hno1 & Hno2).
  destruct (job_in_range _ _ Hlt1) as [job1 Hj1].
  destruct (job_in_range _ _ Hlt2) as [job2 Hj2].
  split.
  - intros Hne m d1 d2 Hm Hd1 Hd2.
    assert ((j1, j2, m) ∈ product (product (seq 0 (length (jobs jssp)))
                                           (seq 0 (length (jobs jssp))))
                                  (seq 0 (machines jssp))) as Hidx.
    { rewrite !elem_of_product, !elem_of_range. done. }
    pose proof (no_overlapping_1_eq jssp _ _ _ _ _ _ _ Hj1 Hj2 Hne Hd1 Hd2)
      as Hr1.
    pose proof (no_overlapping_2_eq jssp _ _ _ _ _ _ _ Hj1 Hj2 Hne Hd1 Hd2)
      as Hr2.
    destruct (Constraint_Ok_rule _ _ _ _ _ Hno1 Hidx) as [Hs1|[c1 Hc1]];
      rewrite Hr1 in *;
      destruct (setup jssp j2 j1) as [s21|]; try discriminate.
    destruct (Constraint_Ok_rule _ _ _ _ _ Hno2 Hidx) as [Hs2|[c2 Hc2]];
      rewrite Hr2 in *;
      destruct (setup jssp j1 j2) as [s12|]; try discriminate.
    exists s12, s21. split; [done|]. split; [done|].
    split; [by apply (Constraint_Ok_elem _ _ _ _ _ _ Hno1)|].
    split; [by apply (Constraint_Ok_elem _ _ _ _ _ _ Hno2)|].
    split; intros rho; reflexivity.
  - intros Hnone m c.
    assert (forall rule cs,
              (rule = no_overlapping_1 jssp \/ rule = no_overlapping_2 jssp) ->
              forall name,
              Constraint name (product (product (seq 0 (length (jobs jssp)))
                                           (seq 0 (length (jobs jssp))))
                                  (seq 0 (machines jssp))) rule = Ok cs ->
              (j1, j2, m, c) ∉ cs) as Hgeneric.
    { intros rule cs Hrule name Hcs Hin.
      apply (Constraint_Ok_elem _ _ _ _ _ _ Hcs) in Hin as [Hidx Hr].
      rewrite !elem_of_product, !elem_of_range in Hidx.
      destruct (no_overlapping_skip jssp j1 j2 m _ _ Hj1 Hj2) as [Hs1 Hs2].
      { intros (_ & He1 & He2). apply (Hnone m). unfold eligible. tauto. }
      destruct Hrule as [-> | ->]; congruence. }
    split.
    + eapply Hgeneric; [left; reflexivity|exact Hno1].
    + eapply Hgeneric; [right; reflexivity|exact Hno2].
Qed.

Lemma C1_witness :
  exists model,
    generate_model two_jobs = Ok model
    /\ (0, 1, 0, big_M_1 0 1 0 5 0)%nat ∈ model_no_overlapping_1 model
    /\ (0, 1, 0, big_M_2 0 1 0 10 0)%nat ∈ model_no_overlapping_2 model.
Proof.
  destruct (generate_model two_jobs) as [model|e] eqn:Hgen;
    [|exfalso; vm_compute in Hgen; discriminate].
  exists model. split; [reflexivity|].
  destruct (C1_mutual_exclusion_generated two_jobs model 0 1 Hgen
              ltac:(cbn; lia) ltac:(cbn; lia)) as [Hshared _].
  destruct (Hshared ltac:(lia) 0%nat 10 5 ltac:(cbn; lia) eq_refl eq_refl)
    as (s12 & s21 & Hs12 & Hs21 & Hin1 & Hin2 & _).
  vm_compute in Hs12, Hs21.
  injection Hs12 as <-. injection Hs21 as <-. split; assumption.
Defined.

(** ** C3: the tardiness constraint *)

Lemma feasible_point_holds model rho c :
  feasible_point model rho -> c ∈ constraints model -> holds rho c.
Proof. intros [_ Hall] Hin. by apply (proj1 (Forall_forall _ _) Hall). Qed.

Lemma calculate_tardiness_constraints model j c :
  (j, c) ∈ model_calculate_tardiness model -> c ∈ constraints model.
Proof.
  intros Hin. unfold constraints. apply elem_of_app. left.
  apply list_elem_of_fmap. by exists (j, c).
Qed.

(** C3.  In a generated model, for every job [j] the component
    [calculate_tardiness] holds at index [j] the one-sided inequality
    [tardiness[j] >= t[j] + (sum over the eligible machines m of
    alpha[j,m] * duration[j,m]) - days_till_delivery * 24 * 60], and
    [tardiness[j]] is declared over the non-negative reals; so at every
    feasible point the tardiness is at least 0 and at least the lateness,
    the floor at 0 coming from the domain alone. *)
Theorem C3_tardiness_constraint jssp model j job :
  generate_model jssp = Ok model ->
  jobs jssp !! j = Some job ->
  (j, Ge (V (tardiness j))
         (Sub (Add (V (t j)) (assigned_duration jssp j))
              (Num (days_till_delivery job * 24 * 60))))
    ∈ model_calculate_tardiness model
  /\ model_domain model (tardiness j) = NonNegativeReals
  /\ (forall rho,
        feasible_point model rho ->
        0 <= rho (tardiness j)
        /\ rho (t j) + eval rho (assigned_duration jssp j)
           - days_till_delivery job * 24 * 60 <= rho (tardiness j)).
Proof.
  intros Hgen Hj.
  destruct (generate_model_Ok _ _ Hgen)
    as (_ & _ & Hdom & Htard & _).
  assert ((j, Ge (V (tardiness j))
                 (Sub (Add (V (t j)) (assigned_duration jssp j))
                      (Num (days_till_delivery job * 24 * 60))))
            ∈ model_calculate_tardiness model) as Hin.
  { apply (Constraint_Ok_elem _ _ _ _ _ _ Htard). split.
    - apply elem_of_range. apply lookup_lt_is_Some_1. eauto.
    - by apply calculate_tardiness_eq. }
  split; [exact Hin|]. split; [by rewrite Hdom|].
  intros rho Hfeas. split.
  - destruct Hfeas as [Hd _]. specialize (Hd (tardiness j)).
    by rewrite Hdom in Hd.
  - apply calculate_tardiness_constraints in Hin.
    exact (feasible_point_holds _ _ _ Hfeas Hin).
Qed.

Lemma C3_witness :
  exists model,
    generate_model two_jobs = Ok model
    /\ (1%nat, Ge (V (tardiness 1))
                  (Sub (Add (V (t 1)) (Sum [Mul (V (alpha 1 0)) (Num 5)]))
                       (Num (0 * 24 * 60))))
         ∈ model_calculate_tardiness model
    /\ model_domain model (tardiness 1) = NonNegativeReals.
Proof.
  destruct (generate_model two_jobs) as [model|e] eqn:Hgen;
    [|exfalso; vm_compute in Hgen; discriminate].
  exists model. split; [reflexivity|].
  destruct (C3_tardiness_constraint two_jobs model 1 _ Hgen eq_refl)
    as (Hin & Hdom & _).
  split; [exact Hin|exact Hdom].
Defined.

(** ** C4: single assignment and eligibility lockout *)

Lemma eq_quicksum_cases (terms : list expr) :
  (terms = [] /\ __eq__ (quicksum terms) (Num 1) = PyBool false)
  \/ (terms <> [] /\ __eq__ (quicksum terms) (Num 1)
                     = Rel (Eq (quicksum terms) (Num 1))).
Proof. destruct terms; [left|right]; done. Qed.

(** C4.  In a generated model, for every job [j] the component
    [one_machine_per_job] holds at index [j] the equality
    [(sum of alpha[j,m] over the eligible machines m of j) == 1], and for
    every machine [m] of the model that is not eligible for [j] the
    component [alpha_zero_if_not_available] holds at index [(j, m)] the
    equality [alpha[j,m] == 0], while [alpha[j,m]] remains a declared
    binary variable; eligible pairs have no lockout entry. *)
Theorem C4_single_assignment_and_lockout jssp model j :
  generate_model jssp = Ok model ->
  (j < length (jobs jssp))%nat ->
  (j, Eq (assignment_sum jssp j) (Num 1)) ∈ model_one_machine_per_job model
  /\ (forall rho,
        holds rho (Eq (assignment_sum jssp j) (Num 1)) <->
        eval rho (assignment_sum jssp j) == 1)
  /\ (forall m,
        (m < machines jssp)%nat ->
        model_domain model (alpha j m) = Binary
        /\ (duration jssp j m = None ->
            (j, m, Eq (V (alpha j m)) (Num 0))
              ∈ model_alpha_zero_if_not_available model)
        /\ (is_Some (duration jssp j m) ->
            forall c, (j, m, c) ∉ model_alpha_zero_if_not_available model)).
Proof.
  intros Hgen Hlt.
  destruct (generate_model_Ok _ _ Hgen)
    as (_ & _ & Hdom & _ & Hone & Hzero & _).
  destruct (job_in_range _ _ Hlt) as [job Hj].
  split; [|split; [intros rho; reflexivity|]].
  - apply (Constraint_Ok_elem _ _ _ _ _ _ Hone).
    split; [by apply elem_of_range|].
    rewrite (one_machine_per_job_eq _ _ _ Hj).
    destruct (Constraint_Ok_rule _ _ _ _ j Hone) as [Hr|[c Hr]];
      [by apply elem_of_range| |];
      rewrite (one_machine_per_job_eq _ _ _ Hj) in Hr;
      unfold assignment_sum in *;
      destruct (eq_quicksum_cases
                  (omap (fun m => (fun _ => V (alpha j m)) <$> duration jssp j m)
                        (seq 0 (machines jssp)))) as [[_ He]|[_ He]];
      rewrite He in *; try discriminate; reflexivity.
  - intros m Hm. split; [by rewrite Hdom|].
    pose proof (alpha_zero_if_not_available_eq jssp j m _ Hj) as Hr.
    split.
    + intros Hnone. rewrite Hnone in Hr.
      apply (Constraint_Ok_elem _ _ _ _ _ _ Hzero). split; [|done].
      rewrite elem_of_product, !elem_of_range. done.
    + intros [d Hd] c Hin. rewrite Hd in Hr.
      apply (Constraint_Ok_elem _ _ _ _ _ _ Hzero) in Hin as [_ Hc].
      congruence.
Qed.

Lemma C4_witness :
  exists model,
    generate_model disjoint_jobs = Ok model
    /\ (1%nat, Eq (Sum [V (alpha 1 1)]) (Num 1))
         ∈ model_one_machine_per_job model
    /\ (1%nat, 0%nat, Eq (V (alpha 1 0)) (Num 0))
         ∈ model_alpha_zero_if_not_available model.
Proof.
  destruct (generate_model disjoint_jobs) as [model|e] eqn:Hgen;
    [|exfalso; vm_compute in Hgen; discriminate].
  exists model. split; [reflexivity|].
  destruct (C4_single_assignment_and_lockout disjoint_jobs model 1 Hgen
              ltac:(cbn; lia)) as (Hone & _ & Hzero).
  split; [exact Hone|].
  destruct (Hzero 0%nat ltac:(cbn; lia)) as (_ & Hlock & _).
  exact (Hlock eq_refl).
Defined.

(** ** C5: precedence *)

(** C5.  In a generated model, for every ordered pair of jobs [(j1, j2)]
    with [j2] in the dependency set of [j1], the component
    [precedence_order] holds at index [(j1, j2)] the inequality
    [t[j1] >= t[j2] + (sum over the eligible machines m of j2 of
    alpha[j2,m] * duration[j2,m])]; for a pair without that dependency
    the component has no entry. *)
Theorem C5_precedence_constraint jssp model j1 j2 :
  generate_model jssp = Ok model ->
  (j1 < length (jobs jssp))%nat -> (j2 < length (jobs jssp))%nat ->
  (depends_on jssp j1 j2 ->
   (j1, j2, Ge (V (t j1)) (Add (V (t j2)) (assigned_duration jssp j2)))
     ∈ model_precedence_order model
   /\ forall rho,
        feasible_point model rho ->
        rho (t j2) + eval rho (assigned_duration jssp j2) <= rho (t j1))
  /\ (~ depends_on jssp j1 j2 ->
      forall c, (j1, j2, c) ∉ model_precedence_order model).
Proof.
  intros Hgen Hlt1 Hlt2.
  destruct (generate_model_Ok _ _ Hgen)
    as (_ & _ & _ & _ & _ & _ & Hprec & _).
  destruct (job_in_range _ _ Hlt1) as [job1 Hj1].
  destruct (job_in_range _ _ Hlt2) as [job2 Hj2].
  pose proof (precedence_order_eq jssp j1 j2 _ _ Hj1 Hj2) as Hr.
  split.
  - intros (job1' & Hj1' & Hdep).
    assert (job1' = job1) as -> by congruence.
    rewrite (bool_decide_eq_true_2 _ Hdep) in Hr.
    assert ((j1, j2, Ge (V (t j1)) (Add (V (t j2)) (assigned_duration jssp j2)))
              ∈ model_precedence_order model) as Hin.
    { apply (Constraint_Ok_elem _ _ _ _ _ _ Hprec). split; [|done].
      rewrite elem_of_product, !elem_of_range. done. }
    split; [exact Hin|]. intros rho Hfeas.
    apply (feasible_point_holds model rho
             (Ge (V (t j1)) (Add (V (t j2)) (assigned_duration jssp j2)))
             Hfeas).
    unfold constraints. rewrite !elem_of_app. do 3 right. left.
    apply list_elem_of_fmap. by eexists (_, _).
  - intros Hnot c Hin.
    apply (Constraint_Ok_elem _ _ _ _ _ _ Hprec) in Hin as [_ Hc].
    rewrite Hr in Hc. rewrite bool_decide_eq_false_2 in Hc; [discriminate|].
    intros Hdep. apply Hnot. by exists job1.
Qed.

Lemma C5_witness :
  exists model,
    generate_model two_jobs = Ok model
    /\ (1%nat, 0%nat,
        Ge (V (t 1)) (Add (V (t 0)) (Sum [Mul (V (alpha 0 0)) (Num 10)])))
         ∈ model_precedence_order model
    /\ (forall c, (0%nat, 1%nat, c) ∉ model_precedence_order model).
Proof.
  destruct (generate_model two_jobs) as [model|e] eqn:Hgen;
    [|exfalso; vm_compute in Hgen; discriminate].
  exists model. split; [reflexivity|]. split.
  - destruct (C5_precedence_constraint two_jobs model 1 0 Hgen
                ltac:(cbn; lia) ltac:(cbn; lia)) as [Hdep _].
    apply Hdep. eexists. split; [reflexivity|]. cbn. set_solver.
  - destruct (C5_precedence_constraint two_jobs model 0 1 Hgen
                ltac:(cbn; lia) ltac:(cbn; lia)) as [_ Hnot].
    apply Hnot. intros (job & Hjob & Hdep). injection Hjob as <-.
    cbn in Hdep. set_solver.
Defined.

(** ** C2: a job with no eligible machine *)

Lemma calculate_tardiness_generated (jssp : JobShopProblem) :
  exists cs,
    Constraint "calculate_tardiness" (seq 0 (length (jobs jssp)))
      (calculate_tardiness jssp (seq 0 (machines jssp))) = Ok cs.
Proof.
  apply Constraint_succeeds. intros j Hj. apply elem_of_range in Hj.
  destruct (job_in_range _ _ Hj) as [job Hjob]. right.
  rewrite (calculate_tardiness_eq _ _ _ Hjob). eauto.
Qed.

(** The stranded job of [stranded_job] has an empty eligible-machine set,
    yet no model is generated: construction stops with the ValueError of
    the single-assignment component, and the build-then-solve sequence
    ends with that error whatever the solver would have answered, not
    with the exception [solve_model] raises for a non-optimal
    termination. *)
Lemma C2_counterexample :
  (exists job, jobs stranded_job !! 0%nat = Some job
               /\ available_machines job = ∅)
  /\ generate_model stranded_job
     = Raise (ValueError "one_machine_per_job" false)
  /\ (forall model, generate_model stranded_job <> Ok model)
  /\ (forall solve,
        snd (generate_and_solve solve stranded_job)
        <> Raise (Exception "Infeasible solution")).
Proof.
  assert (generate_model stranded_job
          = Raise (ValueError "one_machine_per_job" false)) as Hgen.
  { vm_compute. reflexivity. }
  split; [eexists; split; reflexivity|].
  split; [exact Hgen|]. split.
  - intros model. rewrite Hgen. discriminate.
  - intros solve. unfold generate_and_solve. rewrite Hgen. cbn. discriminate.
Qed.

(** C2 (amended).  If some job of the problem has no eligible machine
    among the machines of the model, [generate_model] raises: the
    single-assignment rule compares the empty sum, the number 0, with 1,
    and the resulting plain [False] is rejected with a ValueError for the
    component [one_machine_per_job].  No model is produced and the
    build-then-solve sequence ends with this error without calling the
    solver. *)
Theorem C2_empty_eligible_set_fails_at_build jssp j :
  (j < length (jobs jssp))%nat ->
  (forall m, ~ eligible jssp j m) ->
  generate_model jssp = Raise (ValueError "one_machine_per_job" false)
  /\ (forall solve,
        generate_and_solve solve jssp
        = ([], Raise (ValueError "one_machine_per_job" false))).
Proof.
  intros Hlt Hnone.
  assert (generate_model jssp
          = Raise (ValueError "one_machine_per_job" false)) as Hgen.
  { unfold generate_model.
    destruct (calculate_tardiness_generated jssp) as [cs ->]. cbn.
    rewrite (Constraint_trivial_False _ _ _ j); [done| |by apply elem_of_range|].
    - intros k Hk. apply elem_of_range in Hk.
      destruct (job_in_range _ _ Hk) as [job Hjob].
      rewrite (one_machine_per_job_eq _ _ _ Hjob).
      eexists. split; [reflexivity|]. intros b.
      unfold assignment_sum.
      destruct (eq_quicksum_cases
                  (omap (fun m => (fun _ => V (alpha k m)) <$> duration jssp k m)
                        (seq 0 (machines jssp)))) as [[_ ->]|[_ ->]];
        congruence.
    - destruct (job_in_range _ _ Hlt) as [job Hjob].
      by apply (one_machine_per_job_empty _ _ job). }
  split; [exact Hgen|].
  intros solve. unfold generate_and_solve. by rewrite Hgen.
Qed.

Lemma C2_witness :
  generate_model stranded_job = Raise (ValueError "one_machine_per_job" false).
Proof.
  refine (proj1 (C2_empty_eligible_set_fails_at_build stranded_job 0 _ _)).
  - cbn. lia.
  - intros m [Hm [d Hd]]. cbn in Hm.
    assert (m = 0%nat) as -> by lia. vm_compute in Hd. discriminate.
Defined.

(** ** C6: interpreting the solver's answer *)

(** C6.  When the solver hands back a results object, [solve_model]
    raises as soon as the execution status is not [ok] (exception
    "Solver not ok") or, the status being [ok], the termination
    condition is not [optimal] (exception "Infeasible solution"); only
    with status [ok] and termination [optimal] does it return, and what
    it returns is the very reference it was given, the store being the
    one the solver left behind (values loaded in place, no other object
    created). *)
Theorem C6_solve_model_outcome solve h model h' res :
  solve h model = (h', Ok res) ->
  (status res <> ok ->
   solve_model solve h model
   = (h', [Text "Check solver not ok..."], Raise (Exception "Solver not ok")))
  /\ (status res = ok -> termination_condition res <> optimal ->
      solve_model solve h model
      = (h', [Text "Could not find optimal solution, probably infeasible..."],
         Raise (Exception "Infeasible solution")))
  /\ (status res = ok -> termination_condition res = optimal ->
      solve_model solve h model = (h', [], Ok model))
  /\ (forall h2 out returned,
        solve_model solve h model = (h2, out, Ok returned) ->
        returned = model /\ h2 = h'
        /\ status res = ok /\ termination_condition res = optimal).
Proof.
  intros Hsolve. unfold solve_model. rewrite Hsolve.
  split; [|split; [|split]].
  - intros Hs. by rewrite bool_decide_eq_true_2.
  - intros Hs Ht. rewrite bool_decide_eq_false_2 by (intros Hc; by apply Hc).
    by rewrite bool_decide_eq_true_2.
  - intros Hs Ht. rewrite bool_decide_eq_false_2 by (intros Hc; by apply Hc).
    rewrite bool_decide_eq_false_2 by (intros Hc; by apply Hc). done.
  - intros h2 out returned Hret.
    destruct (decide (status res = ok)) as [Hs|Hs];
      [|rewrite bool_decide_eq_true_2 in Hret by done; discriminate].
    rewrite bool_decide_eq_false_2 in Hret by (intros Hc; by apply Hc).
    destruct (decide (termination_condition res = optimal)) as [Ht|Ht];
      [|rewrite bool_decide_eq_true_2 in Hret by done; discriminate].
    rewrite bool_decide_eq_false_2 in Hret by (intros Hc; by apply Hc).
    injection Hret as <- <- <-. done.
Qed.

Lemma C6_witness :
  solve_model optimal_solver {[ 0%nat := bare_model 2 1 (fun _ => None) ]} 0
  = ({[ 0%nat := bare_model 2 1 two_jobs_values ]}, [], Ok 0%nat)
  /\ snd (solve_model infeasible_solver
            {[ 0%nat := bare_model 2 1 (fun _ => None) ]} 0)
     = Raise (Exception "Solver not ok").
Proof.
  split.
  - destruct (C6_solve_model_outcome optimal_solver
                {[ 0%nat := bare_model 2 1 (fun _ => None) ]} 0%nat _ _ eq_refl)
      as (_ & _ & Hok & _).
    rewrite (Hok eq_refl eq_refl). reflexivity.
  - destruct (C6_solve_model_outcome infeasible_solver
                {[ 0%nat := bare_model 2 1 (fun _ => None) ]} 0%nat _ _ eq_refl)
      as (Hbad & _).
    rewrite Hbad by discriminate. reflexivity.
Defined.

(** ** Sorting by key *)

Section sorted_facts.
Variable key : nat -> option Q.

Lemma key_before_le i j :
  key_before key i j -> default 0 (key i) <= default 0 (key j).
Proof.
  intros [Hlt|[Heq _]]; [by apply Qlt_le_weak|].
  rewrite Heq. apply Qle_refl.
Qed.

Lemma le_key_before i j :
  default 0 (key i) <= default 0 (key j) -> (i < j)%nat -> key_before key i j.
Proof.
  intros Hle Hij. destruct (Qle_lt_or_eq _ _ Hle); [by left|by right].
Qed.

Lemma insert_sorted_spec x s :
  is_Some (key x) ->
  Forall (fun y => is_Some (key y)) s ->
  Forall (fun y => (x < y)%nat) s ->
  StronglySorted (key_before key) s ->
  exists s', insert_sorted key x s = Ok s'
             /\ s' ≡ₚ x :: s
             /\ StronglySorted (key_before key) s'.
Proof.
  intros [kx Hkx]. induction s as [|y l IH]; intros Hsome Hlt Hsorted.
  - exists [x]. repeat split; [done|]. repeat constructor.
  - apply Forall_cons in Hsome as [[ky Hky] Hsome].
    apply Forall_cons in Hlt as [Hxy Hlt].
    apply StronglySorted_cons in Hsorted as [Hy Hsorted].
    cbn. rewrite Hky, Hkx; cbn.
    destruct (Qle_bool kx ky) eqn:Hcmp; cbn.
    + apply Qle_bool_iff in Hcmp.
      exists (x :: y :: l). repeat split; [done|].
      apply StronglySorted_cons. split.
      * apply Forall_cons. split.
        -- apply le_key_before; [by rewrite Hkx, Hky|done].
        -- apply Forall_forall. intros z Hz.
           apply le_key_before.
           ++ apply Qle_trans with (default 0 (key y)).
              ** by rewrite Hkx, Hky.
              ** apply key_before_le.
                 by apply (proj1 (Forall_forall _ _) Hy).
           ++ by apply (proj1 (Forall_forall _ _) Hlt).
      * by apply StronglySorted_cons.
    + destruct (IH Hsome Hlt Hsorted) as (r & -> & Hperm & Hr). cbn.
      exists (y :: r). repeat split.
      * rewrite Hperm. apply perm_swap.
      * apply StronglySorted_cons. split; [|done].
        rewrite Hperm. apply Forall_cons. split; [|done].
        left. rewrite Hkx, Hky; cbn. apply Qnot_le_lt. intros Hle.
        apply Qle_bool_iff in Hle. congruence.
Qed.

Lemma sorted_spec l :
  Forall (fun y => is_Some (key y)) l ->
  StronglySorted lt l ->
  exists s, sorted key l = Ok s
            /\ s ≡ₚ l
            /\ StronglySorted (key_before key) s.
Proof.
  induction l as [|x rest IH]; intros Hsome Hinc.
  - exists []. repeat split; [done|constructor].
  - apply Forall_cons in Hsome as [Hx Hsome].
    apply StronglySorted_cons in Hinc as [Hxrest Hinc].
    destruct (IH Hsome Hinc) as (s & Hs & Hperm & Hsorted).
    cbn. rewrite Hs; cbn.
    destruct (insert_sorted_spec x s Hx) as (s' & Hs' & Hperm' & Hsorted');
      [by rewrite Hperm|by rewrite Hperm|done|].
    exists s'. repeat split; [done| |done].
    by rewrite Hperm', Hperm.
Qed.
End sorted_facts.

Lemma StronglySorted_range a n : StronglySorted lt (seq a n).
Proof.
  revert a. induction n as [|n IH]; intros a; cbn; [constructor|].
  apply StronglySorted_cons. split; [|apply IH].
  apply Forall_forall. intros k Hk. apply elem_of_seq in Hk. lia.
Qed.

Lemma StronglySorted_filter_keep {A} (R : A -> A -> Prop) (P : A -> Prop)
    `{!forall x, Decision (P x)} (l : list A) :
  StronglySorted R l -> StronglySorted R (filter P l).
Proof.
  induction l as [|x l IH]; intros Hs; [constructor|].
  apply StronglySorted_cons in Hs as [Hx Hs].
  rewrite filter_cons. destruct (decide (P x)); [|auto].
  apply StronglySorted_cons. split; [|auto].
  apply Forall_forall. intros y Hy. apply list_elem_of_filter in Hy as [_ Hy].
  by apply (proj1 (Forall_forall _ _) Hx).
Qed.

(** ** The inner loop of [get_schedule] *)

Section visit_facts.
Variable model : ConcreteModel.
Variable j : nat.

(** Once a machine is found, every further machine whose indicator is 1
    only prints the diagnostic. *)
Lemma visit_machines_found ms e :
  for_each ms (visit_machine model j) (e, true)
  = Ok ({| job_order := job_order e;
           jobs_assigned_on_machine := jobs_assigned_on_machine e;
           stdout := stdout e
                     ++ replicate (length (List.filter (alpha_is_1 model j) ms))
                                  multiple_machines |}, true).
Proof.
  revert e. induction ms as [|m ms IH]; intros [a c out]; cbn.
  - by rewrite app_nil_r.
  - destruct (alpha_is_1 model j m); cbn.
    + rewrite IH; cbn. by rewrite <- app_assoc.
    + by rewrite IH.
Qed.

(** Until then nothing changes; the first machine whose indicator is 1
    receives the job in its next free slot. *)
Lemma visit_machines_search ms e :
  (forall m, List.find (alpha_is_1 model j) ms = Some m ->
     exists k row, jobs_assigned_on_machine e !! m = Some k
                   /\ job_order e !! m = Some row
                   /\ (k < length row)%nat) ->
  for_each ms (visit_machine model j) (e, false)
  = match List.find (alpha_is_1 model j) ms with
    | None => Ok (e, false)
    | Some m =>
        let k := default 0%nat (jobs_assigned_on_machine e !! m) in
        Ok ({| job_order :=
                 <[m := <[k := Z.of_nat j]> (default [] (job_order e !! m))]>
                   (job_order e);
               jobs_assigned_on_machine :=
                 <[m := S k]> (jobs_assigned_on_machine e);
               stdout :=
                 stdout e
                 ++ replicate
                      (length (List.filter (alpha_is_1 model j) ms) - 1)
                      multiple_machines |}, true)
    end.
Proof.
  induction ms as [|m ms IH]; intros Hpre; cbn; [done|].
  cbn in Hpre. destruct (alpha_is_1 model j m) eqn:Hone; cbn.
  - destruct (Hpre m eq_refl) as (k & row & Hk & Hrow & Hlt).
    unfold getitem, setitem2, index. rewrite Hk, Hrow; cbn.
    rewrite bool_decide_eq_true_2 by done. cbn.
    rewrite visit_machines_found; cbn. by rewrite Nat.sub_0_r.
  - by apply IH.
Qed.

Lemma find_none_filter (ms : list nat) :
  List.find (alpha_is_1 model j) ms = None ->
  List.filter (alpha_is_1 model j) ms = [].
Proof.
  induction ms as [|m ms IH]; cbn; [done|].
  destruct (alpha_is_1 model j m); [discriminate|done].
Qed.

Lemma find_some_elem (ms : list nat) m :
  List.find (alpha_is_1 model j) ms = Some m ->
  m ∈ ms /\ alpha_is_1 model j m = true.
Proof.
  intros Hf. apply find_some in Hf as [Hin Hone].
  by rewrite list_elem_of_In.
Qed.

Lemma find_none_all (ms : list nat) :
  List.find (alpha_is_1 model j) ms = None <->
  forall m, m ∈ ms -> alpha_is_1 model j m = false.
Proof.
  split.
  - intros Hf m Hm. apply list_elem_of_In in Hm.
    exact (find_none _ _ Hf m Hm).
  - intros Hall. induction ms as [|m ms IH]; cbn; [done|].
    rewrite (Hall m) by (by left). apply IH. intros m' Hm'.
    apply Hall. by right.
Qed.

(** The body of the outer loop, in one equation. *)
Lemma visit_job_spec e :
  (forall m, assigned_machine model j = Some m ->
     exists k row, jobs_assigned_on_machine e !! m = Some k
                   /\ job_order e !! m = Some row
                   /\ (k < length row)%nat) ->
  visit_job model j e
  = Ok (match assigned_machine model j with
        | None => e
        | Some m =>
            let k := default 0%nat (jobs_assigned_on_machine e !! m) in
            {| job_order :=
                 <[m := <[k := Z.of_nat j]> (default [] (job_order e !! m))]>
                   (job_order e);
               jobs_assigned_on_machine :=
                 <[m := S k]> (jobs_assigned_on_machine e);
               stdout :=
                 stdout e
                 ++ replicate (extra_machines model j) multiple_machines |}
        end).
Proof.
  intros Hpre. unfold visit_job, assigned_machine, extra_machines in *.
  rewrite (visit_machines_search _ _ Hpre).
  by destruct (List.find (alpha_is_1 model j) (model_machines model)).
Qed.
End visit_facts.

(** ** The outer loop of [get_schedule] *)

Section extraction_facts.
Variable model : ConcreteModel.

Lemma placed_app done j m :
  placed model (done ++ [j]) m
  = placed model done m
    ++ (if decide (assigned_machine model j = Some m) then [j] else []).
Proof.
  unfold placed. rewrite filter_app, filter_cons.
  by destruct (decide (assigned_machine model j = Some m)).
Qed.

Lemma placed_length done m : (length (placed model done m) <= length done)%nat.
Proof. apply length_filter. Qed.

Lemma diagnostics_app done j :
  diagnostics model (done ++ [j])
  = diagnostics model done
    ++ replicate (extra_machines model j) multiple_machines.
Proof. unfold diagnostics. rewrite bind_app. cbn. by rewrite app_nil_r. Qed.

Lemma row_of_length done m :
  (length done <= length (model_jobs model))%nat ->
  length (row_of model done m) = length (model_jobs model).
Proof.
  intros Hle. unfold row_of.
  rewrite length_app, length_fmap, length_replicate.
  pose proof (placed_length done m). lia.
Qed.

(** Writing job [j] into the next free slot of its machine extends the
    row by that job. *)
Lemma row_of_place done j m :
  assigned_machine model j = Some m ->
  (length done < length (model_jobs model))%nat ->
  <[length (placed model done m) := Z.of_nat j]> (row_of model done m)
  = row_of model (done ++ [j]) m.
Proof.
  intros Hm Hlt. unfold row_of. rewrite placed_app, decide_True by done.
  pose proof (placed_length done m) as Hle.
  rewrite insert_app_r_alt by (rewrite length_fmap; lia).
  rewrite length_fmap, Nat.sub_diag, fmap_app, length_app. cbn.
  replace (length (model_jobs model) - length (placed model done m))%nat
    with (S (length (model_jobs model) - (length (placed model done m) + 1)))
    by lia.
  cbn. by rewrite <- app_assoc.
Qed.

Lemma row_of_other done j m :
  assigned_machine model j <> Some m ->
  row_of model (done ++ [j]) m = row_of model done m.
Proof.
  intros Hm. unfold row_of.
  by rewrite placed_app, decide_False, app_nil_r by done.
Qed.

Lemma placed_other done j m :
  assigned_machine model j <> Some m ->
  placed model (done ++ [j]) m = placed model done m.
Proof.
  intros Hm. by rewrite placed_app, decide_False, app_nil_r by done.
Qed.

Lemma fmap_fst_pair {A B} (l : list A) (b : B) :
  ((fun x => (x, b)) <$> l).*1 = l.
Proof. induction l as [|x l IH]; cbn; [done|]. by f_equal. Qed.

Lemma extraction_inv_initial n_machines :
  model_machines model = seq 0 n_machines ->
  extraction_inv model [] (initial_extraction model).
Proof.
  intros Hms. unfold extraction_inv, initial_extraction; cbn.
  split; [by rewrite length_replicate|]. split; [|done].
  intros m Hm. split.
  - unfold row_of, placed. cbn. rewrite Nat.sub_0_r.
    apply lookup_replicate_2. rewrite Hms in Hm |- *.
    apply elem_of_range in Hm. by rewrite length_seq.
  - unfold placed. cbn.
    apply elem_of_list_to_map_1.
    + rewrite fmap_fst_pair, Hms. apply NoDup_seq.
    + apply list_elem_of_fmap. by exists m.
Qed.

Lemma extraction_inv_step done j e :
  extraction_inv model done e ->
  (length done < length (model_jobs model))%nat ->
  exists e', visit_job model j e = Ok e'
             /\ extraction_inv model (done ++ [j]) e'.
Proof.
  intros (Hlen & Hrows & Hout) Hlt.
  rewrite visit_job_spec.
  - destruct (assigned_machine model j) as [m0|] eqn:Hassigned.
    + apply find_some_elem in Hassigned as Hm0. destruct Hm0 as [Hm0 _].
      destruct (Hrows m0 Hm0) as [Hrow0 Hcnt0].
      eexists. split; [reflexivity|]. rewrite Hrow0, Hcnt0; cbn.
      split; [|split]; cbn.
      * by rewrite length_insert.
      * intros m Hm. destruct (decide (m = m0)) as [->|Hne].
        -- rewrite list_lookup_insert_eq by (by apply lookup_lt_Some in Hrow0).
           rewrite lookup_insert_eq, (row_of_place _ _ _ Hassigned Hlt).
           split; [done|]. rewrite placed_app, decide_True by done.
           rewrite length_app. cbn. f_equal. lia.
        -- rewrite list_lookup_insert_ne, lookup_insert_ne by done.
           rewrite row_of_other, placed_other by congruence.
           by apply Hrows.
      * by rewrite Hout, diagnostics_app.
    + eexists. split; [reflexivity|]. split; [done|]. split.
      * intros m Hm. rewrite row_of_other, placed_other by congruence.
        by apply Hrows.
      * rewrite diagnostics_app. unfold extra_machines.
        unfold assigned_machine in Hassigned.
        rewrite (find_none_filter _ _ _ Hassigned); cbn.
        by rewrite app_nil_r.
  - intros m Hm. apply find_some_elem in Hm as Hin. destruct Hin as [Hin _].
    destruct (Hrows m Hin) as [Hrow Hcnt].
    eexists _, _. split; [exact Hcnt|]. split; [exact Hrow|].
    rewrite row_of_length by lia. pose proof (placed_length done m). lia.
Qed.

Lemma extraction_loop rest :
  forall done e,
    extraction_inv model done e ->
    (length done + length rest <= length (model_jobs model))%nat ->
    exists e', for_each rest (visit_job model) e = Ok e'
               /\ extraction_inv model (done ++ rest) e'.
Proof.
  induction rest as [|j rest IH]; intros done e Hinv Hlen; cbn.
  - exists e. by rewrite app_nil_r.
  - cbn in Hlen.
    destruct (extraction_inv_step done j e Hinv) as (e1 & -> & Hinv1); [lia|].
    cbn. destruct (IH (done ++ [j]) e1 Hinv1) as (e' & He' & Hinv').
    { rewrite length_app. cbn. lia. }
    exists e'. split; [done|]. by rewrite <- app_assoc in Hinv'.
Qed.
End extraction_facts.

(** What [get_schedule] computes on a solved model: the jobs are taken in
    the order [order], the stable sort of the job indices by start time,
    and row [m] of the array lists the jobs of [order] whose first
    machine with indicator 1 is [m], followed by -2. *)
Lemma get_schedule_spec model n_jobs n_machines :
  solved model n_jobs n_machines ->
  exists order a,
    sorted (fun j => value model (t j)) (seq 0 n_jobs) = Ok order
    /\ order ≡ₚ seq 0 n_jobs
    /\ StronglySorted (earlier model) order
    /\ get_schedule model = Ok (diagnostics model order, a)
    /\ length a = n_machines
    /\ forall m, (m < n_machines)%nat -> a !! m = Some (row_of model order m).
Proof.
  intros (Hjobs & Hms & Hvalues).
  destruct (sorted_spec (fun j => value model (t j)) (seq 0 n_jobs))
    as (order & Hsorted & Hperm & Hordered).
  { apply Forall_forall. intros j Hj. apply Hvalues. by apply elem_of_range. }
  { apply StronglySorted_range. }
  destruct (extraction_loop model order [] (initial_extraction model))
    as (e & He & Hlen & Hrows & Hout).
  { by apply (extraction_inv_initial model n_machines). }
  { cbn. by rewrite Hperm, Hjobs. }
  exists order, (job_order e). unfold get_schedule.
  rewrite Hjobs, Hsorted; cbn. rewrite He; cbn. rewrite Hout.
  repeat split; try done.
  - by rewrite Hlen, Hms, length_seq.
  - intros m Hm. apply Hrows. rewrite Hms. by apply elem_of_range.
Qed.

Lemma StronglySorted_weaken {A} (R R' : A -> A -> Prop) (l : list A) :
  (forall x y, R x y -> R' x y) -> StronglySorted R l -> StronglySorted R' l.
Proof.
  intros Himpl. induction l as [|x l IH]; intros Hs; [constructor|].
  apply StronglySorted_cons in Hs as [Hx Hs].
  apply StronglySorted_cons. split; [|auto].
  eapply Forall_impl; [exact Hx|]. auto.
Qed.

Lemma assigned_machine_first model n_machines j m :
  model_machines model = seq 0 n_machines ->
  assigned_machine model j = Some m ->
  (m < n_machines)%nat
  /\ alpha_is_1 model j m = true
  /\ forall m', (m' < m)%nat -> alpha_is_1 model j m' = false.
Proof.
  unfold assigned_machine. intros ->.
  assert (forall a n,
            List.find (alpha_is_1 model j) (seq a n) = Some m ->
            (a <= m < a + n)%nat /\ alpha_is_1 model j m = true
            /\ forall m', (a <= m' < m)%nat -> alpha_is_1 model j m' = false)
    as Hgen.
  { intros a n. revert a. induction n as [|n IH]; intros a; cbn; [done|].
    destruct (alpha_is_1 model j a) eqn:Ha.
    - intros [= <-]. repeat split; [lia|lia|done|]. intros m' Hm'. lia.
    - intros Hf. destruct (IH _ Hf) as (Hr & Hone & Hbefore).
      repeat split; [lia|lia|done|]. intros m' Hm'.
      destruct (decide (m' = a)) as [->|Hne]; [done|]. apply Hbefore. lia. }
  intros Hf. destruct (Hgen _ _ Hf) as (Hr & Hone & Hbefore).
  repeat split; [lia|done|]. intros m' Hm'. apply Hbefore. lia.
Qed.

Lemma assigned_machine_None model n_machines j :
  model_machines model = seq 0 n_machines ->
  assigned_machine model j = None <->
  forall m, (m < n_machines)%nat -> alpha_is_1 model j m = false.
Proof.
  intros Hms. unfold assigned_machine. rewrite find_none_all, Hms.
  split; intros Hall m Hm; apply Hall; by apply elem_of_range.
Qed.

(** ** C7: the order of extraction *)

(** C7.  On a solved model [get_schedule] returns; the jobs are visited
    in the order [order], which contains every job index once and is
    sorted by start time with ties broken by job index (it is the result
    of the stable sort); row [m] of the array holds, in that order, the
    jobs whose first machine with indicator 1 is [m], each in the slot
    after the previous one, and then -2; so along every row the start
    times of the jobs never decrease. *)
Theorem C7_extraction_order model n_jobs n_machines :
  solved model n_jobs n_machines ->
  exists order out a,
    get_schedule model = Ok (out, a)
    /\ sorted (fun j => value model (t j)) (seq 0 n_jobs) = Ok order
    /\ order ≡ₚ seq 0 n_jobs
    /\ StronglySorted (earlier model) order
    /\ length a = n_machines
    /\ forall m,
         (m < n_machines)%nat ->
         a !! m
         = Some ((Z.of_nat <$> placed model order m)
                 ++ replicate (n_jobs - length (placed model order m)) (-2)%Z)
         /\ (forall j, j ∈ placed model order m <->
                       j ∈ order /\ assigned_machine model j = Some m)
         /\ (forall j, j ∈ placed model order m -> alpha_is_1 model j m = true)
         /\ StronglySorted (fun i j => start model i <= start model j)
                           (placed model order m).
Proof.
  intros Hsolved.
  destruct (get_schedule_spec _ _ _ Hsolved)
    as (order & a & Hsorted & Hperm & Hordered & Hget & Hlen & Hrows).
  destruct Hsolved as (Hjobs & Hms & _).
  exists order, (diagnostics model order), a.
  do 5 (split; [done|]).
  intros m Hm. split; [|split; [|split]].
  - rewrite (Hrows m) by done. unfold row_of.
    by rewrite Hjobs, length_seq.
  - intros j. unfold placed. rewrite list_elem_of_filter. tauto.
  - intros j Hj. apply list_elem_of_filter in Hj as [Hj _].
    by destruct (assigned_machine_first _ _ _ _ Hms Hj) as (_ & ? & _).
  - apply StronglySorted_weaken with (R := earlier model).
    + intros i j. apply key_before_le.
    + by apply StronglySorted_filter_keep.
Qed.

Lemma C7_witness :
  exists order out a,
    get_schedule (bare_model 4 2 tie_values) = Ok (out, a)
    /\ order = [1; 3; 0; 2]%nat
    /\ placed (bare_model 4 2 tie_values) order 0 = [0; 2]%nat
    /\ a = [[0; 2; -2; -2]; [1; 3; -2; -2]]%Z.
Proof.
  assert (solved (bare_model 4 2 tie_values) 4 2) as Hsolved.
  { split; [reflexivity|]. split; [reflexivity|]. intros j Hj.
    do 4 (destruct j as [|j]; [eexists; reflexivity|]). lia. }
  destruct (C7_extraction_order (bare_model 4 2 tie_values) 4 2 Hsolved)
    as (order & out & a & Hget & Hsorted & _).
  exists order, out, a. split; [exact Hget|].
  vm_compute in Hsorted. injection Hsorted as <-.
  vm_compute in Hget. injection Hget as <- <-.
  split; [reflexivity|]. split; [|reflexivity].
  vm_compute. reflexivity.
Defined.

(** ** Where a job ends up in the array *)

Lemma elem_of_row_of model order m j :
  Z.of_nat j ∈ row_of model order m
  <-> j ∈ order /\ assigned_machine model j = Some m.
Proof.
  unfold row_of, placed. rewrite elem_of_app, elem_of_replicate. split.
  - intros [Hin|[Hneg _]]; [|lia].
    apply list_elem_of_fmap in Hin as (j' & Heq & Hin).
    apply Nat2Z.inj in Heq. subst j'.
    apply list_elem_of_filter in Hin. tauto.
  - intros [Hin Hm]. left. apply list_elem_of_fmap_2.
    by apply list_elem_of_filter.
Qed.

Lemma count_replicate_sentinel j n :
  filter (fun z => z = Z.of_nat j) (replicate n (-2)%Z) = [].
Proof.
  induction n as [|n IH]; [done|].
  rewrite replicate_S, filter_cons, decide_False by lia. exact IH.
Qed.

Lemma count_fmap_of_nat j (l : list nat) :
  length (filter (fun z => z = Z.of_nat j) (Z.of_nat <$> l))
  = length (filter (fun i => i = j) l).
Proof.
  induction l as [|x l IH]; [done|].
  rewrite fmap_cons, !filter_cons.
  destruct (decide (x = j)) as [->|Hne].
  - rewrite decide_True by done. cbn. by rewrite IH.
  - rewrite decide_False by lia. exact IH.
Qed.

Lemma count_NoDup j (l : list nat) :
  NoDup l ->
  length (filter (fun i => i = j) l) = if decide (j ∈ l) then 1%nat else 0%nat.
Proof.
  induction l as [|x l IH]; intros Hnd.
  - cbn. rewrite decide_False; [done|]. apply not_elem_of_nil.
  - apply NoDup_cons in Hnd as [Hx Hnd]. rewrite filter_cons.
    destruct (decide (x = j)) as [->|Hne].
    + cbn. rewrite IH by done.
      rewrite decide_False by done.
      rewrite decide_True by (by left). done.
    + rewrite IH by done.
      destruct (decide (j ∈ l)) as [Hin|Hnin].
      * rewrite decide_True by (by right). done.
      * rewrite decide_False; [done|].
        intros Hin. apply elem_of_cons in Hin as [->|Hin]; done.
Qed.

(** In a row, a job occurs once if it is placed on that machine and not
    at all otherwise. *)
Lemma count_row_of model order m j :
  NoDup order ->
  length (filter (fun z => z = Z.of_nat j) (row_of model order m))
  = if decide (j ∈ order /\ assigned_machine model j = Some m)
    then 1%nat else 0%nat.
Proof.
  intros Hnd. unfold row_of.
  rewrite filter_app, count_replicate_sentinel, app_nil_r, count_fmap_of_nat.
  rewrite count_NoDup by (by apply NoDup_filter).
  unfold placed.
  destruct (decide (j ∈ order /\ assigned_machine model j = Some m))
    as [Hyes|Hno].
  - rewrite decide_True; [done|]. apply list_elem_of_filter. tauto.
  - rewrite decide_False; [done|]. rewrite list_elem_of_filter. tauto.
Qed.

Lemma two_matches_filter (f : nat -> bool) (ms : list nat) m1 m2 :
  m1 <> m2 -> m1 ∈ ms -> m2 ∈ ms -> f m1 = true -> f m2 = true ->
  (2 <= length (List.filter f ms))%nat.
Proof.
  intros Hne H1 H2 Hf1 Hf2.
  assert ([m1; m2] ⊆+ List.filter f ms) as Hsub.
  { apply NoDup_submseteq.
    - apply NoDup_cons. split; [by rewrite list_elem_of_singleton|].
      apply NoDup_singleton.
    - intros x Hx. apply list_elem_of_In, filter_In.
      rewrite <- list_elem_of_In.
      apply elem_of_cons in Hx as [->|Hx]; [done|].
      apply list_elem_of_singleton in Hx as ->. done. }
  by apply submseteq_length in Hsub.
Qed.

Lemma odd_model_solved : solved (bare_model 3 2 odd_values) 3 2.
Proof.
  split; [reflexivity|]. split; [reflexivity|]. intros j Hj.
  do 3 (destruct j as [|j]; [eexists; reflexivity|]). lia.
Qed.

(** ** C9: a job whose indicator is 1 on several machines *)

(** C9.  If, in a solved model, job [j] has indicator 1 on two different
    machines, [get_schedule] still returns: the diagnostic line is among
    the printed lines, the job occurs exactly once in the array, in the
    row of the first machine with indicator 1 and in no other row, and
    every row is still the list of the jobs placed on its machine
    followed by -2. *)
Theorem C9_multiple_machines_reported model n_jobs n_machines j m1 m2 :
  solved model n_jobs n_machines ->
  (j < n_jobs)%nat ->
  (m1 < n_machines)%nat -> (m2 < n_machines)%nat -> m1 <> m2 ->
  alpha_is_1 model j m1 = true -> alpha_is_1 model j m2 = true ->
  exists order out a first,
    get_schedule model = Ok (out, a)
    /\ multiple_machines ∈ out
    /\ assigned_machine model j = Some first
    /\ (first <= m1)%nat /\ (first <= m2)%nat
    /\ alpha_is_1 model j first = true
    /\ (forall m, (m < first)%nat -> alpha_is_1 model j m = false)
    /\ order ≡ₚ seq 0 n_jobs
    /\ forall m,
         (m < n_machines)%nat ->
         a !! m = Some (row_of model order m)
         /\ length (filter (fun z => z = Z.of_nat j) (row_of model order m))
            = if decide (m = first) then 1%nat else 0%nat.
Proof.
  intros Hsolved Hj Hm1 Hm2 Hne Hone1 Hone2.
  destruct (get_schedule_spec _ _ _ Hsolved)
    as (order & a & _ & Hperm & _ & Hget & _ & Hrows).
  destruct Hsolved as (Hjobs & Hms & _).
  destruct (assigned_machine model j) as [first|] eqn:Hfirst.
  2: { rewrite (assigned_machine_None _ _ _ Hms) in Hfirst.
       rewrite (Hfirst m1 Hm1) in Hone1. discriminate. }
  destruct (assigned_machine_first _ _ _ _ Hms Hfirst)
    as (Hlt & Hone & Hbefore).
  assert (j ∈ order) as Hin.
  { rewrite Hperm. by apply elem_of_range. }
  exists order, (diagnostics model order), a, first.
  split; [done|]. split.
  { unfold diagnostics. apply list_elem_of_bind. exists j. split; [|done].
    apply elem_of_replicate. split; [done|]. unfold extra_machines.
    pose proof (two_matches_filter (alpha_is_1 model j) (model_machines model)
                  m1 m2 Hne) as Htwo.
    rewrite Hms, !elem_of_range in Htwo.
    specialize (Htwo Hm1 Hm2 Hone1 Hone2). rewrite Hms. lia. }
  split; [done|]. split.
  { destruct (decide (first <= m1)%nat) as [|Hgt]; [done|].
    rewrite Hbefore in Hone1 by lia. discriminate. }
  split.
  { destruct (decide (first <= m2)%nat) as [|Hgt]; [done|].
    rewrite Hbefore in Hone2 by lia. discriminate. }
  split; [done|]. split; [done|]. split; [done|].
  intros m Hm. split; [by apply Hrows|].
  rewrite count_row_of by (rewrite Hperm; apply NoDup_seq).
  destruct (decide (m = first)) as [->|Hother].
  - by rewrite decide_True.
  - rewrite decide_False; [done|]. intros [_ Heq]. congruence.
Qed.

Lemma C9_witness :
  exists out a,
    get_schedule (bare_model 3 2 odd_values) = Ok (out, a)
    /\ multiple_machines ∈ out
    /\ a = [[0; -2; -2]; [2; -2; -2]]%Z.
Proof.
  destruct (C9_multiple_machines_reported (bare_model 3 2 odd_values) 3 2
              0 0 1 odd_model_solved ltac:(lia) ltac:(lia) ltac:(lia)
              ltac:(lia) eq_refl eq_refl)
    as (order & out & a & first & Hget & Hdiag & _).
  exists out, a. split; [exact Hget|]. split; [exact Hdiag|].
  vm_compute in Hget. by injection Hget as <- <-.
Defined.

(** ** C10: a job whose indicator is 1 on no machine *)

(** C10.  If, in a solved model, no machine has an indicator equal to 1
    for job [j] (999/1000 is not 1), visiting [j] changes nothing: no
    slot is written, no counter moves, nothing is printed.  In the array
    that [get_schedule] returns the job occurs in no row, and every row
    is the list of the jobs placed on its machine followed by at least
    one -2. *)
Theorem C10_unassigned_job_omitted model n_jobs n_machines j :
  solved model n_jobs n_machines ->
  (j < n_jobs)%nat ->
  (forall m, (m < n_machines)%nat -> alpha_is_1 model j m = false) ->
  (forall e, visit_job model j e = Ok e)
  /\ extra_machines model j = 0%nat
  /\ exists order out a,
       get_schedule model = Ok (out, a)
       /\ order ≡ₚ seq 0 n_jobs
       /\ out = diagnostics model order
       /\ forall m,
            (m < n_machines)%nat ->
            exists row,
              a !! m = Some row
              /\ row = (Z.of_nat <$> placed model order m)
                       ++ replicate (n_jobs - length (placed model order m))
                                    (-2)%Z
              /\ (length (placed model order m) < n_jobs)%nat
              /\ (j ∉ placed model order m)
              /\ (Z.of_nat j ∉ row).
Proof.
  intros Hsolved Hj Hnone.
  destruct (get_schedule_spec _ _ _ Hsolved)
    as (order & a & _ & Hperm & _ & Hget & _ & Hrows).
  destruct Hsolved as (Hjobs & Hms & _).
  pose proof (proj2 (assigned_machine_None _ _ j Hms) Hnone) as Hassigned.
  assert (j ∈ order) as Hin.
  { rewrite Hperm. by apply elem_of_range. }
  split; [|split].
  - intros e. rewrite visit_job_spec; [by rewrite Hassigned|].
    intros m Hm. congruence.
  - unfold extra_machines. unfold assigned_machine in Hassigned.
    by rewrite (find_none_filter _ _ _ Hassigned).
  - exists order, (diagnostics model order), a.
    do 3 (split; [done|]).
    intros m Hm. exists (row_of model order m).
    split; [by apply Hrows|]. split.
    { unfold row_of. by rewrite Hjobs, length_seq. }
    split.
    { replace n_jobs with (length order)
        by (by rewrite Hperm, length_seq).
      apply (length_filter_lt _ _ j); [done|]. congruence. }
    split.
    { intros Hp. apply list_elem_of_filter in Hp as [Hp _]. congruence. }
    rewrite elem_of_row_of. intros [_ Hp]. congruence.
Qed.

Lemma C10_witness :
  exists out a,
    get_schedule (bare_model 3 2 odd_values) = Ok (out, a)
    /\ value (bare_model 3 2 odd_values) (alpha 1 1) = Some (999 # 1000)
    /\ (forall row, row ∈ a -> 1%Z ∉ row)
    /\ a = [[0; -2; -2]; [2; -2; -2]]%Z.
Proof.
  destruct (C10_unassigned_job_omitted (bare_model 3 2 odd_values) 3 2 1
              odd_model_solved ltac:(lia))
    as (_ & _ & order & out & a & Hget & _ & _ & Hrows).
  { intros m Hm. destruct m as [|[|m]]; [reflexivity|reflexivity|lia]. }
  exists out, a. split; [exact Hget|]. split; [reflexivity|].
  vm_compute in Hget. injection Hget as <- <-.
  split; [|reflexivity].
  intros row Hrow. apply list_elem_of_lookup in Hrow as [m Hm].
  assert (m < 2)%nat as Hlt by (by apply lookup_lt_Some in Hm).
  destruct (Hrows m Hlt) as (row' & Hm' & _ & _ & _ & Hnot).
  rewrite Hm in Hm'. by injection Hm' as ->.
Defined.

(** ** C8: validation *)

Lemma py_ne_false v start_time :
  py_ne v start_time = false <-> exists x, v = Some x /\ x == start_time.
Proof.
  unfold py_ne. destruct v as [x|].
  - rewrite negb_false_iff, Qeq_bool_iff. split; [eauto|].
    by intros (x' & [= <-] & Hx).
  - split; [discriminate|]. by intros (x & Hx & _).
Qed.

Lemma validate_jobs_true model machine js :
  snd (validate_jobs model machine js) = Ok true
  <-> Forall (entry_matches model) js.
Proof.
  induction js as [|[[job_idx start_time] end_time] rest IH]; cbn.
  - split; [constructor|done].
  - rewrite Forall_cons, <- IH. unfold entry_matches at 1.
    destruct (decide (job_idx = (-1)%Z \/ job_idx = (-2)%Z)) as [Hs|Hs].
    { rewrite bool_decide_eq_true_2 by done. tauto. }
    rewrite bool_decide_eq_false_2 by done.
    destruct (t_value model job_idx) as [v|e] eqn:Hv; cbn.
    + destruct (py_ne v start_time) eqn:Hne; cbn.
      * split; [discriminate|]. intros [[?|[?|(x & [= ->] & Hx)]] _]; try tauto.
        assert (py_ne (Some x) start_time = false) as Hf
          by (apply py_ne_false; eauto).
        congruence.
      * apply py_ne_false in Hne as (x & -> & Hx). split; [|tauto].
        intros Hrest. split; [|done]. right. right. eauto.
    + split; [discriminate|]. intros [[?|[?|(x & Hx & _)]] _]; try tauto.
      discriminate.
Qed.

(** When the inner loop returns False, it has printed one line: job,
    machine, solver value and recorded value of a non-sentinel entry
    that differs. *)
Lemma validate_jobs_false model machine js :
  snd (validate_jobs model machine js) = Ok false ->
  exists job_idx start_time end_time v,
    (job_idx, start_time, end_time) ∈ js
    /\ job_idx <> (-1)%Z /\ job_idx <> (-2)%Z
    /\ t_value model job_idx = Ok v
    /\ py_ne v start_time = true
    /\ fst (validate_jobs model machine js)
       = [StartMismatch job_idx machine v start_time].
Proof.
  induction js as [|[[job_idx start_time] end_time] rest IH]; cbn;
    [discriminate|].
  destruct (decide (job_idx = (-1)%Z \/ job_idx = (-2)%Z)) as [Hs|Hs].
  { rewrite bool_decide_eq_true_2 by done. intros Hf.
    destruct (IH Hf) as (i & s & e & v & Hin & Hrest).
    exists i, s, e, v. split; [by right|done]. }
  rewrite bool_decide_eq_false_2 by done.
  destruct (t_value model job_idx) as [v|e] eqn:Hv; cbn; [|discriminate].
  destruct (py_ne v start_time) eqn:Hne; cbn.
  - intros _. exists job_idx, start_time, end_time, v.
    split; [by left|]. repeat split; try done; intros ->; apply Hs; tauto.
  - intros Hf. destruct (IH Hf) as (i & s & e & v' & Hin & Hrest).
    exists i, s, e, v'. split; [by right|done].
Qed.

Lemma validate_schedule_true model schedule :
  snd (validate_schedule model schedule) = Ok true
  <-> all_entries (entry_matches model) schedule.
Proof.
  unfold all_entries.
  induction schedule as [|[machine js] rest IH]; cbn.
  - split; [constructor|done].
  - rewrite Forall_cons, <- IH, <- (validate_jobs_true model machine js). cbn.
    destruct (validate_jobs model machine js) as [out [[|]|e]]; cbn.
    + tauto.
    + split; [discriminate|]. by intros [? _].
    + split; [discriminate|]. by intros [? _].
Qed.

(** No tolerance makes the verdict of [validate_schedule] a tolerance
    check: whatever [eps > 0] is chosen, the schedule that records start
    time [eps] for a job solved to start at 0 is within [eps] and is
    rejected.  For instance a recorded start of one millionth of a minute
    is reported as a mismatch. *)
Lemma C8_counterexample :
  (~ exists eps,
       0 < eps
       /\ forall model schedule,
            snd (validate_schedule model schedule) = Ok true
            <-> all_entries (entry_within eps model) schedule)
  /\ validate_schedule (bare_model 1 1 one_job_values)
       [(0%nat, [(0%Z, 1 # 1000000, 10)])]
     = ([StartMismatch 0 0 (Some 0) (1 # 1000000)], Ok false).
Proof.
  split; [|vm_compute; reflexivity].
  intros (eps & Hpos & Hiff).
  destruct (Hiff (bare_model 1 1 one_job_values)
                 [(0%nat, [(0%Z, eps, eps)])]) as [_ Hback].
  assert (all_entries (entry_within eps (bare_model 1 1 one_job_values))
                      [(0%nat, [(0%Z, eps, eps)])]) as Hwithin.
  { constructor; [|constructor]. constructor; [|constructor].
    right. right. exists 0. split; [reflexivity|]. split; lra. }
  apply Hback, validate_schedule_true in Hwithin.
  apply Forall_cons in Hwithin as [Hentries _].
  apply Forall_cons in Hentries as [Hentry _].
  destruct Hentry as [Hs|[Hs|(v & Hv & Heq)]]; [lia|lia|].
  vm_compute in Hv. injection Hv as <-. lra.
Qed.

(** Entries that agree with the model are passed over without a trace. *)
Lemma validate_jobs_skip_matching model machine js1 rest :
  Forall (entry_matches model) js1 ->
  validate_jobs model machine (js1 ++ rest) = validate_jobs model machine rest.
Proof.
  induction js1 as [|[[job_idx start_time] end_time] js1 IH]; intros Hm;
    [done|].
  apply Forall_cons in Hm as [Hentry Hm]. cbn.
  destruct (decide (job_idx = (-1)%Z \/ job_idx = (-2)%Z)) as [Hs|Hs].
  { rewrite bool_decide_eq_true_2 by done. by apply IH. }
  rewrite bool_decide_eq_false_2 by done.
  destruct Hentry as [?|[?|(x & Hx & Heq)]]; [tauto|tauto|].
  rewrite Hx.
  assert (py_ne (Some x) start_time = false) as ->
    by (apply py_ne_false; eauto).
  by apply IH.
Qed.

Lemma validate_jobs_all_matching model machine js :
  Forall (entry_matches model) js ->
  validate_jobs model machine js = ([], Ok true).
Proof.
  intros Hm. rewrite <- (app_nil_r js).
  by rewrite (validate_jobs_skip_matching _ _ _ [] Hm).
Qed.

(** The loop stops at an entry that differs: the line is printed and
    False returned, whatever follows. *)
Lemma validate_jobs_at_mismatch model machine job_idx start_time end_time
    js2 v :
  job_idx <> (-1)%Z -> job_idx <> (-2)%Z ->
  t_value model job_idx = Ok v -> py_ne v start_time = true ->
  validate_jobs model machine ((job_idx, start_time, end_time) :: js2)
  = ([StartMismatch job_idx machine v start_time], Ok false).
Proof.
  intros Hn1 Hn2 Hv Hne. cbn.
  rewrite bool_decide_eq_false_2 by tauto. by rewrite Hv, Hne.
Qed.

Lemma validate_schedule_skip_matching model before rest :
  all_entries (entry_matches model) before ->
  validate_schedule model (before ++ rest) = validate_schedule model rest.
Proof.
  unfold all_entries.
  induction before as [|[machine js] before IH]; intros Hm; [done|].
  apply Forall_cons in Hm as [Hjs Hm]. cbn in Hjs |- *.
  rewrite (validate_jobs_all_matching _ _ _ Hjs). by apply IH.
Qed.

(** A False verdict of the inner loop comes from a first entry that
    differs, all entries before it agreeing with the model. *)
Lemma validate_jobs_false_first model machine js :
  snd (validate_jobs model machine js) = Ok false ->
  exists js1 job_idx start_time end_time js2 v,
    js = js1 ++ (job_idx, start_time, end_time) :: js2
    /\ Forall (entry_matches model) js1
    /\ job_idx <> (-1)%Z /\ job_idx <> (-2)%Z
    /\ t_value model job_idx = Ok v
    /\ py_ne v start_time = true.
Proof.
  induction js as [|[[job_idx start_time] end_time] rest IH]; cbn;
    [discriminate|].
  destruct (decide (job_idx = (-1)%Z \/ job_idx = (-2)%Z)) as [Hs|Hs].
  { rewrite bool_decide_eq_true_2 by done. intros Hf.
    destruct (IH Hf) as (js1 & i & s & e & js2 & v & -> & Hm & Hrest).
    exists ((job_idx, start_time, end_time) :: js1), i, s, e, js2, v.
    split; [done|]. split; [|done].
    apply Forall_cons. split; [|done]. cbn. tauto. }
  rewrite bool_decide_eq_false_2 by done.
  destruct (t_value model job_idx) as [v|e] eqn:Hv; cbn; [|discriminate].
  destruct (py_ne v start_time) eqn:Hne; cbn.
  - intros _. exists [], job_idx, start_time, end_time, rest, v.
    split; [done|]. split; [constructor|].
    repeat split; try done; intros ->; apply Hs; tauto.
  - intros Hf.
    destruct (IH Hf) as (js1 & i & s & e & js2 & v' & -> & Hm & Hrest).
    exists ((job_idx, start_time, end_time) :: js1), i, s, e, js2, v'.
    split; [done|]. split; [|done].
    apply Forall_cons. split; [|done].
    apply py_ne_false in Hne as (x & -> & Hx). cbn. right. right. eauto.
Qed.

(** C8 (amended).  [validate_schedule] returns True exactly when every
    non-sentinel entry (job index neither -1 nor -2) names a job of the
    model whose solved start time is equal to the recorded start time,
    the comparison being the exact [!=] of the two numbers; in that case
    nothing is printed.  Otherwise it stops at the first entry that
    differs: when all entries before it, on earlier machines and earlier
    in its own list, agree with the model, it prints one line with the
    job, the machine, the solver's value and the recorded value of that
    entry and returns False at once, whatever the later entries are; and
    every False verdict arises in this way. *)
Theorem C8_validate_schedule_exact model schedule :
  (snd (validate_schedule model schedule) = Ok true
   <-> all_entries (entry_matches model) schedule)
  /\ (snd (validate_schedule model schedule) = Ok true ->
      validate_schedule model schedule = ([], Ok true))
  /\ (forall before machine js1 job_idx start_time end_time js2 after v,
        schedule
        = before
          ++ (machine, js1 ++ (job_idx, start_time, end_time) :: js2)
             :: after ->
        all_entries (entry_matches model) before ->
        Forall (entry_matches model) js1 ->
        job_idx <> (-1)%Z -> job_idx <> (-2)%Z ->
        t_value model job_idx = Ok v ->
        py_ne v start_time = true ->
        validate_schedule model schedule
        = ([StartMismatch job_idx machine v start_time], Ok false))
  /\ (snd (validate_schedule model schedule) = Ok false ->
      exists before machine js1 job_idx start_time end_time js2 after v,
        schedule
        = before
          ++ (machine, js1 ++ (job_idx, start_time, end_time) :: js2)
             :: after
        /\ all_entries (entry_matches model) before
        /\ Forall (entry_matches model) js1
        /\ job_idx <> (-1)%Z /\ job_idx <> (-2)%Z
        /\ t_value model job_idx = Ok v
        /\ py_ne v start_time = true
        /\ validate_schedule model schedule
           = ([StartMismatch job_idx machine v start_time], Ok false)).
Proof.
  assert (forall before machine js1 job_idx start_time end_time js2 after v,
            all_entries (entry_matches model) before ->
            Forall (entry_matches model) js1 ->
            job_idx <> (-1)%Z -> job_idx <> (-2)%Z ->
            t_value model job_idx = Ok v ->
            py_ne v start_time = true ->
            validate_schedule model
              (before
               ++ (machine, js1 ++ (job_idx, start_time, end_time) :: js2)
                  :: after)
            = ([StartMismatch job_idx machine v start_time], Ok false))
    as Hstop.
  { intros before machine js1 job_idx start_time end_time js2 after v
           Hbefore Hjs1 Hn1 Hn2 Hv Hne.
    rewrite (validate_schedule_skip_matching _ _ _ Hbefore). cbn.
    rewrite (validate_jobs_skip_matching _ _ _ _ Hjs1).
    by rewrite (validate_jobs_at_mismatch _ _ _ _ _ _ _ Hn1 Hn2 Hv Hne). }
  split; [apply validate_schedule_true|]. split; [|split].
  - induction schedule as [|[machine js] rest IH]; cbn; [done|].
    destruct (validate_jobs model machine js) as [out [[|]|e]] eqn:Hjs; cbn;
      [done|discriminate|discriminate].
  - intros before machine js1 job_idx start_time end_time js2 after v ->.
    apply Hstop.
  - intros Hfalse.
    assert (exists before machine js1 job_idx start_time end_time js2 after v,
              schedule
              = before
                ++ (machine, js1 ++ (job_idx, start_time, end_time) :: js2)
                   :: after
              /\ all_entries (entry_matches model) before
              /\ Forall (entry_matches model) js1
              /\ job_idx <> (-1)%Z /\ job_idx <> (-2)%Z
              /\ t_value model job_idx = Ok v
              /\ py_ne v start_time = true) as Hfirst.
    { induction schedule as [|[machine js] rest IH]; cbn in Hfalse;
        [discriminate|].
      destruct (validate_jobs model machine js) as [out [[|]|e]] eqn:Hjs;
        cbn in Hfalse; [| |discriminate].
      - destruct (IH Hfalse)
          as (before & m & js1 & i & s & e & js2 & after & v & -> & Hb & Hrest).
        exists ((machine, js) :: before), m, js1, i, s, e, js2, after, v.
        split; [done|]. split; [|done].
        apply Forall_cons. split; [|done]. cbn.
        apply (proj1 (validate_jobs_true model machine js)). by rewrite Hjs.
      - destruct (validate_jobs_false_first model machine js)
          as (js1 & i & s & e & js2 & v & -> & Hrest); [by rewrite Hjs|].
        exists [], machine, js1, i, s, e, js2, rest, v.
        split; [done|]. split; [constructor|done]. }
    destruct Hfirst
      as (before & machine & js1 & i & s & e & js2 & after & v
          & -> & Hb & Hjs1 & Hn1 & Hn2 & Hv & Hne).
    exists before, machine, js1, i, s, e, js2, after, v.
    do 7 (split; [done|]). by apply Hstop.
Qed.

Lemma C8_witness :
  validate_schedule (bare_model 4 2 tie_values)
    [(0%nat, [(0%Z, 5, 9); (2%Z, 10 # 2, 12); ((-2)%Z, 0, 0)]);
     (1%nat, [(1%Z, 0, 1); (3%Z, 1 # 2, 7); ((-1)%Z, 0, 0)])]
  = ([], Ok true)
  /\ validate_schedule (bare_model 4 2 tie_values)
       [(0%nat, [(0%Z, 5, 9); ((-2)%Z, 0, 0)]);
        (1%nat, [(1%Z, 0, 1); (3%Z, 99, 7); (7%Z, 0, 0); (1%Z, 8, 9)]);
        (2%nat, [(9%Z, 0, 0)])]
     = ([StartMismatch 3 1 (Some (1 # 2)) 99], Ok false).
Proof.
  split.
  - apply (proj1 (proj2 (C8_validate_schedule_exact _ _))).
    apply (proj2 (proj1 (C8_validate_schedule_exact _ _))).
    unfold all_entries.
    repeat (constructor; [|try constructor]); cbn;
      first [ left; reflexivity
            | right; left; reflexivity
            | right; right; eexists; split;
              [vm_compute; reflexivity|reflexivity] ].
  - apply (proj1 (proj2 (proj2 (C8_validate_schedule_exact _ _)))
             [(0%nat, [(0%Z, 5, 9); ((-2)%Z, 0, 0)])]
             1%nat [(1%Z, 0, 1)] 3%Z 99 7 [(7%Z, 0, 0); (1%Z, 8, 9)]
             [(2%nat, [(9%Z, 0, 0)])] (Some (1 # 2))).
    + reflexivity.
    + constructor; [|constructor]. cbn.
      constructor; [|constructor; [|constructor]].
      * right. right. eexists. split; [vm_compute; reflexivity|reflexivity].
      * right. left. reflexivity.
    + constructor; [|constructor].
      right. right. eexists. split; [vm_compute; reflexivity|reflexivity].
    + lia.
    + lia.
    + vm_compute. reflexivity.
    + reflexivity.
Defined.

(** ** The whole sequence on an example *)

(** Build, solve, extract and validate on [two_jobs] with a solver that
    returns the optimal solution: job 0 then job 1 on machine 0. *)
Lemma two_jobs_pipeline :
  exists model,
    generate_model two_jobs = Ok model
    /\ generate_and_solve optimal_solver two_jobs = ([], Ok 0%nat)
    /\ get_schedule (load_values two_jobs_values model)
       = Ok ([], [[0; 1]]%Z)
    /\ validate_schedule (load_values two_jobs_values model)
         [(0%nat, [(0%Z, 0, 10); (1%Z, 10, 15)])]
       = ([], Ok true).
Proof.
  destruct (generate_model two_jobs) as [model|e] eqn:Hgen;
    [|exfalso; vm_compute in Hgen; discriminate].
  exists model. split; [reflexivity|].
  unfold generate_and_solve. rewrite Hgen.
  vm_compute in Hgen. injection Hgen as <-.
  repeat split; vm_compute; reflexivity.
Qed.

(** Before a solve the start times have no value, and sorting two jobs
    by them raises. *)
Lemma get_schedule_unsolved :
  get_schedule (bare_model 2 1 (fun _ => None)) = Raise TypeError.
Proof. reflexivity. Qed.

(* ===================================================================== *)
(** * Further properties of the model builder *)
(* ===================================================================== *)

(** ** When is a model generated *)

Section generation_outcome.
Variable jssp : JobShopProblem.

Lemma in_job_range j :
  j ∈ seq 0 (length (jobs jssp)) <-> exists job, jobs jssp !! j = Some job.
Proof.
  rewrite elem_of_range. split; [apply job_in_range|].
  intros [job Hjob]. apply lookup_lt_is_Some_1. eauto.
Qed.

Lemma one_machine_rule_ok j :
  (j < length (jobs jssp))%nat ->
  (exists c, one_machine_per_job jssp (seq 0 (machines jssp)) j = Ok (Rel c))
  <-> exists m, eligible jssp j m.
Proof.
  intros Hj. destruct (job_in_range _ _ Hj) as [job Hjob].
  rewrite (one_machine_per_job_eq _ _ _ Hjob). unfold assignment_sum.
  destruct (omap _ _) as [|e es] eqn:Hterms; cbn.
  - split; [by intros [c Hc]|]. intros [m Hm].
    by destruct (proj1 (assignment_terms_nil jssp j) Hterms m).
  - split; [|eauto]. intros _.
    assert (e ∈ omap (fun m => (fun _ => V (alpha j m)) <$> duration jssp j m)
                     (seq 0 (machines jssp))) as Hin
      by (rewrite Hterms; by left).
    apply list_elem_of_omap in Hin as (m & Hm & He).
    exists m. split; [by apply elem_of_range|].
    destruct (duration jssp j m); [eauto|discriminate].
Qed.

(** What the two mutual-exclusion rules return at an index of the
    product set. *)
Lemma no_overlapping_cases j1 j2 m :
  (j1 < length (jobs jssp))%nat -> (j2 < length (jobs jssp))%nat ->
  (m < machines jssp)%nat ->
  (~ (j1 <> j2 /\ eligible jssp j1 m /\ eligible jssp j2 m)
   /\ no_overlapping_1 jssp (j1, j2, m) = Ok Skip
   /\ no_overlapping_2 jssp (j1, j2, m) = Ok Skip)
  \/ (j1 <> j2 /\ eligible jssp j1 m /\ eligible jssp j2 m
      /\ (exists d2,
            duration jssp j2 m = Some d2
            /\ no_overlapping_1 jssp (j1, j2, m)
               = match setup jssp j2 j1 with
                 | Some s21 => Ok (Rel (big_M_1 j1 j2 m d2 s21))
                 | None => Raise IndexError
                 end)
      /\ (exists d1,
            duration jssp j1 m = Some d1
            /\ no_overlapping_2 jssp (j1, j2, m)
               = match setup jssp j1 j2 with
                 | Some s12 => Ok (Rel (big_M_2 j1 j2 m d1 s12))
                 | None => Raise IndexError
                 end)).
Proof.
  intros Hj1 Hj2 Hm.
  destruct (job_in_range _ _ Hj1) as [job1 Hjob1].
  destruct (job_in_range _ _ Hj2) as [job2 Hjob2].
  destruct (decide (j1 <> j2 /\ is_Some (duration jssp j1 m)
                    /\ is_Some (duration jssp j2 m)))
    as [(Hne & [d1 Hd1] & [d2 Hd2])|Hskip].
  - right. split; [done|]. split; [by split; eauto|].
    split; [by split; eauto|]. split.
    + exists d2. split; [done|]. by eapply no_overlapping_1_eq.
    + exists d1. split; [done|]. by eapply no_overlapping_2_eq.
  - left. split.
    + intros (Hne & [_ H1] & [_ H2]). by apply Hskip.
    + by eapply no_overlapping_skip.
Qed.

Lemma product_index j1 j2 m :
  (j1, j2, m) ∈ product (product (seq 0 (length (jobs jssp)))
                                 (seq 0 (length (jobs jssp))))
                        (seq 0 (machines jssp))
  <-> (j1 < length (jobs jssp))%nat /\ (j2 < length (jobs jssp))%nat
      /\ (m < machines jssp)%nat.
Proof. rewrite !elem_of_product, !elem_of_range. tauto. Qed.
End generation_outcome.


(** The first four components of a problem in which every job is
    eligible somewhere are always built. *)
Lemma first_components_generated jssp :
  every_job_eligible jssp ->
  let js := seq 0 (length (jobs jssp)) in
  let ms := seq 0 (machines jssp) in
  (exists c, Constraint "calculate_tardiness" js (calculate_tardiness jssp ms)
             = Ok c)
  /\ (exists c, Constraint "one_machine_per_job" js
                  (one_machine_per_job jssp ms) = Ok c)
  /\ (exists c, Constraint "alpha_zero_if_not_available" (product js ms)
                  (alpha_zero_if_not_available jssp) = Ok c)
  /\ (exists c, Constraint "precedence_order" (product js js)
                  (precedence_order jssp ms) = Ok c).
Proof.
  intros Helig. cbv zeta. split; [|split; [|split]].
  - apply calculate_tardiness_generated.
  - apply Constraint_succeeds. intros j Hj. apply elem_of_range in Hj.
    right. apply one_machine_rule_ok; auto.
  - apply Constraint_succeeds.
    intros [j m] Hidx. apply elem_of_product in Hidx as [Hj _].
    apply elem_of_range in Hj. destruct (job_in_range _ _ Hj) as [job Hjob].
    rewrite (alpha_zero_if_not_available_eq _ _ _ _ Hjob).
    destruct (duration jssp j m); eauto.
  - apply Constraint_succeeds.
    intros [j1 j2] Hidx. apply elem_of_product in Hidx as [Hj1 Hj2].
    apply elem_of_range in Hj1, Hj2.
    destruct (job_in_range _ _ Hj1) as [job1 Hjob1].
    destruct (job_in_range _ _ Hj2) as [job2 Hjob2].
    rewrite (precedence_order_eq _ _ _ _ _ Hjob1 Hjob2).
    destruct (bool_decide (j2 ∈ dependencies job1)); eauto.
Qed.

(** X1.  [generate_model] returns a model exactly when every job has an
    eligible machine among the machines of the model and the setup-time
    matrix has an entry for every ordered pair of distinct jobs that
    share such a machine; nothing else about the problem (dependencies on
    unknown jobs, machine keys out of range, missing setup entries for
    pairs that share no machine) makes it fail. *)
Theorem X1_generate_model_succeeds_iff jssp :
  (exists model, generate_model jssp = Ok model)
  <-> every_job_eligible jssp /\ setups_present jssp.
Proof.
  split.
  - intros [model Hgen].
    destruct (generate_model_Ok _ _ Hgen)
      as (_ & _ & _ & _ & Hone & _ & _ & _ & Hno2).
    split.
    + intros j Hj. apply one_machine_rule_ok; [done|].
      destruct (Constraint_Ok_rule _ _ _ _ j Hone) as [Hs|Hc];
        [by apply elem_of_range| |done].
      destruct (job_in_range _ _ Hj) as [job Hjob].
      rewrite (one_machine_per_job_eq _ _ _ Hjob) in Hs.
      unfold assignment_sum in Hs.
      by destruct (omap _ _).
    + intros j1 j2 m Hj1 Hj2 Hne He1 He2.
      assert (m < machines jssp)%nat as Hm by apply He1.
      destruct (no_overlapping_cases jssp j1 j2 m Hj1 Hj2 Hm)
        as [(Hno & _)|(_ & _ & _ & _ & d1 & _ & Hr)]; [by destruct Hno|].
      destruct (Constraint_Ok_rule _ _ _ _ (j1, j2, m) Hno2) as [Hs|[c Hc]];
        [by apply product_index| |];
        rewrite Hr in *; destruct (setup jssp j1 j2); eauto; discriminate.
  - intros [Helig Hsetup]. unfold generate_model.
    destruct (first_components_generated jssp Helig)
      as ([c1 ->] & [c2 ->] & [c3 ->] & [c4 ->]). cbn.
    assert (forall idx,
              idx ∈ product (product (seq 0 (length (jobs jssp)))
                                     (seq 0 (length (jobs jssp))))
                            (seq 0 (machines jssp)) ->
              (no_overlapping_1 jssp idx = Ok Skip
               \/ exists c, no_overlapping_1 jssp idx = Ok (Rel c))
              /\ (no_overlapping_2 jssp idx = Ok Skip
                  \/ exists c, no_overlapping_2 jssp idx = Ok (Rel c)))
      as Hoverlap.
    { intros [[j1 j2] m] Hidx. apply product_index in Hidx as (Hj1 & Hj2 & Hm).
      destruct (no_overlapping_cases jssp j1 j2 m Hj1 Hj2 Hm)
        as [(_ & -> & ->)|(Hne & He1 & He2 & (d2 & _ & ->) & (d1 & _ & ->))].
      - split; by left.
      - destruct (Hsetup j1 j2 m Hj1 Hj2 Hne He1 He2) as [s12 ->].
        destruct (Hsetup j2 j1 m Hj2 Hj1 (not_eq_sym Hne) He2 He1) as [s21 ->].
        split; right; eauto. }
    destruct (Constraint_succeeds "no_overlapping_1" (no_overlapping_1 jssp)
                (product (product (seq 0 (length (jobs jssp)))
                                   (seq 0 (length (jobs jssp))))
                         (seq 0 (machines jssp)))) as [c5 ->].
    { intros idx Hidx. by destruct (Hoverlap idx Hidx). }
    destruct (Constraint_succeeds "no_overlapping_2" (no_overlapping_2 jssp)
                (product (product (seq 0 (length (jobs jssp)))
                                   (seq 0 (length (jobs jssp))))
                         (seq 0 (machines jssp)))) as [c6 ->].
    { intros idx Hidx. by destruct (Hoverlap idx Hidx). }
    cbn. eauto.
Qed.



(** ** The index sets of the components *)

Section Constraint_keys.
Context {I : Type} (name : string) (rule : I -> result rule_result).

Lemma Constraint_keys_sublist index_set cs :
  Constraint name index_set rule = Ok cs -> cs.*1 `sublist_of` index_set.
Proof.
  revert cs. induction index_set as [|i0 rest IH]; intros cs Hc; cbn in Hc.
  - injection Hc as <-. constructor.
  - destruct (rule i0) as [[|c0|b0]|e0]; cbn in Hc; try discriminate.
    + apply sublist_cons. by apply IH.
    + destruct (Constraint name rest rule) as [cs'|]; cbn in Hc;
        [|discriminate].
      injection Hc as <-. cbn. apply sublist_skip. by apply IH.
Qed.

Lemma Constraint_keys_all index_set cs :
  (forall k, k ∈ index_set -> exists c, rule k = Ok (Rel c)) ->
  Constraint name index_set rule = Ok cs -> cs.*1 = index_set.
Proof.
  revert cs. induction index_set as [|i0 rest IH]; intros cs Hall Hc;
    cbn in Hc.
  - by injection Hc as <-.
  - destruct (Hall i0) as [c0 Hc0]; [by left|]. rewrite Hc0 in Hc; cbn in Hc.
    destruct (Constraint name rest rule) as [cs'|]; cbn in Hc; [|discriminate].
    injection Hc as <-. cbn. f_equal. apply IH; [|done].
    intros k Hk. apply Hall. by right.
Qed.

Lemma Constraint_keys_elem index_set cs i :
  Constraint name index_set rule = Ok cs ->
  i ∈ cs.*1 <-> i ∈ index_set /\ exists c, rule i = Ok (Rel c).
Proof.
  intros Hc. rewrite list_elem_of_fmap. split.
  - intros ([i' c] & -> & Hin).
    apply (Constraint_Ok_elem _ _ _ _ _ _ Hc) in Hin as [Hi Hr]. eauto.
  - intros [Hi [c Hr]]. exists (i, c). split; [done|].
    by apply (Constraint_Ok_elem _ _ _ _ _ _ Hc).
Qed.
End Constraint_keys.

(** Two rules that return a relation at the same indices give the same
    index list. *)
Lemma Constraint_keys_same {I} name1 name2
    (rule1 rule2 : I -> result rule_result) index_set cs1 cs2 :
  (forall k, k ∈ index_set ->
     (exists c, rule1 k = Ok (Rel c)) <-> (exists c, rule2 k = Ok (Rel c))) ->
  Constraint name1 index_set rule1 = Ok cs1 ->
  Constraint name2 index_set rule2 = Ok cs2 ->
  cs1.*1 = cs2.*1.
Proof.
  revert cs1 cs2.
  induction index_set as [|i0 rest IH]; intros cs1 cs2 Hsame H1 H2;
    cbn in H1, H2.
  - injection H1 as <-. by injection H2 as <-.
  - assert (forall k, k ∈ rest ->
              (exists c, rule1 k = Ok (Rel c))
              <-> (exists c, rule2 k = Ok (Rel c))) as Hrest
      by (intros k Hk; apply Hsame; by right).
    specialize (Hsame i0 ltac:(by left)).
    destruct (rule1 i0) as [[|c1|b1]|e1]; cbn in H1; try discriminate;
      destruct (rule2 i0) as [[|c2|b2]|e2]; cbn in H2; try discriminate.
    + by apply IH.
    + destruct (proj2 Hsame) as [c Hc]; [eauto|discriminate].
    + destruct (proj1 Hsame) as [c Hc]; [eauto|discriminate].
    + destruct (Constraint name1 rest rule1) as [cs1'|]; cbn in H1;
        [|discriminate].
      destruct (Constraint name2 rest rule2) as [cs2'|]; cbn in H2;
        [|discriminate].
      injection H1 as <-. injection H2 as <-. cbn. f_equal. by apply IH.
Qed.

Lemma NoDup_product {A B} (a : list A) (b : list B) :
  NoDup a -> NoDup b -> NoDup (product a b).
Proof.
  intros Ha Hb. unfold product. apply NoDup_bind; [| |done].
  - intros x1 x2 [x y] _ _ H1 H2.
    apply list_elem_of_fmap in H1 as (y1 & [= -> ->] & _).
    by apply list_elem_of_fmap in H2 as (y2 & [= -> ->] & _).
  - intros x _. apply NoDup_fmap_2; [|done]. by intros y1 y2 [= ->].
Qed.

(** Two sub-lists of a duplicate-free list with the same elements are
    equal. *)
Lemma list_eq_same_elems_sublists {A} (l l1 l2 : list A) :
  NoDup l -> l1 `sublist_of` l -> l2 `sublist_of` l ->
  (forall x, x ∈ l1 <-> x ∈ l2) -> l1 = l2.
Proof.
  intros Hnd. revert l1 l2.
  induction Hnd as [|x l Hx Hnd IH]; intros l1 l2 H1 H2 Hsame.
  - apply sublist_nil_r in H1, H2. by subst.
  - assert (forall k, k `sublist_of` l -> x ∉ k) as Hfresh.
    { intros k Hk Hin. apply Hx. by eapply elem_of_sublist. }
    inversion H1 as [|y k1 ? Hk1|y k1 ? Hk1]; subst;
      inversion H2 as [|y k2 ? Hk2|y k2 ? Hk2]; subst.
    + f_equal. apply IH; [done|done|]. intros z. split; intros Hz.
      * assert (z ∈ x :: k2) as Hz' by (apply Hsame; by right).
        apply elem_of_cons in Hz' as [->|Hz']; [|done].
        by destruct (Hfresh k1 Hk1).
      * assert (z ∈ x :: k1) as Hz' by (apply Hsame; by right).
        apply elem_of_cons in Hz' as [->|Hz']; [|done].
        by destruct (Hfresh k2 Hk2).
    + destruct (Hfresh l2 Hk2). apply Hsame. by left.
    + destruct (Hfresh l1 Hk1). apply Hsame. by left.
    + by apply IH.
Qed.

(** The indices at which the mutual-exclusion components hold a
    constraint. *)
Lemma no_overlapping_keys jssp model j1 j2 m :
  generate_model jssp = Ok model ->
  ((j1, j2, m) ∈ (model_no_overlapping_1 model).*1
   <-> (j1 < length (jobs jssp))%nat /\ (j2 < length (jobs jssp))%nat
       /\ j1 <> j2 /\ eligible jssp j1 m /\ eligible jssp j2 m)
  /\ ((j1, j2, m) ∈ (model_no_overlapping_2 model).*1
      <-> (j1 < length (jobs jssp))%nat /\ (j2 < length (jobs jssp))%nat
          /\ j1 <> j2 /\ eligible jssp j1 m /\ eligible jssp j2 m).
Proof.
  intros Hgen.
  destruct (generate_model_Ok _ _ Hgen)
    as (_ & _ & _ & _ & _ & _ & _ & Hno1 & Hno2).
  rewrite (Constraint_keys_elem _ _ _ _ _ Hno1).
  rewrite (Constraint_keys_elem _ _ _ _ _ Hno2).
  rewrite product_index.
  split; (split; [intros [(Hj1 & Hj2 & Hm) [c Hc]]|
                  intros (Hj1 & Hj2 & Hne & He1 & He2)]).
  - destruct (no_overlapping_cases jssp j1 j2 m Hj1 Hj2 Hm)
      as [(_ & Hs & _)|(? & ? & ? & _)]; [congruence|done].
  - assert (m < machines jssp)%nat as Hm by apply He1.
    split; [done|].
    destruct (Constraint_Ok_rule _ _ _ _ (j1, j2, m) Hno1) as [Hs|Hc];
      [by apply product_index| |done].
    destruct (no_overlapping_cases jssp j1 j2 m Hj1 Hj2 Hm)
      as [(Hno & _)|(_ & _ & _ & (d & _ & Hr) & _)]; [by destruct Hno|].
    rewrite Hr in Hs. destruct (setup jssp j2 j1); discriminate.
  - destruct (no_overlapping_cases jssp j1 j2 m Hj1 Hj2 Hm)
      as [(_ & _ & Hs)|(? & ? & ? & _)]; [congruence|done].
  - assert (m < machines jssp)%nat as Hm by apply He1.
    split; [done|].
    destruct (Constraint_Ok_rule _ _ _ _ (j1, j2, m) Hno2) as [Hs|Hc];
      [by apply product_index| |done].
    destruct (no_overlapping_cases jssp j1 j2 m Hj1 Hj2 Hm)
      as [(Hno & _)|(_ & _ & _ & _ & (d & _ & Hr))]; [by destruct Hno|].
    rewrite Hr in Hs. destruct (setup jssp j1 j2); discriminate.
Qed.

(** X3.  In a generated model every component holds at most one
    constraint per index.  [calculate_tardiness] and
    [one_machine_per_job] hold exactly one per job, in job order.  The
    two mutual-exclusion components have the same index list, and that
    list contains [(j2, j1, m)] whenever it contains [(j1, j2, m)]: both
    orientations of a pair are generated, four inequalities per pair and
    shared machine. *)
Theorem X3_component_index_sets jssp model :
  generate_model jssp = Ok model ->
  (model_calculate_tardiness model).*1 = seq 0 (length (jobs jssp))
  /\ (model_one_machine_per_job model).*1 = seq 0 (length (jobs jssp))
  /\ (model_no_overlapping_1 model).*1 = (model_no_overlapping_2 model).*1
  /\ NoDup (model_alpha_zero_if_not_available model).*1
  /\ NoDup (model_precedence_order model).*1
  /\ NoDup (model_no_overlapping_1 model).*1
  /\ (forall j1 j2 m,
        (j1, j2, m) ∈ (model_no_overlapping_1 model).*1
        -> (j2, j1, m) ∈ (model_no_overlapping_1 model).*1).
Proof.
  intros Hgen.
  destruct (generate_model_Ok _ _ Hgen)
    as (_ & _ & _ & Htard & Hone & Hzero & Hprec & Hno1 & Hno2).
  assert (NoDup (product (product (seq 0 (length (jobs jssp)))
                                  (seq 0 (length (jobs jssp))))
                         (seq 0 (machines jssp)))) as Hnd3
    by (repeat apply NoDup_product; apply NoDup_seq).
  split; [|split; [|split; [|split; [|split; [|split]]]]].
  - eapply Constraint_keys_all; [|exact Htard].
    intros j Hj. apply in_job_range in Hj as [job Hjob].
    rewrite (calculate_tardiness_eq _ _ _ Hjob). eauto.
  - eapply Constraint_keys_all; [|exact Hone].
    intros j Hj.
    destruct (Constraint_Ok_rule _ _ _ _ j Hone Hj) as [Hs|Hc]; [|done].
    apply in_job_range in Hj as [job Hjob].
    rewrite (one_machine_per_job_eq _ _ _ Hjob) in Hs.
    unfold assignment_sum in Hs. by destruct (omap _ _).
  - apply list_eq_same_elems_sublists with
      (l := product (product (seq 0 (length (jobs jssp)))
                             (seq 0 (length (jobs jssp))))
                    (seq 0 (machines jssp))).
    + done.
    + by apply (Constraint_keys_sublist _ _ _ _ Hno1).
    + by apply (Constraint_keys_sublist _ _ _ _ Hno2).
    + intros [[j1 j2] m].
      destruct (no_overlapping_keys jssp model j1 j2 m Hgen) as [-> ->]. done.
  - eapply sublist_NoDup; [|by apply (Constraint_keys_sublist _ _ _ _ Hzero)].
    apply NoDup_product; apply NoDup_seq.
  - eapply sublist_NoDup; [|by apply (Constraint_keys_sublist _ _ _ _ Hprec)].
    apply NoDup_product; apply NoDup_seq.
  - eapply sublist_NoDup; [exact Hnd3|].
    by apply (Constraint_keys_sublist _ _ _ _ Hno1).
  - intros j1 j2 m Hin.
    apply (no_overlapping_keys jssp model j1 j2 m Hgen) in Hin
      as (Hj1 & Hj2 & Hne & He1 & He2).
    apply (no_overlapping_keys jssp model j2 j1 m Hgen). auto.
Qed.

(* ===================================================================== *)
(** * What the constraints mean at a feasible point *)
(* ===================================================================== *)

(** ** Sums of indicators *)

Lemma total_cons f m ms : total f (m :: ms) = f m + total f ms.
Proof. reflexivity. Qed.

Lemma total_nonneg f ms :
  (forall m, m ∈ ms -> 0 <= f m) -> 0 <= total f ms.
Proof.
  induction ms as [|m ms IH]; intros Hf; [cbn; lra|]. rewrite total_cons.
  assert (0 <= f m) by (apply Hf; by left).
  assert (0 <= total f ms) by (apply IH; intros k Hk; apply Hf; by right).
  lra.
Qed.

Lemma total_zero f ms :
  (forall m, m ∈ ms -> 0 <= f m) -> total f ms == 0 ->
  forall m, m ∈ ms -> f m == 0.
Proof.
  induction ms as [|m0 ms IH]; intros Hf Hsum m Hm.
  - by apply elem_of_nil in Hm.
  - rewrite total_cons in Hsum.
    assert (0 <= f m0) by (apply Hf; by left).
    assert (0 <= total f ms)
      by (apply total_nonneg; intros k Hk; apply Hf; by right).
    apply elem_of_cons in Hm as [->|Hm]; [lra|].
    apply IH; [|lra|done]. intros k Hk. apply Hf. by right.
Qed.

(** Indicators that are 0 or 1 and add up to 1: exactly one of them is 1. *)
Lemma total_one f ms :
  (forall m, m ∈ ms -> f m == 0 \/ f m == 1) -> total f ms == 1 ->
  exists m, m ∈ ms /\ f m == 1
            /\ forall m', m' ∈ ms -> m' <> m -> f m' == 0.
Proof.
  induction ms as [|m0 ms IH]; intros Hbin Hsum; [cbn in Hsum; lra|].
  rewrite total_cons in Hsum.
  assert (forall k, k ∈ ms -> f k == 0 \/ f k == 1) as Hbin'
    by (intros k Hk; apply Hbin; by right).
  destruct (Hbin m0) as [H0|H1]; [by left| |].
  - destruct IH as (m & Hm & Hone & Hothers); [done|lra|].
    exists m. split; [by right|]. split; [done|].
    intros m' Hm' Hne. apply elem_of_cons in Hm' as [->|Hm']; auto.
  - exists m0. split; [by left|]. split; [done|].
    intros m' Hm' Hne. apply elem_of_cons in Hm' as [->|Hm']; [done|].
    apply (total_zero f ms); [|lra|done].
    intros k Hk. destruct (Hbin' k Hk); lra.
Qed.

Lemma total_all_zero f ms :
  (forall m, m ∈ ms -> f m == 0) -> total f ms == 0.
Proof.
  induction ms as [|m ms IH]; intros Hz; [cbn; lra|]. rewrite total_cons.
  assert (f m == 0) by (apply Hz; by left).
  assert (total f ms == 0) by (apply IH; intros k Hk; apply Hz; by right).
  lra.
Qed.

(** A sum with a single non-zero term. *)
Lemma total_single f ms m :
  NoDup ms -> m ∈ ms -> (forall m', m' ∈ ms -> m' <> m -> f m' == 0) ->
  total f ms == f m.
Proof.
  induction ms as [|m0 ms IH]; intros Hnd Hm Hz.
  - by apply elem_of_nil in Hm.
  - apply NoDup_cons in Hnd as [Hfresh Hnd]. rewrite total_cons.
    destruct (decide (m0 = m)) as [->|Hne].
    + assert (total f ms == 0) as Hrest.
      { apply total_all_zero. intros k Hk. apply Hz; [by right|].
        intros ->. done. }
      lra.
    + apply elem_of_cons in Hm as [->|Hm]; [done|].
      assert (f m0 == 0) as H0 by (apply Hz; [by left|done]).
      assert (total f ms == f m) as Hrest.
      { apply IH; [done|done|]. intros m' Hm' Hne'.
        apply Hz; [by right|done]. }
      lra.
Qed.

Section sums_of_terms.
Variable jssp : JobShopProblem.
Variable rho : var -> Q.

Lemma eval_quicksum terms :
  eval rho (quicksum terms) = foldr (fun e acc => eval rho e + acc) 0 terms.
Proof. by destruct terms. Qed.

Lemma eval_assignment_sum j :
  eval rho (assignment_sum jssp j)
  == total (eligible_indicator jssp rho j) (seq 0 (machines jssp)).
Proof.
  unfold assignment_sum. rewrite eval_quicksum.
  induction (seq 0 (machines jssp)) as [|m ms IH]; [cbn; lra|].
  rewrite total_cons. unfold eligible_indicator at 1. cbn.
  destruct (duration jssp j m); cbn; lra.
Qed.

Lemma eval_assigned_duration j :
  eval rho (assigned_duration jssp j)
  == total (duration_share jssp rho j) (seq 0 (machines jssp)).
Proof.
  unfold assigned_duration. rewrite eval_quicksum.
  induction (seq 0 (machines jssp)) as [|m ms IH]; [cbn; lra|].
  rewrite total_cons. unfold duration_share at 1. cbn.
  destruct (duration jssp j m); cbn; lra.
Qed.
End sums_of_terms.

(** ** Feasible points of a generated model *)

Lemma component_constraints model c :
  (exists k, (k, c) ∈ model_calculate_tardiness model)
  \/ (exists k, (k, c) ∈ model_one_machine_per_job model)
  \/ (exists k, (k, c) ∈ model_alpha_zero_if_not_available model)
  \/ (exists k, (k, c) ∈ model_precedence_order model)
  \/ (exists k, (k, c) ∈ model_no_overlapping_1 model)
  \/ (exists k, (k, c) ∈ model_no_overlapping_2 model) ->
  c ∈ constraints model.
Proof.
  unfold constraints. rewrite !elem_of_app, !list_elem_of_fmap.
  intros [[k H]|[[k H]|[[k H]|[[k H]|[[k H]|[k H]]]]]];
    [left|right; left|do 2 right; left|do 3 right; left|
     do 4 right; left|do 5 right]; by exists (k, c).
Qed.

Section feasible_facts.
Variable jssp : JobShopProblem.
Variable model : ConcreteModel.
Variable rho : var -> Q.
Hypothesis Hgen : generate_model jssp = Ok model.
Hypothesis Hfeas : feasible_point model rho.

Lemma feasible_domain v : in_domain (declared_domain v) (rho v).
Proof.
  destruct (generate_model_Ok _ _ Hgen) as (_ & _ & Hdom & _).
  destruct Hfeas as [Hd _]. specialize (Hd v). by rewrite Hdom in Hd.
Qed.

Lemma feasible_binary_alpha j m :
  rho (alpha j m) == 0 \/ rho (alpha j m) == 1.
Proof. exact (feasible_domain (alpha j m)). Qed.

Lemma feasible_binary_beta j1 j2 :
  rho (beta j1 j2) == 0 \/ rho (beta j1 j2) == 1.
Proof. exact (feasible_domain (beta j1 j2)). Qed.

Lemma feasible_lockout j m :
  (j < length (jobs jssp))%nat -> (m < machines jssp)%nat ->
  duration jssp j m = None -> rho (alpha j m) == 0.
Proof.
  intros Hj Hm Hnone.
  destruct (generate_model_Ok _ _ Hgen) as (_ & _ & _ & _ & _ & Hzero & _).
  destruct (job_in_range _ _ Hj) as [job Hjob].
  pose proof (alpha_zero_if_not_available_eq jssp j m _ Hjob) as Hr.
  rewrite Hnone in Hr.
  apply (feasible_point_holds model rho (Eq (V (alpha j m)) (Num 0)) Hfeas).
  apply component_constraints. do 2 right. left. exists (j, m).
  apply (Constraint_Ok_elem _ _ _ _ _ _ Hzero). split; [|done].
  rewrite elem_of_product, !elem_of_range. done.
Qed.

Lemma feasible_assignment_sum j :
  (j < length (jobs jssp))%nat ->
  total (eligible_indicator jssp rho j) (seq 0 (machines jssp)) == 1.
Proof.
  intros Hj. rewrite <- eval_assignment_sum.
  destruct (generate_model_Ok _ _ Hgen) as (_ & _ & _ & _ & Hone & _).
  destruct (job_in_range _ _ Hj) as [job Hjob].
  apply (feasible_point_holds model rho
           (Eq (assignment_sum jssp j) (Num 1)) Hfeas).
  apply component_constraints. right. left. exists j.
  apply (Constraint_Ok_elem _ _ _ _ _ _ Hone).
  split; [by apply elem_of_range|].
  destruct (Constraint_Ok_rule _ _ _ _ j Hone) as [Hr|[c Hr]];
    [by apply elem_of_range| |];
    rewrite (one_machine_per_job_eq _ _ _ Hjob) in Hr |- *;
    unfold assignment_sum in *;
    destruct (eq_quicksum_cases
                (omap (fun m => (fun _ => V (alpha j m)) <$> duration jssp j m)
                      (seq 0 (machines jssp)))) as [[_ He]|[_ He]];
    rewrite He in *; try discriminate; reflexivity.
Qed.

(** Every job sits on exactly one machine of the model, an eligible
    one, and its linearised duration is its duration there. *)
Lemma feasible_single_assignment j :
  (j < length (jobs jssp))%nat ->
  exists m d,
    (m < machines jssp)%nat
    /\ duration jssp j m = Some d
    /\ rho (alpha j m) == 1
    /\ (forall m', (m' < machines jssp)%nat -> m' <> m ->
                   rho (alpha j m') == 0)
    /\ eval rho (assigned_duration jssp j) == d.
Proof.
  intros Hj.
  destruct (total_one (eligible_indicator jssp rho j) (seq 0 (machines jssp)))
    as (m & Hm & Hone & Hothers).
  { intros m _. unfold eligible_indicator.
    destruct (duration jssp j m); [apply feasible_binary_alpha|by left]. }
  { by apply feasible_assignment_sum. }
  apply elem_of_range in Hm. unfold eligible_indicator in Hone.
  destruct (duration jssp j m) as [d|] eqn:Hd; [|lra].
  assert (forall m', (m' < machines jssp)%nat -> m' <> m ->
                     rho (alpha j m') == 0) as Hzero.
  { intros m' Hm' Hne.
    specialize (Hothers m' ltac:(by apply elem_of_range) Hne).
    unfold eligible_indicator in Hothers.
    destruct (duration jssp j m') eqn:Hd'; [done|].
    by apply feasible_lockout. }
  exists m, d. do 4 (split; [done|]).
  rewrite eval_assigned_duration.
  rewrite (total_single _ _ m (NoDup_seq _ _)).
  - unfold duration_share. rewrite Hd, Hone. lra.
  - by apply elem_of_range.
  - intros m' Hm' Hne. apply elem_of_range in Hm'.
    unfold duration_share. destruct (duration jssp j m'); [|lra].
    rewrite (Hzero m' Hm' Hne). lra.
Qed.

(** The two big-M inequalities hold at the point. *)
Lemma feasible_big_M j1 j2 m d1 d2 :
  (j1 < length (jobs jssp))%nat -> (j2 < length (jobs jssp))%nat ->
  j1 <> j2 -> (m < machines jssp)%nat ->
  duration jssp j1 m = Some d1 -> duration jssp j2 m = Some d2 ->
  exists s12 s21,
    setup jssp j1 j2 = Some s12 /\ setup jssp j2 j1 = Some s21
    /\ holds rho (big_M_1 j1 j2 m d2 s21)
    /\ holds rho (big_M_2 j1 j2 m d1 s12).
Proof.
  intros Hj1 Hj2 Hne Hm Hd1 Hd2.
  destruct (generate_model_Ok _ _ Hgen)
    as (_ & _ & _ & _ & _ & _ & _ & Hno1 & Hno2).
  destruct (no_overlapping_cases jssp j1 j2 m Hj1 Hj2 Hm)
    as [(Hno & _)|(_ & _ & _ & (d2' & Hd2' & Hr1) & (d1' & Hd1' & Hr2))].
  { destruct Hno. unfold eligible. rewrite Hd1, Hd2. eauto. }
  assert (d1' = d1) as -> by congruence.
  assert (d2' = d2) as -> by congruence.
  destruct (Constraint_Ok_rule _ _ _ _ (j1, j2, m) Hno1) as [Hs1|[c1 Hc1]];
    [by apply product_index| |];
    rewrite Hr1 in *; destruct (setup jssp j2 j1) as [s21|]; try discriminate.
  destruct (Constraint_Ok_rule _ _ _ _ (j1, j2, m) Hno2) as [Hs2|[c2 Hc2]];
    [by apply product_index| |];
    rewrite Hr2 in *; destruct (setup jssp j1 j2) as [s12|]; try discriminate.
  exists s12, s21. split; [done|]. split; [done|]. split.
  - apply (feasible_point_holds model rho _ Hfeas), component_constraints.
    do 4 right. left. exists (j1, j2, m).
    apply (Constraint_Ok_elem _ _ _ _ _ _ Hno1). split; [|done].
    by apply product_index.
  - apply (feasible_point_holds model rho _ Hfeas), component_constraints.
    do 5 right. exists (j1, j2, m).
    apply (Constraint_Ok_elem _ _ _ _ _ _ Hno2). split; [|done].
    by apply product_index.
Qed.
End feasible_facts.

Lemma feasible_precedence jssp model rho j1 j2 :
  generate_model jssp = Ok model -> feasible_point model rho ->
  (j1 < length (jobs jssp))%nat -> (j2 < length (jobs jssp))%nat ->
  depends_on jssp j1 j2 ->
  rho (t j2) + eval rho (assigned_duration jssp j2) <= rho (t j1).
Proof.
  intros Hgen Hfeas Hj1 Hj2 (job1 & Hjob1 & Hdep).
  destruct (generate_model_Ok _ _ Hgen)
    as (_ & _ & _ & _ & _ & _ & Hprec & _).
  destruct (job_in_range _ _ Hj2) as [job2 Hjob2].
  pose proof (precedence_order_eq jssp j1 j2 _ _ Hjob1 Hjob2) as Hr.
  rewrite (bool_decide_eq_true_2 _ Hdep) in Hr.
  apply (feasible_point_holds model rho
           (Ge (V (t j1)) (Add (V (t j2)) (assigned_duration jssp j2))) Hfeas).
  apply component_constraints. do 3 right. left. exists (j1, j2).
  apply (Constraint_Ok_elem _ _ _ _ _ _ Hprec). split; [|done].
  rewrite elem_of_product, !elem_of_range. done.
Qed.

Lemma feasible_tardiness jssp model rho j job :
  generate_model jssp = Ok model -> feasible_point model rho ->
  jobs jssp !! j = Some job ->
  rho (t j) + eval rho (assigned_duration jssp j)
  - days_till_delivery job * 24 * 60 <= rho (tardiness j).
Proof.
  intros Hgen Hfeas Hjob.
  destruct (generate_model_Ok _ _ Hgen) as (_ & _ & _ & Htard & _).
  apply (feasible_point_holds model rho
           (Ge (V (tardiness j))
               (Sub (Add (V (t j)) (assigned_duration jssp j))
                    (Num (days_till_delivery job * 24 * 60)))) Hfeas).
  apply component_constraints. left. exists j.
  apply (Constraint_Ok_elem _ _ _ _ _ _ Htard). split.
  - apply elem_of_range, lookup_lt_is_Some_1. eauto.
  - by apply calculate_tardiness_eq.
Qed.

(** X4.  At every feasible point of a generated model each job is
    assigned to exactly one machine of the model: one indicator
    [alpha[j,m]] is 1, on a machine that is eligible for the job, and
    the indicators of all other machines are 0. *)
Theorem X4_feasible_single_assignment jssp model rho j :
  generate_model jssp = Ok model -> feasible_point model rho ->
  (j < length (jobs jssp))%nat ->
  exists m,
    eligible jssp j m
    /\ rho (alpha j m) == 1
    /\ forall m', (m' < machines jssp)%nat -> m' <> m ->
                  rho (alpha j m') == 0.
Proof.
  intros Hgen Hfeas Hj.
  destruct (feasible_single_assignment jssp model rho Hgen Hfeas j Hj)
    as (m & d & Hm & Hd & Hone & Hothers & _).
  exists m. split; [|done]. split; [done|]. rewrite Hd. eauto.
Qed.

(** X5.  At every feasible point of a generated model two distinct jobs
    assigned to the same machine do not overlap: one of them starts no
    earlier than the other's start plus its duration on that machine
    plus the setup time from it to the other. *)
Theorem X5_feasible_no_overlap jssp model rho j1 j2 m :
  generate_model jssp = Ok model -> feasible_point model rho ->
  (j1 < length (jobs jssp))%nat -> (j2 < length (jobs jssp))%nat ->
  j1 <> j2 -> (m < machines jssp)%nat ->
  rho (alpha j1 m) == 1 -> rho (alpha j2 m) == 1 ->
  exists d1 d2 s12 s21,
    duration jssp j1 m = Some d1 /\ duration jssp j2 m = Some d2
    /\ setup jssp j1 j2 = Some s12 /\ setup jssp j2 j1 = Some s21
    /\ (rho (t j2) + d2 + s21 <= rho (t j1)
        \/ rho (t j1) + d1 + s12 <= rho (t j2)).
Proof.
  intros Hgen Hfeas Hj1 Hj2 Hne Hm Ha1 Ha2.
  destruct (duration jssp j1 m) as [d1|] eqn:Hd1.
  2: { pose proof (feasible_lockout jssp model rho Hgen Hfeas j1 m Hj1 Hm Hd1).
       lra. }
  destruct (duration jssp j2 m) as [d2|] eqn:Hd2.
  2: { pose proof (feasible_lockout jssp model rho Hgen Hfeas j2 m Hj2 Hm Hd2).
       lra. }
  destruct (feasible_big_M jssp model rho Hgen Hfeas j1 j2 m d1 d2
              Hj1 Hj2 Hne Hm Hd1 Hd2)
    as (s12 & s21 & Hs12 & Hs21 & H1 & H2).
  exists d1, d2, s12, s21. do 4 (split; [done|]).
  unfold big_M_1, big_M_2, holds in H1, H2. cbn in H1, H2. unfold H in *.
  destruct (feasible_binary_beta jssp model rho Hgen Hfeas j1 j2) as [Hb|Hb];
    [left|right]; nra.
Qed.

(** X6.  The big-M constant is fixed: at every feasible point of a
    generated model, two distinct jobs that share an eligible machine,
    wherever they are assigned, start within [3 * H] minutes of each
    other, less the duration and setup time between them. *)
Theorem X6_big_M_horizon jssp model rho j1 j2 m d1 d2 :
  generate_model jssp = Ok model -> feasible_point model rho ->
  (j1 < length (jobs jssp))%nat -> (j2 < length (jobs jssp))%nat ->
  j1 <> j2 -> (m < machines jssp)%nat ->
  duration jssp j1 m = Some d1 -> duration jssp j2 m = Some d2 ->
  exists s12 s21,
    setup jssp j1 j2 = Some s12 /\ setup jssp j2 j1 = Some s21
    /\ rho (t j2) + d2 + s21 - 3 * H <= rho (t j1)
    /\ rho (t j1) + d1 + s12 - 3 * H <= rho (t j2).
Proof.
  intros Hgen Hfeas Hj1 Hj2 Hne Hm Hd1 Hd2.
  destruct (feasible_big_M jssp model rho Hgen Hfeas j1 j2 m d1 d2
              Hj1 Hj2 Hne Hm Hd1 Hd2)
    as (s12 & s21 & Hs12 & Hs21 & H1 & H2).
  exists s12, s21. do 2 (split; [done|]).
  unfold big_M_1, big_M_2, holds in H1, H2. cbn in H1, H2. unfold H in *.
  destruct (feasible_binary_beta jssp model rho Hgen Hfeas j1 j2) as [Hb|Hb];
    destruct (feasible_binary_alpha jssp model rho Hgen Hfeas j1 m)
      as [Ha1|Ha1];
    destruct (feasible_binary_alpha jssp model rho Hgen Hfeas j2 m)
      as [Ha2|Ha2];
    split; nra.
Qed.

(** X7.  At every feasible point of a generated model a job that
    depends on another starts no earlier than the other job's start
    plus the other job's duration on the machine it is assigned to. *)
Theorem X7_feasible_precedence jssp model rho j1 j2 :
  generate_model jssp = Ok model -> feasible_point model rho ->
  (j1 < length (jobs jssp))%nat -> (j2 < length (jobs jssp))%nat ->
  depends_on jssp j1 j2 ->
  exists m d,
    (m < machines jssp)%nat
    /\ duration jssp j2 m = Some d
    /\ rho (alpha j2 m) == 1
    /\ rho (t j2) + d <= rho (t j1).
Proof.
  intros Hgen Hfeas Hj1 Hj2 Hdep.
  destruct (feasible_single_assignment jssp model rho Hgen Hfeas j2 Hj2)
    as (m & d & Hm & Hd & Hone & _ & Hdur).
  exists m, d. do 3 (split; [done|]).
  pose proof (feasible_precedence _ _ _ _ _ Hgen Hfeas Hj1 Hj2 Hdep). lra.
Qed.

(** X8.  At every feasible point of a generated model the tardiness of
    a job is at least 0 and at least its lateness: its start plus its
    duration on the machine it is assigned to, minus its due date
    [days_till_delivery * 24 * 60]. *)
Theorem X8_feasible_tardiness jssp model rho j job :
  generate_model jssp = Ok model -> feasible_point model rho ->
  jobs jssp !! j = Some job ->
  exists m d,
    (m < machines jssp)%nat
    /\ duration jssp j m = Some d
    /\ rho (alpha j m) == 1
    /\ 0 <= rho (tardiness j)
    /\ rho (t j) + d - days_till_delivery job * 24 * 60 <= rho (tardiness j).
Proof.
  intros Hgen Hfeas Hjob.
  assert (j < length (jobs jssp))%nat as Hj
    by (apply lookup_lt_is_Some_1; eauto).
  destruct (feasible_single_assignment jssp model rho Hgen Hfeas j Hj)
    as (m & d & Hm & Hd & Hone & _ & Hdur).
  exists m, d. do 3 (split; [done|]). split.
  - exact (feasible_domain jssp model rho Hgen Hfeas (tardiness j)).
  - pose proof (feasible_tardiness _ _ _ _ _ Hgen Hfeas Hjob). lra.
Qed.

(** X9.  A job that lists itself among its dependencies makes the
    generated model infeasible as soon as all its durations are
    positive: the rule emits [t[j] >= t[j] + duration], which no point
    satisfies. *)
Theorem X9_self_dependency_infeasible jssp model rho j :
  generate_model jssp = Ok model ->
  (j < length (jobs jssp))%nat ->
  depends_on jssp j j ->
  (forall m d, duration jssp j m = Some d -> 0 < d) ->
  ~ feasible_point model rho.
Proof.
  intros Hgen Hj Hdep Hpos Hfeas.
  destruct (feasible_single_assignment jssp model rho Hgen Hfeas j Hj)
    as (m & d & Hm & Hd & Hone & _ & Hdur).
  pose proof (feasible_precedence _ _ _ _ _ Hgen Hfeas Hj Hj Hdep).
  pose proof (Hpos m d Hd). lra.
Qed.

Lemma eval_objective jssp model rho :
  generate_model jssp = Ok model ->
  eval rho (model_objective model)
  == total (fun j => rho (tardiness j)) (seq 0 (length (jobs jssp))).
Proof.
  intros Hgen. unfold generate_model in Hgen.
  destruct (Constraint "calculate_tardiness" _ _); [|discriminate].
  destruct (Constraint "one_machine_per_job" _ _); [|discriminate].
  destruct (Constraint "alpha_zero_if_not_available" _ _); [|discriminate].
  destruct (Constraint "precedence_order" _ _); [|discriminate].
  destruct (Constraint "no_overlapping_1" _ _); [|discriminate].
  destruct (Constraint "no_overlapping_2" _ _); [|discriminate].
  cbn in Hgen. injection Hgen as <-. cbn. rewrite eval_quicksum.
  induction (seq 0 (length (jobs jssp))) as [|j js IH]; [cbn; lra|].
  rewrite total_cons. cbn. lra.
Qed.

Lemma total_ge_term f ms m :
  (forall k, k ∈ ms -> 0 <= f k) -> m ∈ ms -> f m <= total f ms.
Proof.
  induction ms as [|m0 ms IH]; intros Hf Hm.
  - by apply elem_of_nil in Hm.
  - rewrite total_cons.
    assert (0 <= f m0) by (apply Hf; by left).
    assert (0 <= total f ms)
      by (apply total_nonneg; intros k Hk; apply Hf; by right).
    apply elem_of_cons in Hm as [->|Hm]; [lra|].
    assert (f m <= total f ms)
      by (apply IH; [intros k Hk; apply Hf; by right|done]).
    lra.
Qed.

(** X10.  The objective of a generated model is minimised and is the sum
    of the tardiness variables of all jobs; at a feasible point it is at
    least the lateness of every single job, and at least 0. *)
Theorem X10_objective_bounds jssp model rho j job :
  generate_model jssp = Ok model -> feasible_point model rho ->
  jobs jssp !! j = Some job ->
  model_sense model = minimize
  /\ eval rho (model_objective model)
     == total (fun k => rho (tardiness k)) (seq 0 (length (jobs jssp)))
  /\ 0 <= eval rho (model_objective model)
  /\ rho (t j) + eval rho (assigned_duration jssp j)
     - days_till_delivery job * 24 * 60
     <= eval rho (model_objective model).
Proof.
  intros Hgen Hfeas Hjob.
  assert (j < length (jobs jssp))%nat as Hj
    by (apply lookup_lt_is_Some_1; eauto).
  pose proof (eval_objective jssp model rho Hgen) as Hobj.
  assert (forall k, k ∈ seq 0 (length (jobs jssp)) -> 0 <= rho (tardiness k))
    as Hnonneg.
  { intros k _.
    exact (feasible_domain jssp model rho Hgen Hfeas (tardiness k)). }
  split.
  { unfold generate_model in Hgen.
    destruct (Constraint "calculate_tardiness" _ _); [|discriminate].
    destruct (Constraint "one_machine_per_job" _ _); [|discriminate].
    destruct (Constraint "alpha_zero_if_not_available" _ _); [|discriminate].
    destruct (Constraint "precedence_order" _ _); [|discriminate].
    destruct (Constraint "no_overlapping_1" _ _); [|discriminate].
    destruct (Constraint "no_overlapping_2" _ _); [|discriminate].
    cbn in Hgen. by injection Hgen as <-. }
  split; [done|]. split.
  - rewrite Hobj. by apply total_nonneg.
  - pose proof (feasible_tardiness _ _ _ _ _ Hgen Hfeas Hjob).
    pose proof (total_ge_term (fun k => rho (tardiness k)) _ j Hnonneg
                  ltac:(by apply elem_of_range)).
    cbn in *. lra.
Qed.

(** X11.  The precedence component of a generated model has an entry at
    [(j1, j2)] exactly when both are jobs of the problem and [j2] is a
    dependency of [j1]: a dependency on an index that is not a job is
    dropped without any error. *)
Theorem X11_precedence_index_set jssp model j1 j2 :
  generate_model jssp = Ok model ->
  (j1, j2) ∈ (model_precedence_order model).*1
  <-> (j1 < length (jobs jssp))%nat /\ (j2 < length (jobs jssp))%nat
      /\ depends_on jssp j1 j2.
Proof.
  intros Hgen.
  destruct (generate_model_Ok _ _ Hgen)
    as (_ & _ & _ & _ & _ & _ & Hprec & _).
  rewrite (Constraint_keys_elem _ _ _ _ _ Hprec).
  rewrite elem_of_product, !elem_of_range.
  split.
  - intros [[Hj1 Hj2] [c Hc]]. do 2 (split; [done|]).
    destruct (job_in_range _ _ Hj1) as [job1 Hjob1].
    destruct (job_in_range _ _ Hj2) as [job2 Hjob2].
    rewrite (precedence_order_eq _ _ _ _ _ Hjob1 Hjob2) in Hc.
    exists job1. split; [done|].
    destruct (decide (j2 ∈ dependencies job1)) as [|Hno]; [done|].
    rewrite (bool_decide_eq_false_2 _ Hno) in Hc. discriminate.
  - intros (Hj1 & Hj2 & job1 & Hjob1 & Hdep). split; [done|].
    destruct (job_in_range _ _ Hj2) as [job2 Hjob2].
    rewrite (precedence_order_eq _ _ _ _ _ Hjob1 Hjob2).
    rewrite (bool_decide_eq_true_2 _ Hdep). eauto.
Qed.

(** ** The statements above on [two_jobs] *)

Lemma two_jobs_point_domain v : in_domain (declared_domain v) (two_jobs_point v).
Proof.
  destruct v as [[|[|j]]|[|[|j]] [|m]|[|[|j1]] [|[|j2]]|[|[|j]]]; cbn;
    first [lra | left; lra | right; lra].
Qed.

Lemma two_jobs_feasible :
  exists model,
    generate_model two_jobs = Ok model /\ feasible_point model two_jobs_point.
Proof.
  destruct (generate_model two_jobs) as [model|e] eqn:Hgen;
    [|exfalso; vm_compute in Hgen; discriminate].
  exists model. split; [reflexivity|].
  vm_compute in Hgen. injection Hgen as <-. split.
  - apply two_jobs_point_domain.
  - unfold constraints. cbn.
    repeat (apply List.Forall_cons; [cbn; lra|]). apply List.Forall_nil.
Qed.

Lemma X3_witness :
  exists model,
    generate_model two_jobs = Ok model
    /\ (model_no_overlapping_1 model).*1 = (model_no_overlapping_2 model).*1
    /\ (model_no_overlapping_1 model).*1 = [(0, 1, 0); (1, 0, 0)]%nat.
Proof.
  destruct (generate_model two_jobs) as [model|e] eqn:Hgen;
    [|exfalso; vm_compute in Hgen; discriminate].
  exists model. split; [reflexivity|].
  destruct (X3_component_index_sets two_jobs model Hgen)
    as (_ & _ & Hsame & _).
  split; [exact Hsame|].
  vm_compute in Hgen. injection Hgen as <-. reflexivity.
Defined.

Lemma X4_witness :
  exists m,
    eligible two_jobs 1 m
    /\ two_jobs_point (alpha 1 m) == 1
    /\ forall m', (m' < machines two_jobs)%nat -> m' <> m ->
                  two_jobs_point (alpha 1 m') == 0.
Proof.
  destruct two_jobs_feasible as (model & Hgen & Hfeas).
  exact (X4_feasible_single_assignment two_jobs model two_jobs_point 1
           Hgen Hfeas ltac:(cbn; lia)).
Defined.

Lemma X5_witness :
  exists d1 d2 s12 s21,
    duration two_jobs 0 0 = Some d1 /\ duration two_jobs 1 0 = Some d2
    /\ setup two_jobs 0 1 = Some s12 /\ setup two_jobs 1 0 = Some s21
    /\ (two_jobs_point (t 1) + d2 + s21 <= two_jobs_point (t 0)
        \/ two_jobs_point (t 0) + d1 + s12 <= two_jobs_point (t 1)).
Proof.
  destruct two_jobs_feasible as (model & Hgen & Hfeas).
  refine (X5_feasible_no_overlap two_jobs model two_jobs_point 0 1 0
            Hgen Hfeas _ _ _ _ _ _);
    first [cbn; lia | reflexivity].
Defined.

Lemma X6_witness :
  exists s12 s21,
    setup two_jobs 0 1 = Some s12 /\ setup two_jobs 1 0 = Some s21
    /\ two_jobs_point (t 1) + 5 + s21 - 3 * H <= two_jobs_point (t 0)
    /\ two_jobs_point (t 0) + 10 + s12 - 3 * H <= two_jobs_point (t 1).
Proof.
  destruct two_jobs_feasible as (model & Hgen & Hfeas).
  refine (X6_big_M_horizon two_jobs model two_jobs_point 0 1 0 10 5
            Hgen Hfeas _ _ _ _ _ _);
    first [cbn; lia | reflexivity].
Defined.

Lemma two_jobs_dependency : depends_on two_jobs 1 0.
Proof. eexists. split; [reflexivity|]. cbn. set_solver. Qed.

Lemma X7_witness :
  exists m d,
    (m < machines two_jobs)%nat
    /\ duration two_jobs 0 m = Some d
    /\ two_jobs_point (alpha 0 m) == 1
    /\ two_jobs_point (t 0) + d <= two_jobs_point (t 1).
Proof.
  destruct two_jobs_feasible as (model & Hgen & Hfeas).
  exact (X7_feasible_precedence two_jobs model two_jobs_point 1 0
           Hgen Hfeas ltac:(cbn; lia) ltac:(cbn; lia) two_jobs_dependency).
Defined.

Lemma X8_witness :
  exists m d,
    (m < machines two_jobs)%nat
    /\ duration two_jobs 1 m = Some d
    /\ two_jobs_point (alpha 1 m) == 1
    /\ 0 <= two_jobs_point (tardiness 1)
    /\ two_jobs_point (t 1) + d - 0 * 24 * 60 <= two_jobs_point (tardiness 1).
Proof.
  destruct two_jobs_feasible as (model & Hgen & Hfeas).
  exact (X8_feasible_tardiness two_jobs model two_jobs_point 1 _
           Hgen Hfeas eq_refl).
Defined.

Lemma X9_witness :
  exists model,
    generate_model self_dependent = Ok model
    /\ ~ feasible_point model (fun _ => 0).
Proof.
  destruct (generate_model self_dependent) as [model|e] eqn:Hgen;
    [|exfalso; vm_compute in Hgen; discriminate].
  exists model. split; [reflexivity|].
  apply (X9_self_dependency_infeasible self_dependent model (fun _ => 0) 0 Hgen).
  - cbn. lia.
  - eexists. split; [reflexivity|]. cbn. set_solver.
  - intros m d Hd. unfold duration in Hd. cbn in Hd.
    apply lookup_singleton_Some in Hd as [_ <-]. reflexivity.
Defined.

Lemma X10_witness :
  exists model,
    generate_model two_jobs = Ok model
    /\ model_sense model = minimize
    /\ 0 <= eval two_jobs_point (model_objective model)
    /\ two_jobs_point (t 1) + eval two_jobs_point (assigned_duration two_jobs 1)
       - 0 * 24 * 60 <= eval two_jobs_point (model_objective model).
Proof.
  destruct two_jobs_feasible as (model & Hgen & Hfeas).
  exists model. split; [exact Hgen|].
  destruct (X10_objective_bounds two_jobs model two_jobs_point 1 _
              Hgen Hfeas eq_refl) as (Hsense & _ & Hpos & Hlate).
  split; [exact Hsense|]. split; [exact Hpos|exact Hlate].
Defined.

Lemma X11_witness :
  exists model,
    generate_model stray_dependency = Ok model
    /\ (1, 0)%nat ∈ (model_precedence_order model).*1
    /\ (1, 7)%nat ∉ (model_precedence_order model).*1.
Proof.
  destruct (generate_model stray_dependency) as [model|e] eqn:Hgen;
    [|exfalso; vm_compute in Hgen; discriminate].
  exists model. split; [reflexivity|]. split.
  - apply (X11_precedence_index_set stray_dependency model 1 0 Hgen).
    split; [cbn; lia|]. split; [cbn; lia|].
    eexists. split; [reflexivity|]. cbn. set_solver.
  - intros Hin.
    apply (X11_precedence_index_set stray_dependency model 1 7 Hgen) in Hin
      as (_ & Hlt & _).
    cbn in Hlt. lia.
Defined.

(* ===================================================================== *)
(** * Further properties of the extraction *)
(* ===================================================================== *)

Lemma row_of_lookup model order m k z :
  row_of model order m !! k = Some z ->
  (exists j, z = Z.of_nat j /\ placed model order m !! k = Some j)
  \/ (z = (-2)%Z /\ (length (placed model order m) <= k)%nat).
Proof.
  unfold row_of. rewrite lookup_app_Some, list_lookup_fmap_Some, length_fmap.
  intros [(j & -> & Hj)|[Hk Hrep]]; [left; eauto|right].
  apply lookup_replicate in Hrep as [-> _]. done.
Qed.

Lemma placed_elem model order m j :
  j ∈ placed model order m <-> j ∈ order /\ assigned_machine model j = Some m.
Proof. unfold placed. rewrite list_elem_of_filter. tauto. Qed.

(** X12.  On a solved model the array returned by [get_schedule] has one
    row per machine and one slot per job.  Every slot holds -2 or the
    index of a job of the model whose indicator on that machine is 1
    (never -1, never any other number), and the slots holding -2 are the
    last ones of the row. *)
Theorem X12_array_shape model n_jobs n_machines :
  solved model n_jobs n_machines ->
  exists out a,
    get_schedule model = Ok (out, a)
    /\ length a = n_machines
    /\ forall m row,
         a !! m = Some row ->
         length row = n_jobs
         /\ (forall k z,
               row !! k = Some z ->
               z = (-2)%Z
               \/ exists j, z = Z.of_nat j /\ (j < n_jobs)%nat
                            /\ alpha_is_1 model j m = true)
         /\ (forall k k',
               (k <= k')%nat -> (k' < n_jobs)%nat ->
               row !! k = Some (-2)%Z -> row !! k' = Some (-2)%Z).
Proof.
  intros Hsolved.
  destruct (get_schedule_spec _ _ _ Hsolved)
    as (order & a & _ & Hperm & _ & Hget & Hlen & Hrows).
  destruct Hsolved as (Hjobs & Hms & _).
  exists (diagnostics model order), a. do 2 (split; [done|]).
  intros m row Hrow.
  assert (m < n_machines)%nat as Hm
    by (rewrite <- Hlen; by apply lookup_lt_Some in Hrow).
  rewrite (Hrows m Hm) in Hrow. injection Hrow as <-.
  assert (length order = n_jobs) as Hlo by (by rewrite Hperm, length_seq).
  assert (length (row_of model order m) = n_jobs) as Hlr.
  { rewrite row_of_length; rewrite Hjobs, length_seq; [done|lia]. }
  split; [done|]. split.
  - intros k z Hk.
    apply row_of_lookup in Hk as [(j & -> & Hj)|[-> _]]; [right|by left].
    apply list_elem_of_lookup_2, placed_elem in Hj as [Hin Hassigned].
    exists j. split; [done|]. split.
    + rewrite Hperm in Hin. by apply elem_of_range in Hin.
    + by destruct (assigned_machine_first _ _ _ _ Hms Hassigned) as (_ & ? & _).
  - intros k k' Hle Hk' Hk.
    apply row_of_lookup in Hk as [(j & Hj & _)|[_ Hfill]]; [lia|].
    unfold row_of. apply lookup_app_Some. right.
    rewrite length_fmap. split; [lia|].
    apply lookup_replicate. split; [done|].
    rewrite Hjobs, length_seq. lia.
Qed.

Lemma X12_witness :
  exists out a,
    get_schedule (bare_model 4 2 tie_values) = Ok (out, a)
    /\ length a = 2%nat
    /\ forall m row, a !! m = Some row -> length row = 4%nat.
Proof.
  assert (solved (bare_model 4 2 tie_values) 4 2) as Hsolved.
  { split; [reflexivity|]. split; [reflexivity|]. intros j Hj.
    do 4 (destruct j as [|j]; [eexists; reflexivity|]). lia. }
  destruct (X12_array_shape (bare_model 4 2 tie_values) 4 2 Hsolved)
    as (out & a & Hget & Hlen & Hrows).
  exists out, a. split; [exact Hget|]. split; [exact Hlen|].
  intros m row Hrow. exact (proj1 (Hrows m row Hrow)).
Defined.

(** X13.  On a solved model no job is extracted twice: a job index
    occurs in at most one slot of the whole array, and it occurs at all
    exactly when some machine of the model has indicator 1 for it. *)
Theorem X13_each_job_at_most_once model n_jobs n_machines j :
  solved model n_jobs n_machines ->
  exists out a,
    get_schedule model = Ok (out, a)
    /\ (forall m m' k k' row row',
          a !! m = Some row -> row !! k = Some (Z.of_nat j) ->
          a !! m' = Some row' -> row' !! k' = Some (Z.of_nat j) ->
          m = m' /\ k = k')
    /\ ((exists m k row, a !! m = Some row /\ row !! k = Some (Z.of_nat j))
        <-> (j < n_jobs)%nat
            /\ exists m, (m < n_machines)%nat /\ alpha_is_1 model j m = true).
Proof.
  intros Hsolved.
  destruct (get_schedule_spec _ _ _ Hsolved)
    as (order & a & _ & Hperm & _ & Hget & Hlen & Hrows).
  destruct Hsolved as (Hjobs & Hms & _).
  assert (forall m row k,
            a !! m = Some row -> row !! k = Some (Z.of_nat j) ->
            (m < n_machines)%nat /\ placed model order m !! k = Some j)
    as Hslot.
  { intros m row k Hrow Hk.
    assert (m < n_machines)%nat as Hm
      by (rewrite <- Hlen; by apply lookup_lt_Some in Hrow).
    rewrite (Hrows m Hm) in Hrow. injection Hrow as <-. split; [done|].
    apply row_of_lookup in Hk as [(j' & Heq & Hj')|[Heq _]]; [|lia].
    apply Nat2Z.inj in Heq. by subst j'. }
  exists (diagnostics model order), a. split; [done|]. split.
  - intros m m' k k' row row' Hrow Hk Hrow' Hk'.
    destruct (Hslot _ _ _ Hrow Hk) as [_ Hp].
    destruct (Hslot _ _ _ Hrow' Hk') as [_ Hp'].
    assert (m = m') as <-.
    { apply list_elem_of_lookup_2, placed_elem in Hp as [_ H1].
      apply list_elem_of_lookup_2, placed_elem in Hp' as [_ H2]. congruence. }
    split; [done|].
    apply (NoDup_lookup (placed model order m) k k' j); [|done|done].
    apply NoDup_filter. rewrite Hperm. apply NoDup_seq.
  - split.
    + intros (m & k & row & Hrow & Hk).
      destruct (Hslot _ _ _ Hrow Hk) as [Hm Hp].
      apply list_elem_of_lookup_2, placed_elem in Hp as [Hin Hassigned].
      split; [rewrite Hperm in Hin; by apply elem_of_range in Hin|].
      exists m. split; [done|].
      by destruct (assigned_machine_first _ _ _ _ Hms Hassigned) as (_ & ? & _).
    + intros (Hj & m1 & Hm1 & Hone).
      destruct (assigned_machine model j) as [m|] eqn:Hassigned.
      2: { rewrite (assigned_machine_None _ _ _ Hms) in Hassigned.
           rewrite (Hassigned m1 Hm1) in Hone. discriminate. }
      destruct (assigned_machine_first _ _ _ _ Hms Hassigned) as (Hm & _ & _).
      assert (j ∈ placed model order m) as Hin.
      { apply placed_elem. split; [|done]. rewrite Hperm.
        by apply elem_of_range. }
      apply list_elem_of_lookup_1 in Hin as [k Hk].
      exists m, k, (row_of model order m). split; [by apply Hrows|].
      unfold row_of. apply lookup_app_Some. left.
      apply list_lookup_fmap_Some. eauto.
Qed.

Lemma X13_witness :
  exists out a,
    get_schedule (bare_model 3 2 odd_values) = Ok (out, a)
    /\ a = [[0; -2; -2]; [2; -2; -2]]%Z
    /\ (forall m m' k k' row row',
          a !! m = Some row -> row !! k = Some 0%Z ->
          a !! m' = Some row' -> row' !! k' = Some 0%Z ->
          m = m' /\ k = k').
Proof.
  destruct (X13_each_job_at_most_once (bare_model 3 2 odd_values) 3 2 0
              odd_model_solved) as (out & a & Hget & Honce & _).
  exists out, a. split; [exact Hget|]. split; [|exact Honce].
  vm_compute in Hget. by injection Hget as <- <-.
Defined.

Lemma diagnostics_replicate model order :
  diagnostics model order
  = replicate (sum_list (extra_machines model <$> order)) multiple_machines.
Proof.
  unfold diagnostics. induction order as [|j order IH]; [done|].
  cbn. rewrite IH. by rewrite replicate_add.
Qed.

Lemma sum_list_Permutation (l k : list nat) :
  l ≡ₚ k -> sum_list l = sum_list k.
Proof. induction 1; cbn; lia. Qed.

(** X14.  On a solved model [get_schedule] prints the diagnostic once
    for every machine with indicator 1 beyond the first one, over all
    jobs, and prints nothing else; so it prints nothing exactly when no
    job has indicator 1 on two machines. *)
Theorem X14_diagnostics_count model n_jobs n_machines :
  solved model n_jobs n_machines ->
  exists a,
    get_schedule model
    = Ok (replicate (sum_list (extra_machines model <$> seq 0 n_jobs))
                    multiple_machines, a)
    /\ (sum_list (extra_machines model <$> seq 0 n_jobs) = 0%nat
        <-> forall j m1 m2,
              (j < n_jobs)%nat ->
              (m1 < n_machines)%nat -> (m2 < n_machines)%nat ->
              alpha_is_1 model j m1 = true -> alpha_is_1 model j m2 = true ->
              m1 = m2).
Proof.
  intros Hsolved.
  destruct (get_schedule_spec _ _ _ Hsolved)
    as (order & a & _ & Hperm & _ & Hget & _ & _).
  destruct Hsolved as (Hjobs & Hms & _).
  exists a. split.
  - rewrite Hget, diagnostics_replicate.
    by rewrite (sum_list_Permutation _ _ (fmap_Permutation _ _ _ Hperm)).
  - split.
    + intros Hzero j m1 m2 Hj Hm1 Hm2 H1 H2.
      destruct (decide (m1 = m2)) as [|Hne]; [done|exfalso].
      assert (extra_machines model j = 0%nat) as Hextra.
      { assert (extra_machines model j ∈ extra_machines model <$> seq 0 n_jobs)
          as Hin by (apply list_elem_of_fmap_2; by apply elem_of_range).
        revert Hzero Hin. generalize (extra_machines model <$> seq 0 n_jobs).
        intros l. induction l as [|x l IH]; intros Hsum Hin.
        - by apply elem_of_nil in Hin.
        - cbn in Hsum. apply elem_of_cons in Hin as [->|Hin]; [lia|].
          apply IH; [lia|done]. }
      unfold extra_machines in Hextra.
      pose proof (two_matches_filter (alpha_is_1 model j)
                    (model_machines model) m1 m2 Hne) as Htwo.
      rewrite Hms, !elem_of_range in Htwo.
      specialize (Htwo Hm1 Hm2 H1 H2). rewrite Hms in Hextra. lia.
    + intros Huniq.
      assert (forall j, j ∈ seq 0 n_jobs -> extra_machines model j = 0%nat)
        as Hall.
      { intros j Hj. apply elem_of_range in Hj. unfold extra_machines.
        rewrite Hms.
        assert (forall ms, NoDup ms ->
                  (forall m, m ∈ ms -> (m < n_machines)%nat) ->
                  (length (List.filter (alpha_is_1 model j) ms) <= 1)%nat)
          as Hcount.
        { intros ms. induction ms as [|m ms IH]; intros Hnd Hin; cbn; [lia|].
          apply NoDup_cons in Hnd as [Hfresh Hnd].
          destruct (alpha_is_1 model j m) eqn:Hone.
          - cbn.
            assert (List.filter (alpha_is_1 model j) ms = []) as ->; [|cbn; lia].
            apply elem_of_nil_inv. intros m' Hm'.
            apply list_elem_of_In, filter_In in Hm' as [Hm' Hone'].
            apply list_elem_of_In in Hm'.
            assert (m = m') as <-; [|done].
            apply (Huniq j m m' Hj);
              [apply Hin; by left|apply Hin; by right|done|done].
          - apply IH; [done|]. intros m' Hm'. apply Hin. by right. }
        specialize (Hcount (seq 0 n_machines) (NoDup_seq _ _)).
        assert (length (List.filter (alpha_is_1 model j) (seq 0 n_machines))
                <= 1)%nat
          by (apply Hcount; intros m Hm; by apply elem_of_range in Hm).
        lia. }
      revert Hall. generalize (seq 0 n_jobs). intros l.
      induction l as [|x l IH]; intros Hall; [done|]. cbn.
      rewrite (Hall x) by (by left). rewrite IH; [done|].
      intros j Hj. apply Hall. by right.
Qed.

Lemma X14_witness :
  exists a,
    get_schedule (bare_model 3 2 odd_values)
    = Ok ([multiple_machines], a).
Proof.
  destruct (X14_diagnostics_count (bare_model 3 2 odd_values) 3 2
              odd_model_solved) as (a & Hget & _).
  exists a. exact Hget.
Defined.

(** ** Sorting keys without a value *)

Section sorted_errors.
Variable key : nat -> option Q.

Lemma insert_sorted_ok x s :
  is_Some (key x) -> Forall (fun y => is_Some (key y)) s ->
  exists s', insert_sorted key x s = Ok s' /\ s' ≡ₚ x :: s.
Proof.
  intros [kx Hkx]. induction s as [|y l IH]; intros Hsome; cbn; [eauto|].
  apply Forall_cons in Hsome as [[ky Hky] Hsome].
  rewrite Hky, Hkx; cbn.
  destruct (negb (Qle_bool kx ky)); [|eauto].
  destruct (IH Hsome) as (r & -> & Hperm). cbn.
  exists (y :: r). split; [done|]. rewrite Hperm. apply perm_swap.
Qed.

Lemma sorted_ok l :
  Forall (fun y => is_Some (key y)) l ->
  exists s, sorted key l = Ok s /\ s ≡ₚ l.
Proof.
  induction l as [|x rest IH]; intros Hsome; cbn; [eauto|].
  apply Forall_cons in Hsome as [Hx Hsome].
  destruct (IH Hsome) as (s & -> & Hperm). cbn.
  destruct (insert_sorted_ok x s Hx) as (s' & -> & Hperm').
  { by rewrite Hperm. }
  exists s'. split; [done|]. by rewrite Hperm', Hperm.
Qed.

Lemma insert_sorted_head_None x y s :
  key x = None \/ key y = None ->
  insert_sorted key x (y :: s) = Raise TypeError.
Proof.
  intros Hnone. cbn. unfold py_lt.
  destruct Hnone as [-> | ->]; [by destruct (key y)|done].
Qed.

(** With two keys or more, one key without a value makes the sort
    raise. *)
Lemma sorted_raises l :
  (2 <= length l)%nat -> ~ Forall (fun y => is_Some (key y)) l ->
  sorted key l = Raise TypeError.
Proof.
  induction l as [|x rest IH]; intros Hlen Hnone; cbn in Hlen; [lia|].
  cbn [sorted].
  destruct (decide (Forall (fun y => is_Some (key y)) rest)) as [Hrest|Hrest].
  - destruct (sorted_ok rest Hrest) as (s & -> & Hperm). cbn.
    destruct s as [|y s].
    { apply Permutation_length in Hperm. cbn in Hperm. lia. }
    apply insert_sorted_head_None. left.
    destruct (key x) eqn:Hx; [|done].
    destruct Hnone. apply Forall_cons. eauto.
  - destruct rest as [|z [|z' rest']].
    + cbn in Hlen. lia.
    + change (insert_sorted key x [z] = Raise TypeError).
      apply insert_sorted_head_None. right.
      destruct (key z) eqn:Hz; [|done].
      destruct Hrest. apply Forall_cons. split; [eauto|constructor].
    + rewrite IH; [done|cbn; lia|done].
Qed.
End sorted_errors.

(** X15.  On a model with two jobs or more in which some start time has
    no value (the model was not solved), [get_schedule] raises TypeError
    while sorting, before any slot is written. *)
Theorem X15_unsolved_model_raises model n_jobs j :
  model_jobs model = seq 0 n_jobs ->
  (2 <= n_jobs)%nat -> (j < n_jobs)%nat ->
  value model (t j) = None ->
  get_schedule model = Raise TypeError
  /\ sorted (fun k => value model (t k)) (model_jobs model) = Raise TypeError.
Proof.
  intros Hjobs Hn Hj Hnone.
  assert (sorted (fun k => value model (t k)) (model_jobs model)
          = Raise TypeError) as Hsort.
  { apply sorted_raises.
    - by rewrite Hjobs, length_seq.
    - intros Hall.
      assert (is_Some (value model (t j))) as [v Hv].
      { apply (proj1 (Forall_forall _ _) Hall). rewrite Hjobs.
        by apply elem_of_range. }
      congruence. }
  split; [|done]. unfold get_schedule. by rewrite Hsort.
Qed.

Lemma X15_witness :
  get_schedule (bare_model 3 2 gap_values) = Raise TypeError.
Proof.
  refine (proj1 (X15_unsolved_model_raises (bare_model 3 2 gap_values) 3 1
                   eq_refl _ _ eq_refl)); lia.
Defined.

(** X16.  [get_schedule] cannot be called on a model that
    [generate_model] has just returned: only [alpha] is initialised, the
    start times have no value, and with two jobs or more the call raises
    TypeError. *)
Theorem X16_extraction_needs_solve jssp model :
  generate_model jssp = Ok model ->
  (2 <= length (jobs jssp))%nat ->
  (forall j, value model (t j) = None)
  /\ get_schedule model = Raise TypeError.
Proof.
  intros Hgen Hn.
  destruct (generate_model_Ok _ _ Hgen) as (Hjobs & _).
  assert (forall j, value model (t j) = None) as Hnone.
  { unfold generate_model in Hgen.
    destruct (Constraint "calculate_tardiness" _ _); [|discriminate].
    destruct (Constraint "one_machine_per_job" _ _); [|discriminate].
    destruct (Constraint "alpha_zero_if_not_available" _ _); [|discriminate].
    destruct (Constraint "precedence_order" _ _); [|discriminate].
    destruct (Constraint "no_overlapping_1" _ _); [|discriminate].
    destruct (Constraint "no_overlapping_2" _ _); [|discriminate].
    cbn in Hgen. by injection Hgen as <-. }
  split; [done|].
  assert (sorted (fun k => value model (t k)) (model_jobs model)
          = Raise TypeError) as Hsort.
  { apply sorted_raises.
    - by rewrite Hjobs, length_seq.
    - intros Hall.
      assert (is_Some (value model (t 0))) as [v Hv].
      { apply (proj1 (Forall_forall _ _) Hall). rewrite Hjobs.
        apply elem_of_range. lia. }
      rewrite Hnone in Hv. discriminate. }
  unfold get_schedule. by rewrite Hsort.
Qed.

Lemma X16_witness :
  exists model,
    generate_model two_jobs = Ok model
    /\ get_schedule model = Raise TypeError.
Proof.
  destruct (generate_model two_jobs) as [model|e] eqn:Hgen;
    [|exfalso; vm_compute in Hgen; discriminate].
  exists model. split; [reflexivity|].
  exact (proj2 (X16_extraction_needs_solve two_jobs model Hgen
                  ltac:(cbn; lia))).
Defined.

(* ===================================================================== *)
(** * Further properties of the validation *)
(* ===================================================================== *)

Lemma verdict_app model l1 l2 :
  verdict model (l1 ++ l2)
  = match verdict model l1 with
    | Ok true => verdict model l2
    | r => r
    end.
Proof.
  induction l1 as [|[job_idx start_time] l1 IH]; cbn; [done|].
  destruct (bool_decide (job_idx = (-1)%Z \/ job_idx = (-2)%Z)); [done|].
  destruct (t_value model job_idx) as [v|e]; [|done].
  by destruct (py_ne v start_time).
Qed.

Lemma validate_jobs_verdict model machine js :
  snd (validate_jobs model machine js)
  = verdict model ((fun entry => (entry.1.1, entry.1.2)) <$> js).
Proof.
  induction js as [|[[job_idx start_time] end_time] js IH]; cbn; [done|].
  destruct (bool_decide (job_idx = (-1)%Z \/ job_idx = (-2)%Z)); [done|].
  destruct (t_value model job_idx) as [v|e]; [|done].
  by destruct (py_ne v start_time).
Qed.

Lemma validate_schedule_verdict model schedule :
  snd (validate_schedule model schedule)
  = verdict model (recorded_starts schedule).
Proof.
  unfold recorded_starts.
  induction schedule as [|[machine js] rest IH]; cbn; [done|].
  rewrite verdict_app, <- (validate_jobs_verdict model machine js), <- IH.
  by destruct (validate_jobs model machine js) as [out [[|]|e]].
Qed.

(** X17.  The verdict of [validate_schedule] depends only on the
    sequence of (job index, start time) pairs of the schedule: end times
    are never read, and neither is the machine under which an entry is
    filed. *)
Theorem X17_validation_reads_starts_only model schedule1 schedule2 :
  recorded_starts schedule1 = recorded_starts schedule2 ->
  snd (validate_schedule model schedule1)
  = snd (validate_schedule model schedule2).
Proof. intros Hsame. by rewrite !validate_schedule_verdict, Hsame. Qed.

Lemma X17_witness :
  snd (validate_schedule (bare_model 4 2 tie_values)
         [(0%nat, [(0%Z, 5, 9); (2%Z, 5, 12)]); (1%nat, [(1%Z, 0, 1)])])
  = snd (validate_schedule (bare_model 4 2 tie_values)
           [(1%nat, [(0%Z, 5, 0)]); (0%nat, [(2%Z, 5, 1); (1%Z, 0, -3)])]).
Proof.
  apply X17_validation_reads_starts_only. reflexivity.
Defined.

Lemma verdict_raises model pairs e :
  verdict model pairs = Raise e ->
  e = KeyError
  /\ exists job_idx start_time,
       (job_idx, start_time) ∈ pairs
       /\ job_idx <> (-1)%Z /\ job_idx <> (-2)%Z
       /\ ((job_idx < 0)%Z \/ Z.to_nat job_idx ∉ model_jobs model).
Proof.
  induction pairs as [|[job_idx start_time] rest IH]; cbn; [discriminate|].
  destruct (decide (job_idx = (-1)%Z \/ job_idx = (-2)%Z)) as [Hs|Hs].
  { rewrite bool_decide_eq_true_2 by done. intros Hr.
    destruct (IH Hr) as (-> & i & s & Hin & Hrest).
    split; [done|]. exists i, s. split; [by right|done]. }
  rewrite bool_decide_eq_false_2 by done.
  unfold t_value.
  destruct (decide (0 <= job_idx)%Z) as [Hpos|Hneg].
  - rewrite (bool_decide_eq_true_2 _ Hpos); cbn.
    destruct (decide (Z.to_nat job_idx ∈ model_jobs model)) as [Hin|Hout].
    + rewrite (bool_decide_eq_true_2 _ Hin).
      destruct (py_ne _ start_time); [discriminate|]. intros Hr.
      destruct (IH Hr) as (-> & i & s & Hin' & Hrest).
      split; [done|]. exists i, s. split; [by right|done].
    + rewrite (bool_decide_eq_false_2 _ Hout). intros [= <-].
      split; [done|]. exists job_idx, start_time.
      split; [by left|]. split; [tauto|]. split; [tauto|]. by right.
  - rewrite (bool_decide_eq_false_2 _ Hneg); cbn. intros [= <-].
    split; [done|]. exists job_idx, start_time.
    split; [by left|]. split; [tauto|]. split; [tauto|]. left. lia.
Qed.

Lemma recorded_starts_elem schedule job_idx start_time :
  (job_idx, start_time) ∈ recorded_starts schedule ->
  exists machine js end_time,
    (machine, js) ∈ schedule /\ (job_idx, start_time, end_time) ∈ js.
Proof.
  unfold recorded_starts. intros Hin.
  apply list_elem_of_bind in Hin as ([machine js] & Hin & Hitem).
  apply list_elem_of_fmap in Hin as ([[i s] e] & [= -> ->] & Hentry).
  exists machine, js, e. done.
Qed.

(** X18.  The only exception [validate_schedule] raises is KeyError, and
    it raises it only for an entry that is not a sentinel and whose job
    index is not a job of the model (negative, or not in [model.jobs]);
    a schedule whose non-sentinel entries all name jobs of the model
    always gets a verdict. *)
Theorem X18_validation_raises_only_KeyError model schedule :
  (forall e,
     snd (validate_schedule model schedule) = Raise e ->
     e = KeyError
     /\ exists machine js job_idx start_time end_time,
          (machine, js) ∈ schedule
          /\ (job_idx, start_time, end_time) ∈ js
          /\ job_idx <> (-1)%Z /\ job_idx <> (-2)%Z
          /\ ((job_idx < 0)%Z \/ Z.to_nat job_idx ∉ model_jobs model))
  /\ ((forall machine js job_idx start_time end_time,
         (machine, js) ∈ schedule ->
         (job_idx, start_time, end_time) ∈ js ->
         job_idx = (-1)%Z \/ job_idx = (-2)%Z
         \/ ((0 <= job_idx)%Z /\ Z.to_nat job_idx ∈ model_jobs model)) ->
      exists b, snd (validate_schedule model schedule) = Ok b).
Proof.
  split.
  - intros e Hr. rewrite validate_schedule_verdict in Hr.
    destruct (verdict_raises _ _ _ Hr) as (-> & i & s & Hin & Hn1 & Hn2 & Hbad).
    split; [done|].
    destruct (recorded_starts_elem _ _ _ Hin) as (machine & js & en & H1 & H2).
    exists machine, js, i, s, en. done.
  - intros Hknown.
    destruct (snd (validate_schedule model schedule)) as [b|e] eqn:Hr;
      [eauto|exfalso].
    rewrite validate_schedule_verdict in Hr.
    destruct (verdict_raises _ _ _ Hr) as (_ & i & s & Hin & Hn1 & Hn2 & Hbad).
    destruct (recorded_starts_elem _ _ _ Hin) as (machine & js & en & H1 & H2).
    destruct (Hknown machine js i s en H1 H2) as [?|[?|[Hpos Hjob]]];
      [done|done|].
    destruct Hbad as [Hneg|Hout]; [lia|done].
Qed.

Lemma X18_witness :
  exists b,
    snd (validate_schedule (bare_model 4 2 tie_values)
           [(0%nat, [(0%Z, 5, 9); ((-1)%Z, 0, 0)]); (1%nat, [(3%Z, 7, 8)])])
    = Ok b.
Proof.
  apply (proj2 (X18_validation_raises_only_KeyError _ _)).
  intros machine js job_idx start_time end_time Hitem Hentry.
  repeat (apply elem_of_cons in Hitem as [[= -> ->]|Hitem]);
    [| |by apply elem_of_nil in Hitem];
    repeat (apply elem_of_cons in Hentry as [[= -> -> ->]|Hentry]);
    try (by apply elem_of_nil in Hentry);
    first [ left; reflexivity
          | right; right; split; [lia|]; vm_compute;
            repeat first [apply list_elem_of_here | apply list_elem_of_further] ].
Defined.

(* ===================================================================== *)
(** * From a feasible point to the extracted schedule *)
(* ===================================================================== *)

Lemma filter_none (f : nat -> bool) ms :
  (forall m, m ∈ ms -> f m = false) -> List.filter f ms = [].
Proof.
  induction ms as [|m ms IH]; intros Hf; cbn; [done|].
  rewrite (Hf m) by (by left). apply IH. intros k Hk. apply Hf. by right.
Qed.

(** A predicate true at a single element of a duplicate-free list. *)
Lemma filter_unique (f : nat -> bool) ms m :
  NoDup ms -> m ∈ ms -> f m = true ->
  (forall m', m' ∈ ms -> m' <> m -> f m' = false) ->
  List.filter f ms = [m] /\ List.find f ms = Some m.
Proof.
  induction ms as [|m0 ms IH]; intros Hnd Hm Hone Hothers.
  - by apply elem_of_nil in Hm.
  - apply NoDup_cons in Hnd as [Hfresh Hnd]. cbn.
    destruct (decide (m0 = m)) as [->|Hne].
    + rewrite Hone. split; [|done]. f_equal. apply filter_none.
      intros k Hk. apply Hothers; [by right|]. intros ->. done.
    + rewrite (Hothers m0) by (by left || done).
      apply elem_of_cons in Hm as [->|Hm]; [done|].
      apply IH; [done|done|done|]. intros k Hk. apply Hothers. by right.
Qed.

Lemma StronglySorted_lookup_lt {A} (R : A -> A -> Prop) l k k' x y :
  StronglySorted R l -> l !! k = Some x -> l !! k' = Some y ->
  (k < k')%nat -> R x y.
Proof.
  intros Hs. revert k k'.
  induction Hs as [|z l Hs IH Hz]; intros k k' Hk Hk' Hlt.
  - by rewrite lookup_nil in Hk.
  - destruct k' as [|k']; [lia|]. cbn in Hk'. destruct k as [|k].
    + cbn in Hk. injection Hk as ->.
      apply (proj1 (Forall_forall _ _) Hz). by eapply list_elem_of_lookup_2.
    + cbn in Hk. apply (IH k k'); [done|done|lia].
Qed.

Lemma sum_list_zero {A} (f : A -> nat) (l : list A) :
  (forall x, x ∈ l -> f x = 0%nat) -> sum_list (f <$> l) = 0%nat.
Proof.
  induction l as [|x l IH]; intros Hz; [done|]. cbn.
  rewrite (Hz x) by (by left). rewrite IH; [done|].
  intros y Hy. apply Hz. by right.
Qed.

Section feasible_extraction.
Variable jssp : JobShopProblem.
Variable model : ConcreteModel.
Variable rho : var -> Q.
Hypothesis Hgen : generate_model jssp = Ok model.
Hypothesis Hfeas : feasible_point model rho.

Local Abbreviation loaded := (load_point rho model).

Lemma loaded_solved :
  solved loaded (length (jobs jssp)) (machines jssp).
Proof. apply generated_model_solved; [done|]. intros j _. eauto. Qed.

Lemma loaded_alpha_is_1 j m :
  alpha_is_1 loaded j m = true <-> rho (alpha j m) == 1.
Proof. unfold alpha_is_1, load_point. cbn. apply Qeq_bool_iff. Qed.

Lemma loaded_assigned_machine j :
  (j < length (jobs jssp))%nat ->
  exists m d,
    (m < machines jssp)%nat
    /\ duration jssp j m = Some d
    /\ rho (alpha j m) == 1
    /\ assigned_machine loaded j = Some m
    /\ extra_machines loaded j = 0%nat.
Proof.
  intros Hj.
  destruct (feasible_single_assignment jssp model rho Hgen Hfeas j Hj)
    as (m & d & Hm & Hd & Hone & Hothers & _).
  destruct loaded_solved as (_ & Hms & _).
  destruct (filter_unique (alpha_is_1 loaded j) (seq 0 (machines jssp)) m)
    as [Hfilter Hfind].
  - apply NoDup_seq.
  - by apply elem_of_range.
  - by apply loaded_alpha_is_1.
  - intros m' Hm' Hne. apply elem_of_range in Hm'.
    destruct (alpha_is_1 loaded j m') eqn:H1; [|done].
    apply loaded_alpha_is_1 in H1. specialize (Hothers m' Hm' Hne). lra.
  - exists m, d. do 3 (split; [done|]).
    unfold assigned_machine, extra_machines. rewrite Hms, Hfilter, Hfind. done.
Qed.

Lemma loaded_get_schedule :
  exists order a,
    get_schedule loaded = Ok ([], a)
    /\ order ≡ₚ seq 0 (length (jobs jssp))
    /\ StronglySorted (earlier loaded) order
    /\ length a = machines jssp
    /\ forall m, (m < machines jssp)%nat ->
                 a !! m = Some (row_of loaded order m).
Proof.
  destruct (get_schedule_spec _ _ _ loaded_solved)
    as (order & a & _ & Hperm & Hsorted & Hget & Hlen & Hrows).
  exists order, a. split; [|done].
  rewrite Hget, diagnostics_replicate, sum_list_zero; [done|].
  intros j Hj. rewrite Hperm in Hj. apply elem_of_range in Hj.
  by destruct (loaded_assigned_machine j Hj) as (m & d & _ & _ & _ & _ & ?).
Qed.

Lemma feasible_disjunction j1 j2 m :
  (j1 < length (jobs jssp))%nat -> (j2 < length (jobs jssp))%nat ->
  j1 <> j2 -> (m < machines jssp)%nat ->
  rho (alpha j1 m) == 1 -> rho (alpha j2 m) == 1 ->
  exists d1 d2 s12 s21,
    duration jssp j1 m = Some d1 /\ duration jssp j2 m = Some d2
    /\ setup jssp j1 j2 = Some s12 /\ setup jssp j2 j1 = Some s21
    /\ (rho (t j2) + d2 + s21 <= rho (t j1)
        \/ rho (t j1) + d1 + s12 <= rho (t j2)).
Proof.
  intros Hj1 Hj2 Hne Hm Ha1 Ha2.
  destruct (duration jssp j1 m) as [d1|] eqn:Hd1.
  2: { pose proof (feasible_lockout jssp model rho Hgen Hfeas j1 m Hj1 Hm Hd1).
       lra. }
  destruct (duration jssp j2 m) as [d2|] eqn:Hd2.
  2: { pose proof (feasible_lockout jssp model rho Hgen Hfeas j2 m Hj2 Hm Hd2).
       lra. }
  destruct (feasible_big_M jssp model rho Hgen Hfeas j1 j2 m d1 d2
              Hj1 Hj2 Hne Hm Hd1 Hd2)
    as (s12 & s21 & Hs12 & Hs21 & H1 & H2).
  exists d1, d2, s12, s21. do 4 (split; [done|]).
  unfold big_M_1, big_M_2, holds in H1, H2. cbn in H1, H2. unfold H in *.
  destruct (feasible_binary_beta jssp model rho Hgen Hfeas j1 j2) as [Hb|Hb];
    [left|right]; nra.
Qed.
End feasible_extraction.

(** X19.  When the values loaded into a generated model are a feasible
    point, [get_schedule] prints nothing and every job of the problem
    occupies a slot of the array, in the row of the one machine it is
    assigned to, which is eligible for it. *)
Theorem X19_feasible_solution_extracts_every_job jssp model rho :
  generate_model jssp = Ok model -> feasible_point model rho ->
  exists a,
    get_schedule (load_point rho model) = Ok ([], a)
    /\ length a = machines jssp
    /\ forall j,
         (j < length (jobs jssp))%nat ->
         exists m k row,
           eligible jssp j m
           /\ rho (alpha j m) == 1
           /\ a !! m = Some row
           /\ row !! k = Some (Z.of_nat j).
Proof.
  intros Hgen Hfeas.
  destruct (loaded_get_schedule jssp model rho Hgen Hfeas)
    as (order & a & Hget & Hperm & _ & Hlen & Hrows).
  exists a. do 2 (split; [done|]). intros j Hj.
  destruct (loaded_assigned_machine jssp model rho Hgen Hfeas j Hj)
    as (m & d & Hm & Hd & Hone & Hassigned & _).
  assert (j ∈ placed (load_point rho model) order m) as Hin.
  { apply placed_elem. split; [|done]. rewrite Hperm. by apply elem_of_range. }
  apply list_elem_of_lookup_1 in Hin as [k Hk].
  exists m, k, (row_of (load_point rho model) order m).
  split; [split; [done|rewrite Hd; eauto]|]. split; [done|].
  split; [by apply Hrows|].
  unfold row_of. apply lookup_app_Some. left.
  apply list_lookup_fmap_Some. eauto.
Qed.

Lemma X19_witness :
  exists model a,
    generate_model two_jobs = Ok model
    /\ get_schedule (load_point two_jobs_point model) = Ok ([], a)
    /\ a = [[0; 1]]%Z.
Proof.
  destruct two_jobs_feasible as (model & Hgen & Hfeas).
  destruct (X19_feasible_solution_extracts_every_job two_jobs model
              two_jobs_point Hgen Hfeas) as (a & Hget & _).
  exists model, a. split; [exact Hgen|]. split; [exact Hget|].
  vm_compute in Hgen. injection Hgen as <-.
  vm_compute in Hget. by injection Hget as <-.
Defined.

(** X20.  When the values loaded into a generated model are a feasible
    point, all durations are positive and no setup time is negative, the
    rows that [get_schedule] returns are schedules without overlap: of
    two jobs in the same row, the one in the later slot starts no
    earlier than the start of the other plus its duration on that
    machine plus the setup time between them. *)
Theorem X20_extracted_rows_do_not_overlap jssp model rho :
  generate_model jssp = Ok model -> feasible_point model rho ->
  (forall j m d, duration jssp j m = Some d -> 0 < d) ->
  (forall j1 j2 s, setup jssp j1 j2 = Some s -> 0 <= s) ->
  exists a,
    get_schedule (load_point rho model) = Ok ([], a)
    /\ forall m row k k' i j,
         a !! m = Some row -> (k < k')%nat ->
         row !! k = Some (Z.of_nat i) -> row !! k' = Some (Z.of_nat j) ->
         exists d s,
           duration jssp i m = Some d /\ setup jssp i j = Some s
           /\ rho (t i) + d + s <= rho (t j).
Proof.
  intros Hgen Hfeas Hpos Hsetup.
  destruct (loaded_get_schedule jssp model rho Hgen Hfeas)
    as (order & a & Hget & Hperm & Hsorted & Hlen & Hrows).
  destruct (loaded_solved jssp model rho Hgen) as (_ & Hms & _).
  exists a. split; [done|]. intros m row k k' i j Hrow Hlt Hk Hk'.
  assert (m < machines jssp)%nat as Hm
    by (rewrite <- Hlen; by apply lookup_lt_Some in Hrow).
  rewrite (Hrows m Hm) in Hrow. injection Hrow as <-.
  apply row_of_lookup in Hk as [(i' & Heq & Hi)|[Heq _]]; [|lia].
  apply Nat2Z.inj in Heq. subst i'.
  apply row_of_lookup in Hk' as [(j' & Heq & Hj)|[Heq _]]; [|lia].
  apply Nat2Z.inj in Heq. subst j'.
  assert (earlier (load_point rho model) i j) as Hearlier.
  { apply (StronglySorted_lookup_lt _
             (placed (load_point rho model) order m) k k'); [|done|done|done].
    by apply StronglySorted_filter_keep. }
  assert (rho (t i) <= rho (t j)) as Hle
    by exact (key_before_le _ _ _ Hearlier).
  assert (i <> j) as Hne.
  { intros ->.
    assert (k = k'); [|lia].
    apply (NoDup_lookup (placed (load_point rho model) order m) k k' j);
      [|done|done].
    apply NoDup_filter. rewrite Hperm. apply NoDup_seq. }
  apply list_elem_of_lookup_2, placed_elem in Hi as [Hi Hai].
  apply list_elem_of_lookup_2, placed_elem in Hj as [Hj Haj].
  rewrite Hperm in Hi, Hj. apply elem_of_range in Hi, Hj.
  destruct (assigned_machine_first _ _ _ _ Hms Hai) as (_ & H1i & _).
  destruct (assigned_machine_first _ _ _ _ Hms Haj) as (_ & H1j & _).
  apply loaded_alpha_is_1 in H1i, H1j.
  destruct (feasible_disjunction jssp model rho Hgen Hfeas i j m
              Hi Hj Hne Hm H1i H1j)
    as (di & dj & sij & sji & Hdi & Hdj & Hsij & Hsji & [Hback|Hforth]).
  - pose proof (Hpos j m dj Hdj). pose proof (Hsetup j i sji Hsji). lra.
  - exists di, sij. done.
Qed.

Lemma two_jobs_positive :
  (forall j m d, duration two_jobs j m = Some d -> 0 < d)
  /\ (forall j1 j2 s, setup two_jobs j1 j2 = Some s -> 0 <= s).
Proof.
  split.
  - intros j m d Hd. unfold duration in Hd.
    destruct j as [|[|j]]; cbn in Hd; [| |discriminate];
      apply lookup_singleton_Some in Hd as [_ <-]; reflexivity.
  - intros j1 j2 s Hs. unfold setup in Hs.
    destruct j1 as [|[|j1]]; cbn in Hs; [| |discriminate];
      (destruct j2 as [|[|j2]]; cbn in Hs; [| |discriminate]);
      injection Hs as <-; lra.
Qed.

Lemma X20_witness :
  exists model a,
    generate_model two_jobs = Ok model
    /\ get_schedule (load_point two_jobs_point model) = Ok ([], a)
    /\ forall m row k k' i j,
         a !! m = Some row -> (k < k')%nat ->
         row !! k = Some (Z.of_nat i) -> row !! k' = Some (Z.of_nat j) ->
         exists d s,
           duration two_jobs i m = Some d /\ setup two_jobs i j = Some s
           /\ two_jobs_point (t i) + d + s <= two_jobs_point (t j).
Proof.
  destruct two_jobs_feasible as (model & Hgen & Hfeas).
  destruct (X20_extracted_rows_do_not_overlap two_jobs model two_jobs_point
              Hgen Hfeas (proj1 two_jobs_positive) (proj2 two_jobs_positive))
    as (a & Hget & Hrows).
  exists model, a. split; [exact Hgen|]. split; [exact Hget|exact Hrows].
Defined.

(* ===================================================================== *)
(** * What extraction reads, and the empty problem *)
(* ===================================================================== *)

Lemma for_each_ext {A S} (l : list A) (f g : A -> S -> result S) s :
  (forall x s', x ∈ l -> f x s' = g x s') ->
  for_each l f s = for_each l g s.
Proof.
  revert s. induction l as [|x l IH]; intros s Hfg; cbn; [done|].
  rewrite (Hfg x s) by (by left). destruct (g x s) as [s'|e]; cbn; [|done].
  apply IH. intros y s'' Hy. apply Hfg. by right.
Qed.

Lemma insert_sorted_ext key1 key2 x l :
  (forall j, key1 j = key2 j) ->
  insert_sorted key1 x l = insert_sorted key2 x l.
Proof.
  intros Hk. induction l as [|y l IH]; cbn; [done|].
  rewrite !Hk. destruct (py_lt (key2 y) (key2 x)) as [[|]|e]; cbn; [|done|done].
  by rewrite IH.
Qed.

Lemma sorted_ext key1 key2 l :
  (forall j, key1 j = key2 j) -> sorted key1 l = sorted key2 l.
Proof.
  intros Hk. induction l as [|x l IH]; cbn; [done|].
  rewrite IH. destruct (sorted key2 l) as [s|e]; cbn; [|done].
  by apply insert_sorted_ext.
Qed.

(** X21.  [get_schedule] reads nothing but the two index sets, the start
    times and the assignment indicators: two models that agree on these
    give the same printed lines and the same array, whatever their order
    indicators [beta], their tardiness values and their constraints. *)
Theorem X21_extraction_reads_starts_and_assignments model1 model2 :
  model_jobs model1 = model_jobs model2 ->
  model_machines model1 = model_machines model2 ->
  (forall j, value model1 (t j) = value model2 (t j)) ->
  (forall j m, value model1 (alpha j m) = value model2 (alpha j m)) ->
  get_schedule model1 = get_schedule model2.
Proof.
  intros Hjobs Hms Ht Halpha. unfold get_schedule.
  rewrite Hjobs.
  rewrite (sorted_ext (fun j => value model1 (t j))
                      (fun j => value model2 (t j)) _ Ht).
  destruct (sorted _ (model_jobs model2)) as [order|e]; cbn; [|done].
  assert (initial_extraction model1 = initial_extraction model2) as ->
    by (unfold initial_extraction; by rewrite Hjobs, Hms).
  rewrite (for_each_ext order (visit_job model1) (visit_job model2)); [done|].
  intros j e _. unfold visit_job. rewrite Hms. f_equal.
  apply for_each_ext. intros m [e' found] _.
  unfold visit_machine, alpha_is_1. by rewrite Halpha.
Qed.

Lemma X21_witness :
  get_schedule (bare_model 4 2 tie_values)
  = get_schedule (bare_model 4 2 tie_values_reordered).
Proof.
  apply X21_extraction_reads_starts_and_assignments;
    [reflexivity|reflexivity|intros j; reflexivity|intros j m; reflexivity].
Defined.

(** X22.  For a problem without jobs [generate_model] returns a model
    with no constraint at all and the constant objective 0, and
    [get_schedule] on it returns one empty row per machine and prints
    nothing. *)
Theorem X22_empty_problem jssp :
  jobs jssp = [] ->
  exists model,
    generate_model jssp = Ok model
    /\ constraints model = []
    /\ model_objective model = Num 0
    /\ get_schedule model = Ok ([], replicate (machines jssp) []).
Proof.
  intros Hjobs. unfold generate_model. rewrite Hjobs. cbn.
  eexists. split; [reflexivity|]. split; [reflexivity|].
  split; [reflexivity|].
  unfold get_schedule. cbn. unfold initial_extraction. cbn.
  by rewrite length_seq.
Qed.

Lemma X22_witness :
  exists model,
    generate_model no_jobs = Ok model
    /\ get_schedule model = Ok ([], [[]; []; []]).
Proof.
  destruct (X22_empty_problem no_jobs eq_refl)
    as (model & Hgen & _ & _ & Hget).
  exists model. split; [exact Hgen|exact Hget].
Defined.
